(** * Designing-Data-Intensive-Applications: storage, transactions and consensus

    A shallow embedding of the Python sources of the repository and the
    properties its specification states about them:

    - [Raft]     : [09_consensus_store/raft_node.py]
    - [PLog]     : [09_consensus_store/log.py]
    - [Index]    : [03_storage_engine/index.py]
    - [Storage]  : [StorageEngine/log_store.py], [03_storage_engine/compaction.py]
                   and [03_storage_engine/engine.py]
    - [MVCC]     : [07_transaction_system/store.py]
    - [SSI]      : [07_transaction_system/serializable.py]

    Python integers are unbounded and are modelled by [Z]; a Python [str] is
    modelled by a [string] holding its UTF-8 encoding (so [encode] and
    [decode] are the conversions between [string] and [list byte], and the
    code-point order of Python is the byte order of the encoding); a [dict]
    is a [gmap] where only lookups matter and an association list where
    the iteration order matters; exceptions are the [Raise] results of a
    small error monad. *)

From Stdlib Require Import ZArith Lia Bool.
From Stdlib Require Import Strings.Byte Strings.Ascii Strings.String.
From Stdlib Require Import Numbers.DecimalString Numbers.DecimalPos Numbers.DecimalN.
From stdpp Require Import base option list gmap strings fin_maps sorting.

Local Open Scope Z_scope.

(** ** Python values, exceptions and sequences *)

Module Py.

Inductive exn : Type :=
| FileNotFoundError
| StructError
| IndexError
| ZeroDivisionError
| ValueError
| KeyError
| AttributeError
| OSError
| TypeError.

Inductive result (A : Type) : Type :=
| Ok (a : A)
| Raise (e : exn).

Arguments Ok {A} a.
Arguments Raise {A} e.

(** The Python objects that are stored as values: [None], integers and
    strings. *)
Inductive value : Type :=
| VNone
| VInt (z : Z)
| VStr (s : string).

#[export] Instance exn_eq_dec : EqDecision exn.
Proof. solve_decision. Defined.

#[export] Instance result_eq_dec {A : Type} `{EqDecision A} : EqDecision (result A).
Proof. solve_decision. Defined.

#[export] Instance result_ret : MRet result := fun A a => Ok a.

#[export] Instance result_bind : MBind result := fun A B k r =>
  match r with
  | Ok a => k a
  | Raise e => Raise e
  end.

Definition len {A : Type} (l : list A) : Z := Z.of_nat (length l).

(** [l[i]] : the position a Python index denotes, negative indices counting
    from the end; [IndexError] outside [-len l, len l). *)
Definition index_pos {A : Type} (l : list A) (i : Z) : result nat :=
  if (0 <=? i) && (i <? len l) then Ok (Z.to_nat i)
  else if (i <? 0) && (0 <=? len l + i) then Ok (Z.to_nat (len l + i))
  else Raise IndexError.

Definition getitem {A : Type} (l : list A) (i : Z) : result A :=
  match index_pos l i with
  | Ok n => match l !! n with
            | Some x => Ok x
            | None => Raise IndexError
            end
  | Raise e => Raise e
  end.

Definition setitem {A : Type} (l : list A) (i : Z) (x : A) : result (list A) :=
  match index_pos l i with
  | Ok n => Ok (<[n := x]> l)
  | Raise e => Raise e
  end.

(** [l[:j]] *)
Definition slice_to {A : Type} (l : list A) (j : Z) : list A :=
  if 0 <=? j then take (Z.to_nat j) l
  else take (Z.to_nat (len l + j)) l.

(** [l[-1]] when [l] is not empty. *)
Definition last_item {A : Type} (l : list A) : option A := last l.

(** [struct.pack] and [struct.unpack] with a big-endian format without
    padding (['>...']): a format is the list of its field widths in bytes
    ([B] = 1, [I] = 4, [Q] = 8), all fields unsigned. *)
Definition byte_of_Z (z : Z) : byte :=
  match Byte.of_N (Z.to_N (z mod 256)) with
  | Some b => b
  | None => x00
  end.

Definition Z_of_byte (b : byte) : Z := Z.of_N (Byte.to_N b).

Fixpoint be_encode (w : nat) (n : Z) : list byte :=
  match w with
  | O => []
  | S w' => byte_of_Z (n / 256 ^ Z.of_nat w') :: be_encode w' n
  end.

Definition be_decode (bs : list byte) : Z :=
  foldl (fun acc b => acc * 256 + Z_of_byte b) 0 bs.

Fixpoint struct_pack (fields : list (nat * Z)) : result (list byte) :=
  match fields with
  | [] => Ok []
  | (w, n) :: rest =>
      if (0 <=? n) && (n <? 256 ^ Z.of_nat w) then
        bs ← struct_pack rest; Ok (be_encode w n ++ bs)
      else Raise StructError
  end.

Fixpoint unpack_fields (widths : list nat) (bs : list byte) : list Z :=
  match widths with
  | [] => []
  | w :: rest => be_decode (take w bs) :: unpack_fields rest (drop w bs)
  end.

Definition struct_unpack (widths : list nat) (bs : list byte) : result (list Z) :=
  if Nat.eqb (length bs) (foldr Nat.add O widths) then Ok (unpack_fields widths bs)
  else Raise StructError.

(** [str.encode('utf-8')] and [bytes.decode('utf-8')]. *)
Definition encode (s : string) : list byte := list_byte_of_string s.
Definition decode (bs : list byte) : string := string_of_list_byte bs.

(** A file opened for reading: [f.read(n)] at position [pos] returns the
    bytes read (fewer than [n] at the end of the file, none past it). *)
Definition read_bytes (data : list byte) (pos : Z) (n : Z) : list byte :=
  take (Z.to_nat n) (drop (Z.to_nat pos) data).

End Py.

Export Py.


(** ** Raft node ([09_consensus_store/raft_node.py]) *)

Module Raft.

Inductive State : Type := FOLLOWER | CANDIDATE | LEADER.

(** [command] is an opaque JSON value; it is only stored and passed on. *)
Definition Command : Type := string.

Record LogEntry : Type := mkLogEntry {
  term : Z;
  index : Z;
  command : Command
}.

#[export] Instance LogEntry_eq_dec : EqDecision LogEntry.
Proof. solve_decision. Defined.

Record RaftState : Type := mkRaftState {
  current_term : Z;
  voted_for : option Z;
  log : list LogEntry;
  commit_index : Z;
  last_applied : Z
}.

Definition Address : Type := (string * Z)%type.

(** The clock reading [time.time()] and the draw of [random.uniform(1.5, 3.0)]
    are inputs of every step that resets the election timer. *)
Record Env : Type := mkEnv {
  now : Z;
  random_timeout : Z
}.

(** [applied] records, oldest first, the entries handed to [apply_callback]. *)
Record RaftNode : Type := mkRaftNode {
  node_id : Z;
  peers : list (Z * Address);
  state : State;
  raft_state : RaftState;
  next_index : gmap Z Z;
  match_index : gmap Z Z;
  leader_id : option Z;
  election_timeout : Z;
  last_heartbeat : Z;
  applied : list LogEntry
}.

Definition set_state (s : State) (n : RaftNode) : RaftNode :=
  mkRaftNode (node_id n) (peers n) s (raft_state n) (next_index n)
    (match_index n) (leader_id n) (election_timeout n) (last_heartbeat n)
    (applied n).

Definition set_raft_state (rs : RaftState) (n : RaftNode) : RaftNode :=
  mkRaftNode (node_id n) (peers n) (state n) rs (next_index n)
    (match_index n) (leader_id n) (election_timeout n) (last_heartbeat n)
    (applied n).

Definition set_leader_id (l : option Z) (n : RaftNode) : RaftNode :=
  mkRaftNode (node_id n) (peers n) (state n) (raft_state n) (next_index n)
    (match_index n) l (election_timeout n) (last_heartbeat n) (applied n).

Definition set_indices (ni mi : gmap Z Z) (n : RaftNode) : RaftNode :=
  mkRaftNode (node_id n) (peers n) (state n) (raft_state n) ni mi
    (leader_id n) (election_timeout n) (last_heartbeat n) (applied n).

Definition set_applied (rs : RaftState) (a : list LogEntry) (n : RaftNode)
  : RaftNode :=
  mkRaftNode (node_id n) (peers n) (state n) rs (next_index n)
    (match_index n) (leader_id n) (election_timeout n) (last_heartbeat n) a.

Definition set_current_term (t : Z) (rs : RaftState) : RaftState :=
  mkRaftState t (voted_for rs) (log rs) (commit_index rs) (last_applied rs).

Definition set_voted_for (v : option Z) (rs : RaftState) : RaftState :=
  mkRaftState (current_term rs) v (log rs) (commit_index rs) (last_applied rs).

Definition set_log (l : list LogEntry) (rs : RaftState) : RaftState :=
  mkRaftState (current_term rs) (voted_for rs) l (commit_index rs)
    (last_applied rs).

Definition set_commit_index (c : Z) (rs : RaftState) : RaftState :=
  mkRaftState (current_term rs) (voted_for rs) (log rs) c (last_applied rs).

Definition set_last_applied (a : Z) (rs : RaftState) : RaftState :=
  mkRaftState (current_term rs) (voted_for rs) (log rs) (commit_index rs) a.

Definition _reset_election_timer (env : Env) (n : RaftNode) : RaftNode :=
  mkRaftNode (node_id n) (peers n) (state n) (raft_state n) (next_index n)
    (match_index n) (leader_id n) (random_timeout env) (now env) (applied n).

(** Requests and responses of the two RPCs (JSON objects on the wire). *)
Record AppendEntries : Type := mkAppendEntries {
  ae_term : Z;
  ae_leader_id : Z;
  ae_prev_log_index : Z;
  ae_prev_log_term : Z;
  ae_entries : list LogEntry;
  ae_leader_commit : Z
}.

Record AppendReply : Type := mkAppendReply {
  ar_term : Z;
  ar_success : bool
}.

Record RequestVote : Type := mkRequestVote {
  rv_term : Z;
  rv_candidate_id : Z;
  rv_last_log_index : Z;
  rv_last_log_term : Z
}.

(** A vote response as the candidate reads it: [response.get('term', 0)]
    and the truth value of [response.get('vote_granted')]. *)
Record VoteReply : Type := mkVoteReply {
  vr_term : Z;
  vr_vote_granted : bool
}.

(** [_apply_committed]: the [while] loop runs [commit_index - last_applied]
    times, which is the fuel [k]. *)
Fixpoint apply_loop (k : nat) (n : RaftNode) : result RaftNode :=
  match k with
  | O => Ok n
  | S k' =>
      let rs := raft_state n in
      if last_applied rs <? commit_index rs then
        let la := last_applied rs + 1 in
        entry ← getitem (log rs) (la - 1);
        apply_loop k' (set_applied (set_last_applied la rs) (applied n ++ [entry]) n)
      else Ok n
  end.

Definition _apply_committed (n : RaftNode) : result RaftNode :=
  apply_loop (Z.to_nat (commit_index (raft_state n) - last_applied (raft_state n))) n.

(** The [for entry_data in entries] loop of [_handle_append_entries]. *)
Fixpoint store_entries (entries : list LogEntry) (l : list LogEntry)
  : result (list LogEntry) :=
  match entries with
  | [] => Ok l
  | entry :: rest =>
      if index entry <=? len l then
        l' ← setitem l (index entry - 1) entry;
        store_entries rest l'
      else store_entries rest (l ++ [entry])
  end.

(** The end of [_handle_append_entries], once the request has passed the
    checks: the entries are stored and the commit index is advanced. *)
Definition accept_entries (req : AppendEntries) (n : RaftNode)
  : result (RaftNode * AppendReply) :=
  l ← store_entries (ae_entries req) (log (raft_state n));
  let n := set_raft_state (set_log l (raft_state n)) n in
  n ← (if commit_index (raft_state n) <? ae_leader_commit req then
         _apply_committed
           (set_raft_state
              (set_commit_index
                 (Z.min (ae_leader_commit req) (len (log (raft_state n))))
                 (raft_state n)) n)
       else Ok n);
  Ok (n, mkAppendReply (current_term (raft_state n)) true).

(** The start of [_handle_append_entries]: a higher term is adopted. *)
Definition adopt_term (t : Z) (n : RaftNode) : RaftNode :=
  if current_term (raft_state n) <? t then
    set_state FOLLOWER
      (set_raft_state (set_voted_for None (set_current_term t (raft_state n))) n)
  else n.

Definition _handle_append_entries (env : Env) (req : AppendEntries) (n : RaftNode)
  : result (RaftNode * AppendReply) :=
  let n := adopt_term (ae_term req) n in
  if ae_term req <? current_term (raft_state n) then
    Ok (n, mkAppendReply (current_term (raft_state n)) false)
  else
    let n := _reset_election_timer env n in
    let n := set_leader_id (Some (ae_leader_id req)) n in
    let n := set_state FOLLOWER n in
    if 0 <? ae_prev_log_index req then
      if len (log (raft_state n)) <? ae_prev_log_index req then
        Ok (n, mkAppendReply (current_term (raft_state n)) false)
      else
        prev ← getitem (log (raft_state n)) (ae_prev_log_index req - 1);
        if negb (term prev =? ae_prev_log_term req) then
          let l := slice_to (log (raft_state n)) (ae_prev_log_index req - 1) in
          let n := set_raft_state (set_log l (raft_state n)) n in
          Ok (n, mkAppendReply (current_term (raft_state n)) false)
        else accept_entries req n
    else accept_entries req n.

(** [_become_leader] *)
Definition _become_leader (n : RaftNode) : RaftNode :=
  let n := set_leader_id (Some (node_id n)) (set_state LEADER n) in
  let ni := foldl (fun m p => <[p.1 := len (log (raft_state n)) + 1]> m)
                  (next_index n) (peers n) in
  let mi := foldl (fun m p => <[p.1 := 0]> m) (match_index n) (peers n) in
  set_indices ni mi n.

(** The [for peer_id, (host, port) in self.peers.items()] loop of
    [_start_election]; [send_rpc] is the network as the candidate sees it
    ([None]: no answer). The result is [inl n] when a response with a higher
    term ends the election ([return]), and [inr (n, votes)] otherwise. *)
Fixpoint collect_votes (send_rpc : Address -> RequestVote -> option VoteReply)
  (req : RequestVote) (ps : list (Z * Address)) (votes : Z) (n : RaftNode)
  : RaftNode + (RaftNode * Z) :=
  match ps with
  | [] => inr (n, votes)
  | (peer_id, addr) :: rest =>
      match send_rpc addr req with
      | Some r =>
          let votes := if vr_vote_granted r then votes + 1 else votes in
          if rv_term req <? vr_term r then
            inl (set_raft_state
                   (set_voted_for None
                      (set_current_term (vr_term r) (raft_state n)))
                   (set_state FOLLOWER n))
          else collect_votes send_rpc req rest votes n
      | None => collect_votes send_rpc req rest votes n
      end
  end.

Definition last_log_term (l : list LogEntry) : Z :=
  match last l with
  | Some e => term e
  | None => 0
  end.

(** The state after the candidate has voted for itself, and the request it
    broadcasts. *)
Definition election_start (env : Env) (n : RaftNode) : RaftNode :=
  let n := set_state CANDIDATE n in
  let rs := raft_state n in
  let n := set_raft_state
             (set_voted_for (Some (node_id n))
                (set_current_term (current_term rs + 1) rs)) n in
  _reset_election_timer env n.

Definition election_request (n : RaftNode) : RequestVote :=
  mkRequestVote (current_term (raft_state n)) (node_id n)
    (len (log (raft_state n))) (last_log_term (log (raft_state n))).

(** The votes counted by [_start_election] ([None] on the early return). *)
Definition election_votes (env : Env)
  (send_rpc : Address -> RequestVote -> option VoteReply) (n : RaftNode)
  : option Z :=
  let n := election_start env n in
  match collect_votes send_rpc (election_request n) (peers n) 1 n with
  | inl _ => None
  | inr (_, votes) => Some votes
  end.

Definition is_candidate (s : State) : bool :=
  match s with CANDIDATE => true | _ => false end.

Definition _start_election (env : Env)
  (send_rpc : Address -> RequestVote -> option VoteReply) (n : RaftNode)
  : RaftNode :=
  let n := election_start env n in
  match collect_votes send_rpc (election_request n) (peers n) 1 n with
  | inl n' => n'
  | inr (n', votes) =>
      if (len (peers n') / 2 <? votes) && is_candidate (state n')
      then _become_leader n'
      else n'
  end.

(** The cluster is the node itself and its peers. *)
Definition cluster_size (n : RaftNode) : Z := len (peers n) + 1.

(** [log_ok] of [_handle_request_vote]: the candidate's log is not behind
    the log of the node. *)
Definition log_ok (req : RequestVote) (l : list LogEntry) : bool :=
  match last l with
  | None => true
  | Some e =>
      if rv_last_log_term req <? term e then false
      else if (rv_last_log_term req =? term e)
              && (rv_last_log_index req <? index e) then false
      else true
  end.

(** [voted_for is None or voted_for == candidate_id] *)
Definition may_vote_for (candidate_id : Z) (rs : RaftState) : bool :=
  match voted_for rs with
  | None => true
  | Some v => v =? candidate_id
  end.

Definition _handle_request_vote (env : Env) (req : RequestVote) (n : RaftNode)
  : RaftNode * VoteReply :=
  let n := adopt_term (rv_term req) n in
  if rv_term req <? current_term (raft_state n) then
    (n, mkVoteReply (current_term (raft_state n)) false)
  else if log_ok req (log (raft_state n))
          && may_vote_for (rv_candidate_id req) (raft_state n) then
    let n := set_raft_state
               (set_voted_for (Some (rv_candidate_id req)) (raft_state n)) n in
    let n := _reset_election_timer env n in
    (n, mkVoteReply (current_term (raft_state n)) true)
  else (n, mkVoteReply (current_term (raft_state n)) false).

(** The answer to a client: [inl leader_id] is
    [{'ok': False, 'error': 'not leader', 'leader_id': leader_id}] and
    [inr index] is [{'ok': True, 'index': index}]. *)
Definition ClientReply : Type := (option Z + Z)%type.

Definition is_leader (s : State) : bool :=
  match s with LEADER => true | _ => false end.

Definition _handle_client_request (cmd : Command) (n : RaftNode)
  : RaftNode * ClientReply :=
  if negb (is_leader (state n)) then (n, inl (leader_id n))
  else
    let rs := raft_state n in
    let entry := mkLogEntry (current_term rs) (len (log rs) + 1) cmd in
    (set_raft_state (set_log (log rs ++ [entry]) rs) n, inr (index entry)).

(** The answer of [_get_status]; [ok] and [node_id] do not vary. *)
Record Status : Type := mkStatus {
  st_state : State;
  st_term : Z;
  st_leader_id : option Z;
  st_log_length : Z;
  st_commit_index : Z;
  st_last_applied : Z
}.

Definition _get_status (n : RaftNode) : Status :=
  mkStatus (state n) (current_term (raft_state n)) (leader_id n)
    (len (log (raft_state n))) (commit_index (raft_state n))
    (last_applied (raft_state n)).

(** The requests by their ['cmd'], and the responses. *)
Inductive Request : Type :=
| ReqVote (req : RequestVote)
| ReqAppend (req : AppendEntries)
| ReqClient (cmd : Command)
| ReqStatus
| ReqUnknown.

Inductive Response : Type :=
| RespVote (r : VoteReply)
| RespAppend (r : AppendReply)
| RespClient (r : ClientReply)
| RespStatus (s : Status)
| RespError.

Definition _process (env : Env) (request : Request) (n : RaftNode)
  : result (RaftNode * Response) :=
  match request with
  | ReqVote req =>
      let '(n', r) := _handle_request_vote env req n in Ok (n', RespVote r)
  | ReqAppend req =>
      '(n', r) ← _handle_append_entries env req n; Ok (n', RespAppend r)
  | ReqClient cmd =>
      let '(n', r) := _handle_client_request cmd n in Ok (n', RespClient r)
  | ReqStatus => Ok (n, RespStatus (_get_status n))
  | ReqUnknown => Ok (n, RespError)
  end.

(** [replicated] of [_update_commit_index] for the index [k]. *)
Definition replicated_on (n : RaftNode) (k : Z) : Z :=
  foldl (fun r p => if k <=? default 0 (match_index n !! p.1) then r + 1 else r)
    1 (peers n).

(** The [for n in range(...)] loop of [_update_commit_index]. *)
Fixpoint commit_loop (ks : list Z) (n : RaftNode) : result RaftNode :=
  match ks with
  | [] => Ok n
  | k :: rest =>
      entry ← getitem (log (raft_state n)) (k - 1);
      if negb (term entry =? current_term (raft_state n)) then commit_loop rest n
      else if len (peers n) / 2 <? replicated_on n k then
        commit_loop rest (set_raft_state (set_commit_index k (raft_state n)) n)
      else commit_loop rest n
  end.

Definition _update_commit_index (n : RaftNode) : result RaftNode :=
  let rs := raft_state n in
  n ← commit_loop (seqZ (commit_index rs + 1) (len (log rs) - commit_index rs)) n;
  _apply_committed n.

End Raft.

(** ** Persistent Raft log ([09_consensus_store/log.py]) *)

Module PLog.

Section WithJson.

(** [json_dumps c] is [json.dumps(c).encode()] and [json_loads b] is
    [json.loads(b.decode())], for the commands of type [Command]. *)
Context {Command : Type}.
Variable json_dumps : Command -> list byte.
Variable json_loads : list byte -> result Command.

Record PersistentLogEntry : Type := mkEntry {
  term : Z;
  index : Z;
  command : Command
}.

(** [file] is the content of the file at [self.path], [None] when there is
    no such file. *)
Record PersistentLog : Type := mkLog {
  file : option (list byte);
  entries : list PersistentLogEntry
}.

(** The [while True] loop of [_load], reading at position [pos]. Every turn
    that does not leave the loop moves past a header of 20 bytes, so
    [S (length data)] turns of fuel are never used up. *)
Fixpoint load_loop (fuel : nat) (data : list byte) (pos : Z)
  (acc : list PersistentLogEntry) : result (list PersistentLogEntry) :=
  match fuel with
  | O => Ok acc
  | S fuel' =>
      let header := read_bytes data pos 16 in
      if len header <? 16 then Ok acc
      else
        fields ← struct_unpack [8; 8]%nat (take 16 header);
        match fields with
        | [term; index; cmd_len] =>
            let header_rest := read_bytes data (pos + 16) 4 in
            if len header_rest <? 4 then Ok acc
            else
              rest ← struct_unpack [4]%nat header_rest;
              cmd_len ← getitem rest 0;
              let cmd_data := read_bytes data (pos + 20) cmd_len in
              if len cmd_data <? cmd_len then Ok acc
              else
                command ← json_loads cmd_data;
                load_loop fuel' data (pos + 20 + cmd_len)
                  (acc ++ [mkEntry term index command])
        | _ => Raise ValueError
        end
  end.

Definition _load (file : option (list byte)) : result (list PersistentLogEntry) :=
  match file with
  | None => Ok []
  | Some data => load_loop (S (length data)) data 0 []
  end.

(** [PersistentLog(path)] *)
Definition open_log (file : option (list byte)) : result PersistentLog :=
  es ← _load file; Ok (mkLog file es).

Definition _append_to_file (entry : PersistentLogEntry) (file : option (list byte))
  : result (option (list byte)) :=
  let cmd_bytes := json_dumps (command entry) in
  header ← struct_pack [(8%nat, term entry); (8%nat, index entry);
                        (4%nat, len cmd_bytes)];
  Ok (Some (default [] file ++ header ++ cmd_bytes)).

Definition append (term : Z) (command : Command) (l : PersistentLog)
  : result (PersistentLog * PersistentLogEntry) :=
  let index := len (entries l) + 1 in
  let entry := mkEntry term index command in
  f ← _append_to_file entry (file l);
  Ok (mkLog f (entries l ++ [entry]), entry).

(** A sequence of [append(term, command)] calls. *)
Fixpoint append_all (calls : list (Z * Command)) (l : PersistentLog)
  : result PersistentLog :=
  match calls with
  | [] => Ok l
  | (t, c) :: rest => '(l', _) ← append t c l; append_all rest l'
  end.

(** [get(index)] *)
Definition get (index : Z) (l : PersistentLog)
  : result (option PersistentLogEntry) :=
  if (1 <=? index) && (index <=? len (entries l)) then
    entry ← getitem (entries l) (index - 1); Ok (Some entry)
  else Ok None.

Definition last_index (l : PersistentLog) : Z := len (entries l).

Definition last_term (l : PersistentLog) : Z :=
  match last_item (entries l) with
  | Some entry => term entry
  | None => 0
  end.

(** The loop of [_rewrite]; [data] is what has been written. *)
Fixpoint rewrite_loop (es : list PersistentLogEntry) (data : list byte)
  : result (list byte) :=
  match es with
  | [] => Ok data
  | entry :: rest =>
      let cmd_bytes := json_dumps (command entry) in
      header ← struct_pack [(8%nat, term entry); (8%nat, index entry);
                            (4%nat, len cmd_bytes)];
      rewrite_loop rest (data ++ header ++ cmd_bytes)
  end.

(** [_rewrite] opens the file with ['wb'], so it starts from no bytes. *)
Definition _rewrite (l : PersistentLog) : result PersistentLog :=
  data ← rewrite_loop (entries l) [];
  Ok (mkLog (Some data) (entries l)).

Definition truncate_from (index : Z) (l : PersistentLog) : result PersistentLog :=
  if index <=? len (entries l) then
    _rewrite (mkLog (file l) (slice_to (entries l) (index - 1)))
  else Ok l.

End WithJson.

End PLog.

(** ** Raft metadata ([09_consensus_store/log.py]) *)

Module Meta.

(** [file] is the content of the file at [self.path], [None] when there is
    no such file. *)
Record RaftMetadata : Type := mkMeta {
  file : option (list byte);
  current_term : Z;
  voted_for : option Z
}.

(** The field [q] of [struct]: a signed integer of [w] bytes in two's
    complement. *)
Definition pack_signed (w : nat) (n : Z) : result (list byte) :=
  if (- (256 ^ Z.of_nat w / 2) <=? n) && (n <? 256 ^ Z.of_nat w / 2)
  then Ok (be_encode w (n mod 256 ^ Z.of_nat w))
  else Raise StructError.

Definition unpack_signed (bs : list byte) : Z :=
  let u := be_decode bs in
  if u <? 256 ^ len bs / 2 then u else u - 256 ^ len bs.

(** [_load], on an object with the term 0 and no vote: the term and the
    vote it leaves. *)
Definition _load (file : option (list byte)) : Z * option Z :=
  match file with
  | None => (0, None)
  | Some data =>
      if 16 <=? len data then
        let term := be_decode (take 8 (take 16 data)) in
        let voted_for := unpack_signed (drop 8 (take 16 data)) in
        (term, if 0 <=? voted_for then Some voted_for else None)
      else (0, None)
  end.

(** [RaftMetadata(path)] *)
Definition open_meta (file : option (list byte)) : RaftMetadata :=
  let '(term, voted_for) := _load file in mkMeta file term voted_for.

(** [_save]: [open(self.path, 'wb')] empties the file before [struct.pack]
    is evaluated, so the file is empty when [struct.pack] raises. *)
Definition _save (m : RaftMetadata) : RaftMetadata * result unit :=
  let voted := match voted_for m with Some v => v | None => -1 end in
  match (t ← struct_pack [(8%nat, current_term m)];
         v ← pack_signed 8 voted;
         Ok (t ++ v)) with
  | Ok bs => (mkMeta (Some bs) (current_term m) (voted_for m), Ok tt)
  | Raise e => (mkMeta (Some []) (current_term m) (voted_for m), Raise e)
  end.

Definition set_term (term : Z) (m : RaftMetadata) : RaftMetadata * result unit :=
  _save (mkMeta (file m) term None).

Definition set_voted_for (node_id : option Z) (m : RaftMetadata)
  : RaftMetadata * result unit :=
  _save (mkMeta (file m) (current_term m) node_id).

Definition update (term : Z) (voted_for : option Z) (m : RaftMetadata)
  : RaftMetadata * result unit :=
  _save (mkMeta (file m) term voted_for).

End Meta.

(** ** Indices ([03_storage_engine/index.py]) *)

Module Index.

(** The order of Python on [str]. *)
Definition str_le (a b : string) : Prop := String.leb a b = true.

#[export] Instance str_le_dec : RelDecision str_le :=
  fun a b => decide (String.leb a b = true).

(** [sorted(keys)] *)
Definition sorted (keys : list string) : list string := merge_sort str_le keys.

(** [bisect.bisect_right(a, x)] with [lt_x y] standing for [x < y]. *)
Fixpoint bisect_loop {A : Type} (fuel : nat) (lt_x : A -> bool) (a : list A)
  (lo hi : Z) : Z :=
  match fuel with
  | O => lo
  | S fuel' =>
      if lo <? hi then
        let mid := (lo + hi) / 2 in
        match a !! Z.to_nat mid with
        | Some y =>
            if lt_x y then bisect_loop fuel' lt_x a lo mid
            else bisect_loop fuel' lt_x a (mid + 1) hi
        | None => lo
        end
      else lo
  end.

Definition bisect_right {A : Type} (lt_x : A -> bool) (a : list A) : Z :=
  bisect_loop (S (length a)) lt_x a 0 (len a).

(** *** HashIndex *)

Record HashIndex : Type := mkHashIndex {
  index : gmap string (Z * Z)
}.

Definition hash_put (key : string) (segment_id offset : Z) (h : HashIndex)
  : HashIndex :=
  mkHashIndex (<[key := (segment_id, offset)]> (index h)).

Definition hash_get (key : string) (h : HashIndex) : option (Z * Z) :=
  index h !! key.

Definition hash_delete (key : string) (h : HashIndex) : HashIndex :=
  mkHashIndex (delete key (index h)).

Definition hash_keys (h : HashIndex) : list string := (map_to_list (index h)).*1.

(** *** BloomFilter *)

Section WithHash.

(** The built-in [hash] of Python on [str]. *)
Variable hash : string -> Z.

Record BloomFilter : Type := mkBloom {
  size : Z;
  num_hashes : Z;
  bits : list bool
}.

(** [BloomFilter(size, num_hashes)] *)
Definition bloom_init (size num_hashes : Z) : BloomFilter :=
  mkBloom size num_hashes (replicate (Z.to_nat size) false).

(** The [i]-th value of the generator [_hashes(key)]. *)
Definition hash_at (b : BloomFilter) (key : string) (i : Z) : result Z :=
  let h1 := hash key in
  let h2 := hash (key ++ "_salt")%string in
  if size b =? 0 then Raise ZeroDivisionError
  else Ok ((h1 + i * h2) mod size b).

Fixpoint add_loop (b : BloomFilter) (key : string) (idxs : list Z)
  (bs : list bool) : result (list bool) :=
  match idxs with
  | [] => Ok bs
  | i :: rest =>
      h ← hash_at b key i;
      bs' ← setitem bs h true;
      add_loop b key rest bs'
  end.

Definition add (key : string) (b : BloomFilter) : result BloomFilter :=
  bs ← add_loop b key (seqZ 0 (num_hashes b)) (bits b);
  Ok (mkBloom (size b) (num_hashes b) bs).

(** [all(self.bits[h] for h in self._hashes(key))] stops at the first
    bit that is not set. *)
Fixpoint all_loop (b : BloomFilter) (key : string) (idxs : list Z) : result bool :=
  match idxs with
  | [] => Ok true
  | i :: rest =>
      h ← hash_at b key i;
      bit ← getitem (bits b) h;
      if bit : bool then all_loop b key rest else Ok false
  end.

Definition might_contain (key : string) (b : BloomFilter) : result bool :=
  all_loop b key (seqZ 0 (num_hashes b)).

Fixpoint add_all (keys : list string) (b : BloomFilter) : result BloomFilter :=
  match keys with
  | [] => Ok b
  | key :: rest => b' ← add key b; add_all rest b'
  end.

Definition rebuild (keys : list string) (b : BloomFilter) : result BloomFilter :=
  add_all keys (mkBloom (size b) (num_hashes b) (replicate (Z.to_nat (size b)) false)).

(** The bit array has as many bits as the size says, and one at least. *)
Definition well_sized (b : BloomFilter) : Prop :=
  0 < size b ∧ length (bits b) = Z.to_nat (size b).

(** The bit at [h] is set. *)
Definition bit_set (bs : list bool) (h : Z) : Prop := getitem bs h = Ok true.

(** The filter answers [True] for [k]. *)
Definition contains (k : string) (b : BloomFilter) : Prop :=
  might_contain k b = Ok true.

(** The calls a client makes on a filter. *)
Inductive bloom_op : Type :=
| Add (key : string)
| Rebuild (keys : list string).

Definition bloom_step (o : bloom_op) (b : BloomFilter) : result BloomFilter :=
  match o with
  | Add key => add key b
  | Rebuild keys => rebuild keys b
  end.

Fixpoint bloom_run (ops : list bloom_op) (b : BloomFilter) : result BloomFilter :=
  match ops with
  | [] => Ok b
  | o :: rest => b' ← bloom_step o b; bloom_run rest b'
  end.

(** [o] puts [k] into the filter. *)
Definition inserts (k : string) (o : bloom_op) : Prop :=
  match o with
  | Add key => key = k
  | Rebuild keys => k ∈ keys
  end.

(** [o] is no rebuild whose key set excludes [k]. *)
Definition keeps (k : string) (o : bloom_op) : Prop :=
  match o with
  | Add _ => True
  | Rebuild keys => k ∈ keys
  end.

End WithHash.

(** *** SSTableIndex *)

Record SSTableIndex : Type := mkSSTable {
  data_file : option (list byte);
  index_file : option (list byte);
  sparse_index : list (string * Z)
}.

(** [SSTableIndex(path)], the files at [data_path] and [index_path] given. *)
Definition sstable_init (data index : option (list byte)) : SSTableIndex :=
  mkSSTable data index [].

(** The first loop of [build_from_records]: [data] is what has been written
    to the data file, whose length is [offset]. *)
Fixpoint build_loop (records : gmap string string) (sparse_interval : Z)
  (keys : list string) (data : list byte) (count : Z)
  (sparse : list (string * Z)) : result (list byte * list (string * Z)) :=
  match keys with
  | [] => Ok (data, sparse)
  | key :: rest =>
      match records !! key with
      | None => Raise KeyError
      | Some value =>
          let key_bytes := encode key in
          let value_bytes := encode value in
          header ← struct_pack [(4%nat, len key_bytes); (4%nat, len value_bytes)];
          let record := header ++ key_bytes ++ value_bytes in
          if sparse_interval =? 0 then Raise ZeroDivisionError
          else
            let sparse :=
              if count mod sparse_interval =? 0 then sparse ++ [(key, len data)]
              else sparse in
            build_loop records sparse_interval rest (data ++ record) (count + 1)
              sparse
      end
  end.

Fixpoint write_index (sparse : list (string * Z)) (out : list byte)
  : result (list byte) :=
  match sparse with
  | [] => Ok out
  | (key, offset) :: rest =>
      let key_bytes := encode key in
      header ← struct_pack [(4%nat, len key_bytes); (8%nat, offset)];
      write_index rest (out ++ header ++ key_bytes)
  end.

Definition build_from_records (records : gmap string string)
  (sparse_interval : Z) (t : SSTableIndex) : result SSTableIndex :=
  let sorted_keys := sorted (map_to_list records).*1 in
  '(data, sparse) ← build_loop records sparse_interval sorted_keys [] 0
                      (sparse_index t);
  idx ← write_index sparse [];
  Ok (mkSSTable (Some data) (Some idx) sparse).

(** The scan of [get] in the data file, from position [pos]. Every turn that
    stays in the loop has read a header of 8 bytes, so [S (length data)]
    turns of fuel are never used up. *)
Fixpoint scan_loop (fuel : nat) (data : list byte) (key : string)
  (end_offset : Z) (pos : Z) : result (option string) :=
  match fuel with
  | O => Ok None
  | S fuel' =>
      if pos <? end_offset then
        let header := read_bytes data pos 8 in
        if len header <? 8 then Ok None
        else
          fields ← struct_unpack [4; 4]%nat header;
          match fields with
          | [key_len; value_len] =>
              let key_bytes := read_bytes data (pos + 8) key_len in
              let record_key := decode key_bytes in
              let pos := pos + 8 + len key_bytes in
              if String.eqb record_key key then
                Ok (Some (decode (read_bytes data pos value_len)))
              else if String.ltb key record_key then Ok None
              else scan_loop fuel' data key end_offset (pos + value_len)
          | _ => Raise ValueError
          end
      else Ok None
  end.

(** [(key,) < entry] on tuples: the first components decide, and on equal
    first components the shorter tuple is the smaller one. *)
Definition key_tuple_lt (key : string) (entry : string * Z) : bool :=
  String.leb key entry.1.

Definition sstable_get (key : string) (t : SSTableIndex) : result (option string) :=
  match sparse_index t with
  | [] => Ok None
  | _ =>
      let idx := bisect_right (key_tuple_lt key) (sparse_index t) - 1 in
      start_offset ← (if idx <? 0 then Ok 0
                      else e ← getitem (sparse_index t) idx; Ok e.2);
      end_offset ← (if idx + 1 <? len (sparse_index t) then
                      e ← getitem (sparse_index t) (idx + 1); Ok e.2
                    else Ok (match data_file t with
                             | Some data => len data
                             | None => 0
                             end));
      match data_file t with
      | None => Ok None
      | Some data => scan_loop (S (length data)) data key end_offset start_offset
      end
  end.

End Index.

(** ** Segmented log, compactor and storage engine
    ([StorageEngine/log_store.py], [03_storage_engine/compaction.py],
    [03_storage_engine/engine.py]) *)

Module Storage.

Import Index.

Definition SEGMENT_MAX_SIZE : Z := 1024 * 1024.

(** The files of [data_dir], by name. *)
Abbreviation Files := (gmap string (list byte)).

Record LogSegment : Type := mkSegment {
  path : string;
  segment_id : Z;
  size : Z
}.

#[export] Instance LogSegment_inhabited : Inhabited LogSegment :=
  populate (mkSegment "" 0 0).

(** [LogSegment(path, segment_id)] *)
Definition segment_new (fs : Files) (path : string) (segment_id : Z) : LogSegment :=
  mkSegment path segment_id
    (match fs !! path with
     | Some data => len data
     | None => 0
     end).

(** The bytes [append] writes for [key] and [value] ([None]: a tombstone). *)
Definition record_bytes (key : string) (value : option string)
  : result (list byte) :=
  let key_bytes := encode key in
  let value_bytes := match value with Some v => encode v | None => [] end in
  let deleted := match value with Some _ => 0 | None => 1 end in
  header ← struct_pack [(4%nat, len key_bytes); (4%nat, len value_bytes);
                        (1%nat, deleted)];
  Ok (header ++ key_bytes ++ value_bytes).

Definition segment_append (key : string) (value : option string)
  (seg : LogSegment) (fs : Files) : result (LogSegment * Files * Z) :=
  record ← record_bytes key value;
  let offset := size seg in
  let fs' := <[path seg := default [] (fs !! path seg) ++ record]> fs in
  Ok (mkSegment (path seg) (segment_id seg) (size seg + len record), fs', offset).

(** [f.seek(offset)] on a file opened with ['rb']. An offset that does not
    fit the 64 bits of the C type [off_t] is answered by [ValueError]; the
    others are passed to the file system, which answers a negative offset
    and an offset above [max_offset], the greatest offset it lets a file be
    positioned at, by [OSError]. [max_offset] depends on the file system of
    [data_dir] and is a parameter of every function that reads at an
    offset. *)
Definition seek (max_offset : N) (offset : Z) : result unit :=
  if (offset <? - 2 ^ 63) || (2 ^ 63 <=? offset) then Raise ValueError
  else if (offset <? 0) || (Z.of_N max_offset <? offset) then Raise OSError
  else Ok tt.

Definition read_at (max_offset : N) (offset : Z) (seg : LogSegment) (fs : Files)
  : result (option string * option string * bool) :=
  match fs !! path seg with
  | None => Raise FileNotFoundError
  | Some data =>
      _ ← seek max_offset offset;
      let header := read_bytes data offset 9 in
      if len header <? 9 then Ok (None, None, false)
      else
        fields ← struct_unpack [4; 4; 1]%nat header;
        match fields with
        | [key_len; value_len; deleted] =>
            let key_bytes := read_bytes data (offset + 9) key_len in
            let key := decode key_bytes in
            if negb (deleted =? 0) then Ok (Some key, None, true)
            else
              let value_bytes :=
                read_bytes data (offset + 9 + len key_bytes) value_len in
              Ok (Some key, Some (decode value_bytes), false)
        | _ => Raise ValueError
        end
  end.

(** One item of [iterate]: [(offset, key, value, deleted)]. *)
Definition Item : Type := (Z * string * option string * bool)%type.

(** The [while True] loop of [iterate] at position [pos]; every turn that
    stays in the loop has read a header of 9 bytes, so [S (length data)]
    turns of fuel are never used up. *)
Fixpoint iterate_loop (fuel : nat) (data : list byte) (pos : Z)
  : result (list Item) :=
  match fuel with
  | O => Ok []
  | S fuel' =>
      let header := read_bytes data pos 9 in
      if len header <? 9 then Ok []
      else
        fields ← struct_unpack [4; 4; 1]%nat header;
        match fields with
        | [key_len; value_len; deleted] =>
            let key_bytes := read_bytes data (pos + 9) key_len in
            let key := decode key_bytes in
            if negb (deleted =? 0) then
              rest ← iterate_loop fuel' data (pos + 9 + len key_bytes);
              Ok ((pos, key, None, true) :: rest)
            else
              let value_bytes :=
                read_bytes data (pos + 9 + len key_bytes) value_len in
              rest ← iterate_loop fuel' data
                       (pos + 9 + len key_bytes + len value_bytes);
              Ok ((pos, key, Some (decode value_bytes), false) :: rest)
        | _ => Raise ValueError
        end
  end.

Definition iterate (seg : LogSegment) (fs : Files) : result (list Item) :=
  match fs !! path seg with
  | None => Ok []
  | Some data => iterate_loop (S (length data)) data 0
  end.

(** The items [iterate] yields on a file that holds the records [recs],
    each with the bytes written for it, the first of them at [pos]. *)
Fixpoint items_at (pos : Z) (recs : list (string * option string * list byte))
  : list Item :=
  match recs with
  | [] => []
  | (key, value, bs) :: rest =>
      (pos, key, value, match value with Some _ => false | None => true end)
        :: items_at (pos + len bs) rest
  end.

Definition is_full (seg : LogSegment) : bool := SEGMENT_MAX_SIZE <=? size seg.

(** [f'{n:06d}'] *)
Definition decimal (n : Z) : string :=
  NilZero.string_of_uint (N.to_uint (Z.to_N n)).

Definition zfill (width : nat) (s : string) : string :=
  (string_of_list_ascii (replicate (width - String.length s) "0"%char) ++ s)%string.

Definition fmt06d (n : Z) : string :=
  if n <? 0 then ("-" ++ zfill 5 (decimal (- n)))%string
  else zfill 6 (decimal n).

(** [f'segment_{segment_id:06d}.log'] and
    [f'segment_{segment_id:06d}_compacted.log'] *)
Definition segment_path (segment_id : Z) : string :=
  ("segment_" ++ fmt06d segment_id ++ ".log")%string.

Definition compacted_path (segment_id : Z) : string :=
  ("segment_" ++ fmt06d segment_id ++ "_compacted.log")%string.

(** A [LogSegment] object is a reference into [heap], the objects in the
    order of their creation; [segments] and [active_segment] hold
    references, so an [append] through [active_segment] is seen through
    [segments], and [!=] on segments is the comparison of references. *)
Abbreviation Ref := nat.

Record LogStore : Type := mkLogStore {
  fs : Files;
  heap : list LogSegment;
  segments : list Ref;
  active_segment : option Ref
}.

Definition _create_new_segment (st : LogStore) : LogStore :=
  let segment_id := len (segments st) in
  let segment := segment_new (fs st) (segment_path segment_id) segment_id in
  let r := length (heap st) in
  mkLogStore (fs st) (heap st ++ [segment]) (segments st ++ [r]) (Some r).

Definition put (key : string) (value : option string) (st : LogStore)
  : result (LogStore * (Z * Z)) :=
  match active_segment st with
  | None => Raise AttributeError
  | Some a =>
      let st := if is_full (heap st !!! a) then _create_new_segment st else st in
      match active_segment st with
      | None => Raise AttributeError
      | Some a =>
          '(seg, fs', offset) ← segment_append key value (heap st !!! a) (fs st);
          Ok (mkLogStore fs' (<[a := seg]> (heap st)) (segments st)
                (active_segment st),
              (segment_id seg, offset))
      end
  end.

Definition delete (key : string) (st : LogStore) : result (LogStore * (Z * Z)) :=
  put key None st.

Definition get_segment (segment_id0 : Z) (st : LogStore) : option Ref :=
  head (filter (fun r => segment_id (heap st !!! r) = segment_id0) (segments st)).

(** [self.segments[:-1]] *)
Definition all_but_last {A : Type} (l : list A) : list A :=
  take (length l - 1) l.

Definition get_segments_to_compact (threshold : Z) (st : LogStore) : list Ref :=
  slice_to
    (filter (fun r => Some r ≠ active_segment st) (all_but_last (segments st)))
    threshold.

(** The loop of [replace_segments] that finds [insert_pos]. *)
Fixpoint insert_pos_loop (heap : list LogSegment) (new_id : Z) (i : nat)
  (segs : list Ref) (insert_pos : nat) : nat :=
  match segs with
  | [] => insert_pos
  | r :: rest =>
      if new_id <? segment_id (heap !!! r) then i
      else insert_pos_loop heap new_id (S i) rest (S i)
  end.

(** [list.insert(i, x)] for [0 <= i]. *)
Definition list_insert_at {A : Type} (i : nat) (x : A) (l : list A) : list A :=
  take i l ++ x :: drop i l.

Fixpoint unlink_all (heap : list LogSegment) (olds : list Ref) (fs : Files)
  : Files :=
  match olds with
  | [] => fs
  | r :: rest =>
      let p := path (heap !!! r) in
      unlink_all heap rest (match fs !! p with
                            | Some _ => base.delete p fs
                            | None => fs
                            end)
  end.

Definition replace_segments (old_segments : list Ref) (new_segment : Ref)
  (st : LogStore) : LogStore :=
  let old_ids := (fun r => segment_id (heap st !!! r)) <$> old_segments in
  let segs := filter (fun r => segment_id (heap st !!! r) ∉ old_ids) (segments st) in
  let new_id := segment_id (heap st !!! new_segment) in
  let insert_pos := insert_pos_loop (heap st) new_id 0 segs 0 in
  let segs := list_insert_at insert_pos new_segment segs in
  mkLogStore (unlink_all (heap st) old_segments (fs st)) (heap st) segs
    (active_segment st).

(** [LogStore.get_all_records], [HashIndex.rebuild] and [Compactor.compact]
    fold the items of the segments into a dictionary in this way. *)
Definition fold_items {V : Type} (entry : Item -> option V)
  (items : list Item) (m : gmap string V) : gmap string V :=
  foldl (fun m it =>
           match entry it with
           | Some v => <[it.1.1.2 := v]> m
           | None => base.delete it.1.1.2 m
           end) m items.

(** *** Compactor *)

Fixpoint merge_segments (st : LogStore) (segs : list Ref)
  (merged : gmap string string) : result (gmap string string) :=
  match segs with
  | [] => Ok merged
  | r :: rest =>
      items ← iterate (heap st !!! r) (fs st);
      merge_segments st rest
        (fold_items (fun it => if it.2 then None else it.1.2) items merged)
  end.

Fixpoint append_sorted (merged : gmap string string) (keys : list string)
  (seg : LogSegment) (fs : Files) : result (LogSegment * Files) :=
  match keys with
  | [] => Ok (seg, fs)
  | key :: rest =>
      match merged !! key with
      | None => Raise KeyError
      | Some v =>
          '(seg', fs', _) ← segment_append key (Some v) seg fs;
          append_sorted merged rest seg' fs'
      end
  end.

(** [min(s.segment_id for s in segments)] of a list that is not empty. *)
Definition min_id (st : LogStore) (segs : list Ref) : Z :=
  match segs with
  | [] => 0
  | r :: rest =>
      foldl (fun m r' => Z.min m (segment_id (heap st !!! r')))
        (segment_id (heap st !!! r)) rest
  end.

(** [Path.rename]: the target is replaced when it exists. *)
Definition rename (src dst : string) (fs : Files) : result Files :=
  match fs !! src with
  | None => Raise FileNotFoundError
  | Some data => Ok (<[dst := data]> (base.delete src fs))
  end.

Definition compact (st : LogStore) : result (LogStore * bool) :=
  let segs := get_segments_to_compact 2 st in
  if len segs <? 2 then Ok (st, false)
  else
    merged_records ← merge_segments st segs ∅;
    if decide (merged_records = ∅) then Ok (st, false)
    else
      let new_segment_id := min_id st segs in
      let new_path := compacted_path new_segment_id in
      let new_segment := segment_new (fs st) new_path new_segment_id in
      '(new_segment, fs1) ← append_sorted merged_records
                              (sorted (map_to_list merged_records).*1)
                              new_segment (fs st);
      let final_path := segment_path new_segment_id in
      fs2 ← rename new_path final_path fs1;
      let new_segment :=
        mkSegment final_path (segment_id new_segment) (size new_segment) in
      let r := length (heap st) in
      let st := mkLogStore fs2 (heap st ++ [new_segment]) (segments st)
                  (active_segment st) in
      Ok (replace_segments segs r st, true).


(** *** Opening a directory: [LogStore(data_dir)] *)

(** [name] matches the pattern ['segment_*.log']. *)
Definition glob_segment (name : string) : bool :=
  String.prefix "segment_" name
  && String.eqb (String.substring (String.length name - 4) 4 name) ".log"
  && Nat.leb 12 (String.length name).

(** [s.split('_')[0]] *)
Fixpoint until_underscore (s : string) : string :=
  match s with
  | EmptyString => EmptyString
  | String c rest =>
      if Ascii.eqb c "_" then EmptyString else String c (until_underscore rest)
  end.

(** [path.stem.split('_')[1]] for a name that matches ['segment_*.log']. *)
Definition id_part (name : string) : string :=
  let stem := String.substring 0 (String.length name - 4) name in
  until_underscore (String.substring 8 (String.length stem - 8) stem).

Fixpoint digits_value (s : string) (acc : Z) : result Z :=
  match s with
  | EmptyString => Ok acc
  | String c rest =>
      let d := Z.of_N (N_of_ascii c) - 48 in
      if (0 <=? d) && (d <=? 9) then digits_value rest (acc * 10 + d)
      else Raise ValueError
  end.

(** [int(s)] for [s] made of an optional sign and decimal digits; any other
    string is answered by [ValueError] (Python accepts more: blanks around
    the number and digits outside ASCII). *)
Definition py_int (s : string) : result Z :=
  match s with
  | EmptyString => Raise ValueError
  | String "-" EmptyString | String "+" EmptyString => Raise ValueError
  | String "-" rest => v ← digits_value rest 0; Ok (- v)
  | String "+" rest => digits_value rest 0
  | _ => digits_value s 0
  end.

Fixpoint load_each (fs : Files) (names : list string) : result (list LogSegment) :=
  match names with
  | [] => Ok []
  | name :: rest =>
      segment_id ← py_int (id_part name);
      segs ← load_each fs rest;
      Ok (segment_new fs name segment_id :: segs)
  end.

Definition _load_segments (fs : Files) : result LogStore :=
  let segment_files := sorted (filter (fun n => glob_segment n = true)
                                 (map_to_list fs).*1) in
  segs ← load_each fs segment_files;
  match segs with
  | [] => Ok (_create_new_segment (mkLogStore fs [] [] None))
  | _ => Ok (mkLogStore fs segs (seq 0 (length segs)) (Some (length segs - 1)%nat))
  end.

Definition LogStore_init (fs : Files) : result LogStore := _load_segments fs.

(** *** StorageEngine *)

(** The engine without its Bloom filter: the log store, which the
    compactor shares, and the hash index. *)
Fixpoint rebuild_loop (st : LogStore) (segs : list Ref)
  (idx : gmap string (Z * Z)) : result (gmap string (Z * Z)) :=
  match segs with
  | [] => Ok idx
  | r :: rest =>
      items ← iterate (heap st !!! r) (fs st);
      rebuild_loop st rest
        (fold_items
           (fun it => if it.2 then None
                      else Some (segment_id (heap st !!! r), it.1.1.1))
           items idx)
  end.

(** [HashIndex.rebuild(log_store)] *)
Definition hash_rebuild (st : LogStore) : result HashIndex :=
  idx ← rebuild_loop st (segments st) ∅; Ok (mkHashIndex idx).

(** The part of [StorageEngine.get] after the Bloom filter has let the key
    pass. *)
Definition get_located (max_offset : N) (key : string) (st : LogStore)
  (idx : HashIndex) : result (option string) :=
  match hash_get key idx with
  | None => Ok None
  | Some (segment_id, offset) =>
      match get_segment segment_id st with
      | None => Ok None
      | Some r =>
          '(key_read, value, deleted) ← read_at max_offset offset (heap st !!! r)
                                          (fs st);
          if (deleted : bool) || negb (bool_decide (key_read = Some key))
          then Ok None
          else Ok value
      end
  end.

(** The engine without its Bloom filter, which only ever lets [get] answer
    [None] early: the log store, which the compactor shares, and the hash
    index. *)
Definition Core : Type := (LogStore * HashIndex)%type.

Definition core_put (key : string) (value : option string) (c : Core)
  : result Core :=
  '(st, (segment_id, offset)) ← put key value c.1;
  Ok (st, hash_put key segment_id offset c.2).

Definition core_delete (key : string) (c : Core) : result Core :=
  '(st, _) ← delete key c.1; Ok (st, hash_delete key c.2).

Definition core_compact (c : Core) : result (Core * bool) :=
  '(st, done) ← compact c.1; Ok ((st, c.2), done).

Definition core_init (fs : Files) : result Core :=
  st ← LogStore_init fs; idx ← hash_rebuild st; Ok (st, idx).

(** The calls a client makes on an engine; [Restart] closes the engine and
    opens a new one on the same directory. *)
Inductive engine_op : Type :=
| Put (key value : string)
| Delete (key : string)
| Compact
| Restart.

(** The keys that a call puts into the engine, and the calls that restart
    it. *)
Definition puts_key (k : string) (o : engine_op) : Prop :=
  match o with
  | Put key _ => key = k
  | _ => False
  end.

Definition is_restart (o : engine_op) : Prop :=
  match o with
  | Restart => True
  | _ => False
  end.

Definition core_step (o : engine_op) (c : Core) : result Core :=
  match o with
  | Put key value => core_put key (Some value) c
  | Delete key => core_delete key c
  | Compact => '(c', _) ← core_compact c; Ok c'
  | Restart => core_init (fs c.1)
  end.

Fixpoint core_run (ops : list engine_op) (c : Core) : result Core :=
  match ops with
  | [] => Ok c
  | o :: rest => c' ← core_step o c; core_run rest c'
  end.

(** The calls as far as they concern the log store. *)
Definition store_step (o : engine_op) (st : LogStore) : result LogStore :=
  match o with
  | Put key value => '(st', _) ← put key (Some value) st; Ok st'
  | Delete key => '(st', _) ← delete key st; Ok st'
  | Compact => '(st', _) ← compact st; Ok st'
  | Restart => LogStore_init (fs st)
  end.

Fixpoint store_run (ops : list engine_op) (st : LogStore) : result LogStore :=
  match ops with
  | [] => Ok st
  | o :: rest => st' ← store_step o st; store_run rest st'
  end.

(** The ids of the segments of the store, in the order of its list. *)
Definition segment_ids (st : LogStore) : list Z :=
  (fun r => segment_id (heap st !!! r)) <$> segments st.

Definition segment_paths (st : LogStore) : list string :=
  (fun r => path (heap st !!! r)) <$> segments st.

Section WithHash.

Variable hash : string -> Z.

Record StorageEngine : Type := mkEngine {
  log_store : LogStore;
  index : HashIndex;
  bloom : BloomFilter
}.

(** [StorageEngine(data_dir)] on the directory [fs]. *)
Definition engine_init (fs : Files) : result StorageEngine :=
  st ← LogStore_init fs;
  idx ← hash_rebuild st;
  b ← Index.rebuild hash (hash_keys idx) (bloom_init 100000 4);
  Ok (mkEngine st idx b).

Definition engine_put (key : string) (value : option string) (e : StorageEngine)
  : result StorageEngine :=
  '(st, (segment_id, offset)) ← put key value (log_store e);
  let idx := hash_put key segment_id offset (index e) in
  b ← Index.add hash key (bloom e);
  Ok (mkEngine st idx b).

Definition engine_get (max_offset : N) (key : string) (e : StorageEngine)
  : result (option string) :=
  mc ← Index.might_contain hash key (bloom e);
  if negb mc then Ok None
  else get_located max_offset key (log_store e) (index e).

Definition engine_delete (key : string) (e : StorageEngine) : result StorageEngine :=
  '(st, _) ← delete key (log_store e);
  Ok (mkEngine st (hash_delete key (index e)) (bloom e)).

Definition force_compaction (e : StorageEngine) : result (StorageEngine * bool) :=
  '(st, done) ← compact (log_store e);
  Ok (mkEngine st (index e) (bloom e), done).

Definition engine_step (o : engine_op) (e : StorageEngine) : result StorageEngine :=
  match o with
  | Put key value => engine_put key (Some value) e
  | Delete key => engine_delete key e
  | Compact => '(e', _) ← force_compaction e; Ok e'
  | Restart => engine_init (fs (log_store e))
  end.

Fixpoint engine_run (ops : list engine_op) (e : StorageEngine)
  : result StorageEngine :=
  match ops with
  | [] => Ok e
  | o :: rest => e' ← engine_step o e; engine_run rest e'
  end.

(** [StorageEngine.exists] *)
Definition engine_exists (key : string) (e : StorageEngine) : result bool :=
  mc ← Index.might_contain hash key (bloom e);
  if mc : bool then Ok (bool_decide (is_Some (hash_get key (index e))))
  else Ok false.

(** [StorageEngine.keys] *)
Definition engine_keys (e : StorageEngine) : list string :=
  hash_keys (index e).

End WithHash.

End Storage.

(** ** MVCC store ([07_transaction_system/store.py]) *)

Module MVCC.

Record Version : Type := mkVersion {
  value : Py.value;
  txn_id : Z;
  timestamp : Z;
  deleted : bool
}.

Record MVCCRecord : Type := mkRecord {
  versions : list Version;
  lock_holder : option Z;
  lock_mode : option string
}.

(** An entry of a [write_set]: [{'value': ..., 'deleted': ...}]. *)
Record Pending : Type := mkPending {
  p_value : Py.value;
  p_deleted : bool
}.

(** An entry of [active_txns]. *)
Record TxnInfo : Type := mkTxnInfo {
  start_ts : Z;
  read_set : gset string;
  write_set : gmap string Pending;
  status : string
}.

(** Timestamps are the readings of [time.time()]; the store only compares
    them. [data] is a [defaultdict(MVCCRecord)]. *)
Record MVCCStore : Type := mkStore {
  data : gmap string MVCCRecord;
  next_txn_id : Z;
  active_txns : gmap Z TxnInfo;
  committed_txns : gmap Z Z
}.

Definition empty_record : MVCCRecord := mkRecord [] None None.

(** [MVCCStore()] *)
Definition init : MVCCStore := mkStore ∅ 1 ∅ ∅.

(** [self.data[key]]: a missing key is entered with an empty record. *)
Definition touch (key : string) (d : gmap string MVCCRecord)
  : gmap string MVCCRecord * MVCCRecord :=
  match d !! key with
  | Some r => (d, r)
  | None => (<[key := empty_record]> d, empty_record)
  end.

Definition begin_transaction (now : Z) (st : MVCCStore) : MVCCStore * Z :=
  let txn_id := next_txn_id st in
  (mkStore (data st) (next_txn_id st + 1)
     (<[txn_id := mkTxnInfo now ∅ ∅ "active"]> (active_txns st))
     (committed_txns st),
   txn_id).

Definition version_value (v : Version) : Py.value :=
  if deleted v then VNone else value v.

(** The loop of [_get_visible_version] over [reversed(record.versions)]. *)
Fixpoint visible_loop (committed : gmap Z Z) (txn_id0 snapshot_ts : Z)
  (vs : list Version) : Py.value :=
  match vs with
  | [] => VNone
  | version :: rest =>
      if txn_id version =? txn_id0 then version_value version
      else
        match committed !! txn_id version with
        | Some commit_ts =>
            if commit_ts <=? snapshot_ts then version_value version
            else visible_loop committed txn_id0 snapshot_ts rest
        | None => visible_loop committed txn_id0 snapshot_ts rest
        end
  end.

(** [now] is the reading of the clock, which is taken only when [txn_id0]
    is not an active transaction. *)
Definition _get_visible_version (now : Z) (key : string) (txn_id0 : Z)
  (st : MVCCStore) : Py.value :=
  match data st !! key with
  | None => VNone
  | Some record =>
      match versions record with
      | [] => VNone
      | _ =>
          let snapshot_ts :=
            match active_txns st !! txn_id0 with
            | Some txn_info => start_ts txn_info
            | None => now
            end in
          visible_loop (committed_txns st) txn_id0 snapshot_ts
            (reverse (versions record))
      end
  end.

Definition pending_value (p : Pending) : Py.value :=
  if p_deleted p then VNone else p_value p.

(** [read] finds the transaction active, so [_get_visible_version] does not
    read the clock; its [now] is never used. *)
Definition read (txn_id0 : Z) (key : string) (st : MVCCStore)
  : MVCCStore * (Py.value * option string) :=
  match active_txns st !! txn_id0 with
  | None => (st, (VNone, Some "transaction not active"))
  | Some txn_info =>
      match write_set txn_info !! key with
      | Some pending => (st, (pending_value pending, None))
      | None =>
          let txn_info' :=
            mkTxnInfo (start_ts txn_info) ({[key]} ∪ read_set txn_info)
              (write_set txn_info) (status txn_info) in
          let st' := mkStore (data st) (next_txn_id st)
                       (<[txn_id0 := txn_info']> (active_txns st))
                       (committed_txns st) in
          (st', (_get_visible_version (start_ts txn_info) key txn_id0 st', None))
      end
  end.

(** [write] and [delete] differ in the pending entry only. *)
Definition write_pending (txn_id0 : Z) (key : string) (p : Pending)
  (st : MVCCStore) : MVCCStore * (bool * option string) :=
  match active_txns st !! txn_id0 with
  | None => (st, (false, Some "transaction not active"))
  | Some txn_info =>
      let '(d, record) := touch key (data st) in
      let held_by_other :=
        match lock_holder record with
        | Some h => negb (h =? txn_id0)
        | None => false
        end in
      if held_by_other then
        (mkStore d (next_txn_id st) (active_txns st) (committed_txns st),
         (false, Some "write conflict"))
      else
        let record' := mkRecord (versions record) (Some txn_id0) (Some "write") in
        let txn_info' :=
          mkTxnInfo (start_ts txn_info) (read_set txn_info)
            (<[key := p]> (write_set txn_info)) (status txn_info) in
        (mkStore (<[key := record']> d) (next_txn_id st)
           (<[txn_id0 := txn_info']> (active_txns st)) (committed_txns st),
         (true, None))
  end.

Definition write (txn_id0 : Z) (key : string) (v : Py.value) (st : MVCCStore)
  : MVCCStore * (bool * option string) :=
  write_pending txn_id0 key (mkPending v false) st.

Definition delete (txn_id0 : Z) (key : string) (st : MVCCStore)
  : MVCCStore * (bool * option string) :=
  write_pending txn_id0 key (mkPending VNone true) st.

(** One turn of the loop of [commit] over [write_set.items()]. *)
Definition commit_key (txn_id0 commit_ts : Z) (key : string) (pending : Pending)
  (d : gmap string MVCCRecord) : gmap string MVCCRecord :=
  let '(d, record) := touch key d in
  let version := mkVersion (p_value pending) txn_id0 commit_ts (p_deleted pending) in
  <[key := mkRecord (versions record ++ [version]) None None]> d.

Definition commit (now : Z) (txn_id0 : Z) (st : MVCCStore)
  : MVCCStore * (bool * option string) :=
  match active_txns st !! txn_id0 with
  | None => (st, (false, Some "transaction not active"))
  | Some txn_info =>
      let commit_ts := now in
      let d := map_fold (commit_key txn_id0 commit_ts) (data st) (write_set txn_info) in
      (mkStore d (next_txn_id st) (base.delete txn_id0 (active_txns st))
         (<[txn_id0 := commit_ts]> (committed_txns st)),
       (true, None))
  end.

(** One turn of the loop of [abort] over the keys of [write_set]. *)
Definition abort_key (txn_id0 : Z) (key : string) (pending : Pending)
  (d : gmap string MVCCRecord) : gmap string MVCCRecord :=
  let '(d, record) := touch key d in
  if bool_decide (lock_holder record = Some txn_id0) then
    <[key := mkRecord (versions record) None None]> d
  else d.

Definition abort (txn_id0 : Z) (st : MVCCStore)
  : MVCCStore * (bool * option string) :=
  match active_txns st !! txn_id0 with
  | None => (st, (false, Some "transaction not active"))
  | Some txn_info =>
      let d := map_fold (abort_key txn_id0) (data st) (write_set txn_info) in
      (mkStore d (next_txn_id st) (base.delete txn_id0 (active_txns st))
         (committed_txns st),
       (true, None))
  end.

Definition gc_record (committed : gmap Z Z) (before_ts : Z) (record : MVCCRecord)
  : MVCCRecord :=
  let visible :=
    List.filter (fun version =>
                   match committed !! txn_id version with
                   | Some ts => before_ts <=? ts
                   | None => true
                   end) (versions record) in
  if (length visible <? length (versions record))%nat then
    match visible with
    | [] => mkRecord (drop (length (versions record) - 1) (versions record))
              (lock_holder record) (lock_mode record)
    | _ => mkRecord visible (lock_holder record) (lock_mode record)
    end
  else record.

Definition gc_old_versions (before_ts : Z) (st : MVCCStore) : MVCCStore :=
  mkStore (gc_record (committed_txns st) before_ts <$> data st)
    (next_txn_id st) (active_txns st) (committed_txns st).

(** The calls a client makes on a store; [Begin] and [Commit] carry the
    reading of the clock they take. *)
Inductive op : Type :=
| Begin (now : Z)
| Read (txn_id0 : Z) (key : string)
| Write (txn_id0 : Z) (key : string) (v : Py.value)
| Delete (txn_id0 : Z) (key : string)
| Commit (now : Z) (txn_id0 : Z)
| Abort (txn_id0 : Z)
| GC (before_ts : Z).

Definition step (o : op) (st : MVCCStore) : MVCCStore :=
  match o with
  | Begin now => (begin_transaction now st).1
  | Read t key => (read t key st).1
  | Write t key v => (write t key v st).1
  | Delete t key => (delete t key st).1
  | Commit now t => (commit now t st).1
  | Abort t => (abort t st).1
  | GC before_ts => gc_old_versions before_ts st
  end.

Definition run (ops : list op) (st : MVCCStore) : MVCCStore :=
  foldl (fun st o => step o st) st ops.

(** The readings of the clock in a sequence of calls, in order. *)
Definition clock_of (o : op) : option Z :=
  match o with
  | Begin now | Commit now _ => Some now
  | _ => None
  end.

Definition readings (ops : list op) : list Z := omap clock_of ops.

(** The clock does not run backwards. *)
Definition clock_monotone (ops : list op) : Prop := Sorted Z.le (readings ops).

(** [v] is a version of [key] whose transaction has committed at [c]. *)
Definition committed_version (st : MVCCStore) (key : string) (v : Version)
  (c : Z) : Prop :=
  (∃ record, data st !! key = Some record ∧ v ∈ versions record)
  ∧ committed_txns st !! txn_id v = Some c.

(** [r] is what a snapshot taken at [s] shows for [key]: the value of a
    committed version with the largest commit timestamp not above [s],
    [None] when that version is a deletion marker or there is none. *)
Definition snapshot_shows (st : MVCCStore) (key : string) (s : Z) (r : Py.value)
  : Prop :=
  (∃ v c, committed_version st key v c ∧ c ≤ s
          ∧ (∀ v' c', committed_version st key v' c' → c' ≤ s → c' ≤ c)
          ∧ r = version_value v)
  ∨ ((∀ v c, committed_version st key v c → ¬ c ≤ s) ∧ r = VNone).

(** The versions of [key], none when the key has no record. *)
Definition versions_of (d : gmap string MVCCRecord) (key : string) : list Version :=
  versions (default empty_record (d !! key)).

Definition ts_le (v w : Version) : Prop := timestamp v ≤ timestamp w.

(** What holds of a store between calls, [tmax] being the last reading of
    the clock: the versions of a key are in the order of their commit
    timestamps, each one written by a committed transaction at the timestamp
    it carries; no timestamp is above [tmax]; an active transaction has not
    committed. *)
Record invariant (st : MVCCStore) (tmax : Z) : Prop := mkInvariant {
  inv_sorted : ∀ key, StronglySorted ts_le (versions_of (data st) key);
  inv_committed : ∀ key v, v ∈ versions_of (data st) key →
                    committed_txns st !! txn_id v = Some (timestamp v);
  inv_bound : ∀ t c, committed_txns st !! t = Some c →
                c ≤ tmax ∧ t < next_txn_id st;
  inv_active : ∀ t info, active_txns st !! t = Some info →
                 t < next_txn_id st ∧ committed_txns st !! t = None
}.

(** [ReadUncommittedStore.read]; it changes nothing. *)
Definition read_uncommitted (txn_id0 : Z) (key : string) (st : MVCCStore)
  : Py.value * option string :=
  match active_txns st !! txn_id0 with
  | None => (VNone, Some "transaction not active")
  | Some _ =>
      match data st !! key with
      | None => (VNone, None)
      | Some record =>
          match last (versions record) with
          | None => (VNone, None)
          | Some latest => (version_value latest, None)
          end
      end
  end.

(** The loop of [ReadCommittedStore.read] over [reversed(record.versions)]. *)
Fixpoint latest_committed (committed : gmap Z Z) (vs : list Version) : Py.value :=
  match vs with
  | [] => VNone
  | version :: rest =>
      match committed !! txn_id version with
      | Some _ => version_value version
      | None => latest_committed committed rest
      end
  end.

(** [ReadCommittedStore.read]; it changes nothing. *)
Definition read_committed (txn_id0 : Z) (key : string) (st : MVCCStore)
  : Py.value * option string :=
  match active_txns st !! txn_id0 with
  | None => (VNone, Some "transaction not active")
  | Some txn_info =>
      match write_set txn_info !! key with
      | Some pending => (pending_value pending, None)
      | None =>
          match data st !! key with
          | None => (VNone, None)
          | Some record =>
              match versions record with
              | [] => (VNone, None)
              | _ => (latest_committed (committed_txns st)
                        (reverse (versions record)), None)
              end
          end
      end
  end.

(** The three stores differ in [read] only, and the [read] of
    [ReadUncommittedStore] and [ReadCommittedStore] changes nothing. *)
Inductive level : Type := Snapshot | Committed | Uncommitted.

Definition step_at (l : level) (o : op) (st : MVCCStore) : MVCCStore :=
  match l, o with
  | (Committed | Uncommitted), Read _ _ => st
  | _, _ => step o st
  end.

Definition run_at (l : level) (ops : list op) (st : MVCCStore) : MVCCStore :=
  foldl (fun st o => step_at l o st) st ops.

End MVCC.

(** ** Serializable snapshot isolation
    ([07_transaction_system/serializable.py]) *)

Module SSI.

Record SSITransaction : Type := mkTxn {
  txn_id : Z;
  start_ts : Z;
  commit_ts : option Z;
  read_set : gset string;
  write_set : gmap string Py.value;
  in_conflict : gset Z;
  out_conflict : gset Z;
  committed : bool;
  aborted : bool
}.

(** The transaction objects live in [transactions], which never loses an
    entry; [committed_txns] maps an id to the same object as [transactions]
    does, so it is the set of the ids it holds. [siread_locks] is a
    [defaultdict(set)]. *)
Record SerializableSnapshotIsolation : Type := mkSSI {
  store : MVCC.MVCCStore;
  transactions : gmap Z SSITransaction;
  committed_txns : gset Z;
  siread_locks : gmap string (gset Z);
  write_locks : gmap string Z;
  next_txn_id : Z
}.

Definition init : SerializableSnapshotIsolation :=
  mkSSI MVCC.init ∅ ∅ ∅ ∅ 1.

Definition set_store (s : MVCC.MVCCStore) (st : SerializableSnapshotIsolation)
  : SerializableSnapshotIsolation :=
  mkSSI s (transactions st) (committed_txns st) (siread_locks st)
    (write_locks st) (next_txn_id st).

Definition set_transactions (ts : gmap Z SSITransaction)
  (st : SerializableSnapshotIsolation) : SerializableSnapshotIsolation :=
  mkSSI (store st) ts (committed_txns st) (siread_locks st) (write_locks st)
    (next_txn_id st).

Definition set_locks (sl : gmap string (gset Z)) (wl : gmap string Z)
  (st : SerializableSnapshotIsolation) : SerializableSnapshotIsolation :=
  mkSSI (store st) (transactions st) (committed_txns st) sl wl (next_txn_id st).

Definition add_in (i : Z) (t : SSITransaction) : SSITransaction :=
  mkTxn (txn_id t) (start_ts t) (commit_ts t) (read_set t) (write_set t)
    ({[i]} ∪ in_conflict t) (out_conflict t) (committed t) (aborted t).

Definition add_out (o : Z) (t : SSITransaction) : SSITransaction :=
  mkTxn (txn_id t) (start_ts t) (commit_ts t) (read_set t) (write_set t)
    (in_conflict t) ({[o]} ∪ out_conflict t) (committed t) (aborted t).

Definition add_read (key : string) (t : SSITransaction) : SSITransaction :=
  mkTxn (txn_id t) (start_ts t) (commit_ts t) ({[key]} ∪ read_set t)
    (write_set t) (in_conflict t) (out_conflict t) (committed t) (aborted t).

Definition add_write (key : string) (v : Py.value) (t : SSITransaction)
  : SSITransaction :=
  mkTxn (txn_id t) (start_ts t) (commit_ts t) (read_set t)
    (<[key := v]> (write_set t)) (in_conflict t) (out_conflict t)
    (committed t) (aborted t).

Definition set_aborted (t : SSITransaction) : SSITransaction :=
  mkTxn (txn_id t) (start_ts t) (commit_ts t) (read_set t) (write_set t)
    (in_conflict t) (out_conflict t) (committed t) true.

Definition set_commit_ts (c : Z) (t : SSITransaction) : SSITransaction :=
  mkTxn (txn_id t) (start_ts t) (Some c) (read_set t) (write_set t)
    (in_conflict t) (out_conflict t) (committed t) (aborted t).

Definition set_committed (t : SSITransaction) : SSITransaction :=
  mkTxn (txn_id t) (start_ts t) (commit_ts t) (read_set t) (write_set t)
    (in_conflict t) (out_conflict t) true (aborted t).

Definition begin (now : Z) (st : SerializableSnapshotIsolation)
  : SerializableSnapshotIsolation * Z :=
  let txn_id := next_txn_id st in
  let txn := mkTxn txn_id now None ∅ ∅ ∅ ∅ false false in
  let s := store st in
  let s' := MVCC.mkStore (MVCC.data s) (MVCC.next_txn_id s)
              (<[txn_id := MVCC.mkTxnInfo now ∅ ∅ "active"]> (MVCC.active_txns s))
              (MVCC.committed_txns s) in
  (mkSSI s' (<[txn_id := txn]> (transactions st)) (committed_txns st)
     (siread_locks st) (write_locks st) (next_txn_id st + 1),
   txn_id).

(** A transaction that can still be used: it is known and has neither
    committed nor aborted. *)
Definition usable (st : SerializableSnapshotIsolation) (txn_id0 : Z)
  : option SSITransaction :=
  match transactions st !! txn_id0 with
  | Some txn => if aborted txn || committed txn then None else Some txn
  | None => None
  end.

Definition read (txn_id0 : Z) (key : string) (st : SerializableSnapshotIsolation)
  : SerializableSnapshotIsolation * (Py.value * option string) :=
  match usable st txn_id0 with
  | None => (st, (VNone, Some "invalid transaction"))
  | Some txn =>
      match write_set txn !! key with
      | Some v => (st, (v, None))
      | None =>
          let ts := <[txn_id0 := add_read key txn]> (transactions st) in
          let sl := <[key := {[txn_id0]} ∪ default ∅ (siread_locks st !! key)]>
                      (siread_locks st) in
          let ts :=
            match write_locks st !! key with
            | Some writer_id =>
                match ts !! writer_id with
                | Some writer_txn =>
                    if negb (writer_id =? txn_id0) && negb (committed writer_txn)
                    then
                      let ts := alter (add_in writer_id) txn_id0 ts in
                      alter (add_out txn_id0) writer_id ts
                    else ts
                | None => ts
                end
            | None => ts
            end in
          let '(s', r) := MVCC.read txn_id0 key (store st) in
          (mkSSI s' ts (committed_txns st) sl (write_locks st) (next_txn_id st), r)
      end
  end.

(** One turn of the loop of [write] over the holders of a SIREAD lock. *)
Definition note_reader (txn_id0 : Z) (reader_id : Z) (ts : gmap Z SSITransaction)
  : gmap Z SSITransaction :=
  match ts !! reader_id with
  | Some reader_txn =>
      if negb (reader_id =? txn_id0) && negb (aborted reader_txn) then
        alter (add_out txn_id0) reader_id (alter (add_in reader_id) txn_id0 ts)
      else ts
  | None => ts
  end.

Definition write (txn_id0 : Z) (key : string) (v : Py.value)
  (st : SerializableSnapshotIsolation)
  : SerializableSnapshotIsolation * (bool * option string) :=
  match usable st txn_id0 with
  | None => (st, (false, Some "invalid transaction"))
  | Some txn =>
      let held_by_other :=
        match write_locks st !! key with
        | Some holder => negb (holder =? txn_id0)
        | None => false
        end in
      if held_by_other then (st, (false, Some "write conflict"))
      else
        let ts := set_fold (note_reader txn_id0) (transactions st)
                    (default ∅ (siread_locks st !! key)) in
        let ts := alter (add_write key v) txn_id0 ts in
        let '(s', r) := MVCC.write txn_id0 key v (store st) in
        (mkSSI s' ts (committed_txns st) (siread_locks st)
           (<[key := txn_id0]> (write_locks st)) (next_txn_id st), r)
  end.

(** [_cleanup_locks] *)
Definition release_siread (txn_id0 : Z) (key : string)
  (sl : gmap string (gset Z)) : gmap string (gset Z) :=
  <[key := default ∅ (sl !! key) ∖ {[txn_id0]}]> sl.

Definition release_write (txn_id0 : Z) (key : string) (v : Py.value)
  (wl : gmap string Z) : gmap string Z :=
  if bool_decide (wl !! key = Some txn_id0) then base.delete key wl else wl.

Definition _cleanup_locks (txn : SSITransaction)
  (st : SerializableSnapshotIsolation) : SerializableSnapshotIsolation :=
  set_locks
    (set_fold (release_siread (txn_id txn)) (siread_locks st) (read_set txn))
    (map_fold (release_write (txn_id txn)) (write_locks st) (write_set txn))
    st.

(** [_abort_internal]: the object of [txn] is the entry of [transactions]
    at its id. *)
Definition _abort_internal (txn : SSITransaction)
  (st : SerializableSnapshotIsolation) : SerializableSnapshotIsolation :=
  let st := set_transactions (alter set_aborted (txn_id txn) (transactions st)) st in
  let st := set_store (MVCC.abort (txn_id txn) (store st)).1 st in
  _cleanup_locks txn st.

(** [self.transactions.get(id) or self.committed_txns.get(id)] *)
Definition find_txn (st : SerializableSnapshotIsolation) (id : Z)
  : option SSITransaction :=
  match transactions st !! id with
  | Some t => Some t
  | None => if decide (id ∈ committed_txns st) then transactions st !! id else None
  end.

(** [t.committed and t.commit_ts < ts]; comparing [None] with a number
    raises [TypeError]. *)
Definition committed_before (t : SSITransaction) (ts : Z) : result bool :=
  if committed t then
    match commit_ts t with
    | Some c => Ok (c <? ts)
    | None => Raise TypeError
    end
  else Ok false.

Fixpoint out_loop (st : SerializableSnapshotIsolation) (txn in_txn : SSITransaction)
  (outs : list Z) : result bool :=
  match outs with
  | [] => Ok false
  | out_txn_id :: rest =>
      match find_txn st out_txn_id with
      | None => out_loop st txn in_txn rest
      | Some out_txn =>
          skip ← committed_before out_txn (start_ts txn);
          if skip : bool then out_loop st txn in_txn rest
          else if negb (aborted in_txn) && negb (aborted out_txn) then Ok true
          else out_loop st txn in_txn rest
      end
  end.

Fixpoint in_loop (st : SerializableSnapshotIsolation) (txn : SSITransaction)
  (ins : list Z) : result bool :=
  match ins with
  | [] => Ok false
  | in_txn_id :: rest =>
      match find_txn st in_txn_id with
      | None => in_loop st txn rest
      | Some in_txn =>
          skip ← committed_before in_txn (start_ts txn);
          if skip : bool then in_loop st txn rest
          else
            found ← out_loop st txn in_txn (elements (out_conflict txn));
            if found : bool then Ok true else in_loop st txn rest
      end
  end.

Definition _has_dangerous_structure (txn : SSITransaction)
  (st : SerializableSnapshotIsolation) : result bool :=
  in_loop st txn (elements (in_conflict txn)).

Definition commit (now : Z) (txn_id0 : Z) (st : SerializableSnapshotIsolation)
  : result (SerializableSnapshotIsolation * (bool * option string)) :=
  match usable st txn_id0 with
  | None => Ok (st, (false, Some "invalid transaction"))
  | Some txn =>
      dangerous ← _has_dangerous_structure txn st;
      if dangerous : bool then
        Ok (_abort_internal txn st, (false, Some "serialization failure"))
      else
        let st := set_transactions
                    (alter (set_commit_ts now) txn_id0 (transactions st)) st in
        let '(s', (success, error)) := MVCC.commit now txn_id0 (store st) in
        let st := set_store s' st in
        if success : bool then
          let st := set_transactions
                      (alter set_committed txn_id0 (transactions st)) st in
          let st := mkSSI (store st) (transactions st)
                      ({[txn_id0]} ∪ committed_txns st) (siread_locks st)
                      (write_locks st) (next_txn_id st) in
          Ok (_cleanup_locks txn st, (success, error))
        else Ok (st, (success, error))
  end.

Definition abort (txn_id0 : Z) (st : SerializableSnapshotIsolation)
  : SerializableSnapshotIsolation * (bool * option string) :=
  match transactions st !! txn_id0 with
  | None => (st, (false, Some "invalid transaction"))
  | Some txn => (_abort_internal txn st, (true, None))
  end.

(** [t] is live: it has neither committed nor aborted. *)
Definition live (t : SSITransaction) : Prop :=
  committed t = false ∧ aborted t = false.

(** [t] has committed, with a commit timestamp for which [P] holds. *)
Definition committed_when (P : Z -> Prop) (t : SSITransaction) : Prop :=
  committed t = true ∧ aborted t = false ∧ ∃ c, commit_ts t = Some c ∧ P c.

(** [txn] is the pivot of a dangerous structure: it has an incoming edge
    from [i] and an outgoing edge to [o] whose endpoints are each live or
    committed at a timestamp that [P] accepts. *)
Definition pivot (P : Z -> Prop) (st : SerializableSnapshotIsolation)
  (txn : SSITransaction) : Prop :=
  ∃ i o ti to,
    i ∈ in_conflict txn ∧ o ∈ out_conflict txn
    ∧ transactions st !! i = Some ti ∧ transactions st !! o = Some to
    ∧ (live ti ∨ committed_when P ti) ∧ (live to ∨ committed_when P to).

(** An endpoint that the code counts for a transaction begun at [s], and a
    list of ids that holds one. *)
Definition counted (s : Z) (t : SSITransaction) : Prop :=
  live t ∨ committed_when (fun c => s ≤ c) t.

Definition some_counted (st : SerializableSnapshotIsolation) (s : Z)
  (ids : list Z) : Prop :=
  ∃ o to, o ∈ ids ∧ transactions st !! o = Some to ∧ counted s to.


(** The dangerous structure the code looks for: the endpoints are live or
    committed at or after the start of [txn]. *)
Definition dangerous_from (st : SerializableSnapshotIsolation)
  (txn : SSITransaction) : Prop :=
  pivot (fun c => start_ts txn ≤ c) st txn.

(** What the layer relies on between calls: an entry of [transactions] is
    filed under its own id, below [next_txn_id]; a transaction that can still
    be used is active in the store; a committed transaction carries its
    commit timestamp; SIREAD locks are held on keys of the read set and
    write locks on keys of the write set of their holder. *)
Record consistent (st : SerializableSnapshotIsolation) : Prop := mkConsistent {
  own_id : ∀ i t, transactions st !! i = Some t → txn_id t = i;
  known_below : ∀ i t, transactions st !! i = Some t → i < next_txn_id st;
  usable_active : ∀ i t, usable st i = Some t →
                         is_Some (MVCC.active_txns (store st) !! i);
  committed_ts : ∀ i t, transactions st !! i = Some t → committed t = true →
                        is_Some (commit_ts t);
  siread_held : ∀ key holders i, siread_locks st !! key = Some holders →
                  i ∈ holders →
                  ∃ t, transactions st !! i = Some t ∧ key ∈ read_set t;
  write_held : ∀ key i, write_locks st !! key = Some i →
                  ∃ t, transactions st !! i = Some t ∧ is_Some (write_set t !! key)
}.

(** [t'] is [t] with more keys read, more keys written or more edges. *)
Definition grown (t t' : SSITransaction) : Prop :=
  txn_id t' = txn_id t ∧ commit_ts t' = commit_ts t
  ∧ committed t' = committed t ∧ aborted t' = aborted t
  ∧ read_set t ⊆ read_set t'
  ∧ (∀ key, is_Some (write_set t !! key) → is_Some (write_set t' !! key)).

Definition all_grown (ts ts' : gmap Z SSITransaction) : Prop :=
  ∀ i, match ts !! i with
       | Some t => ∃ t', ts' !! i = Some t' ∧ grown t t'
       | None => ts' !! i = None
       end.

(** [txn_id0] holds no lock. *)
Definition holds_no_lock (st : SerializableSnapshotIsolation) (txn_id0 : Z) : Prop :=
  (∀ key holders, siread_locks st !! key = Some holders → txn_id0 ∉ holders)
  ∧ (∀ key, write_locks st !! key ≠ Some txn_id0).

(** [st'] is [st] after the abort of [txn]: the transaction is marked as
    aborted, the store has dropped it with its pending writes, and it holds
    no lock. *)
Definition aborted_in (st st' : SerializableSnapshotIsolation)
  (txn : SSITransaction) : Prop :=
  transactions st' !! txn_id txn = Some (set_aborted txn)
  ∧ store st' = (MVCC.abort (txn_id txn) (store st)).1
  ∧ MVCC.active_txns (store st') !! txn_id txn = None
  ∧ holds_no_lock st' (txn_id txn).

(** [st'] is [st] after the commit of [txn] at [now]: the store has
    committed it, the transaction is marked as committed at [now], and it
    holds no lock. *)
Definition committed_in (now : Z) (st st' : SerializableSnapshotIsolation)
  (txn : SSITransaction) : Prop :=
  store st' = (MVCC.commit now (txn_id txn) (store st)).1
  ∧ MVCC.committed_txns (store st') !! txn_id txn = Some now
  ∧ transactions st' !! txn_id txn = Some (set_committed (set_commit_ts now txn))
  ∧ txn_id txn ∈ committed_txns st'
  ∧ holds_no_lock st' (txn_id txn).

(** The calls a client makes on the layer. *)
Inductive op : Type :=
| Begin (now : Z)
| Read (txn_id0 : Z) (key : string)
| Write (txn_id0 : Z) (key : string) (v : Py.value)
| Commit (now : Z) (txn_id0 : Z)
| Abort (txn_id0 : Z).

Definition step (o : op) (st : SerializableSnapshotIsolation)
  : result SerializableSnapshotIsolation :=
  match o with
  | Begin now => Ok (begin now st).1
  | Read t key => Ok (read t key st).1
  | Write t key v => Ok (write t key v st).1
  | Commit now t => r ← commit now t st; Ok r.1
  | Abort t => Ok (abort t st).1
  end.

Fixpoint run (ops : list op) (st : SerializableSnapshotIsolation)
  : result SerializableSnapshotIsolation :=
  match ops with
  | [] => Ok st
  | o :: rest => st' ← step o st; run rest st'
  end.

End SSI.

(** ** The properties of the specification, in the words of the
    specification, and the inputs they are tried on *)

Module Claims.

Import Raft.

(** [votes] is a strict majority of a cluster of [size] nodes. *)
Definition strict_majority (votes size : Z) : Prop := size < 2 * votes.

(** A candidate of a cluster of two nodes whose peer does not answer. *)
Definition lonely_candidate : RaftNode :=
  mkRaftNode 0 [(1, ("localhost"%string, 16001))] FOLLOWER
    (mkRaftState 0 None [] 0 0) ∅ ∅ None 2 0 [].

Definition no_answer : Address -> RequestVote -> option VoteReply :=
  fun _ _ => None.

(** The index of the last entry an AppendEntries request carries. *)
Definition last_new_index (req : AppendEntries) : Z :=
  ae_prev_log_index req + len (ae_entries req).

(** The request passes the term check and the check of the previous entry. *)
Definition term_ok (n : RaftNode) (req : AppendEntries) : Prop :=
  current_term (raft_state n) ≤ ae_term req.

Definition prev_ok (n : RaftNode) (req : AppendEntries) : Prop :=
  ae_prev_log_index req ≤ 0
  ∨ (ae_prev_log_index req ≤ len (log (raft_state n))
     ∧ ∃ e, log (raft_state n) !! Z.to_nat (ae_prev_log_index req - 1) = Some e
            ∧ term e = ae_prev_log_term req).

(** The log Raft asks for on accept: where the sent entries are already
    there nothing changes, and otherwise the suffix from the first sent
    index on is replaced by the sent entries. *)
Definition overwritten_log (old : list LogEntry) (req : AppendEntries)
  : list LogEntry :=
  let prev := Z.to_nat (ae_prev_log_index req) in
  if bool_decide (take (length (ae_entries req)) (drop prev old) = ae_entries req)
  then old
  else take prev old ++ ae_entries req.

(** The sentence of the specification on an accepted request. *)
Definition accept_as_specified (n : RaftNode) (req : AppendEntries)
  (n' : RaftNode) : Prop :=
  log (raft_state n') = overwritten_log (log (raft_state n)) req
  ∧ (commit_index (raft_state n) < ae_leader_commit req →
     commit_index (raft_state n') =
       Z.min (ae_leader_commit req) (last_new_index req)).

(** The entries are numbered consecutively from [first]. *)
Fixpoint consecutive (first : Z) (entries : list LogEntry) : Prop :=
  match entries with
  | [] => True
  | e :: rest => index e = first ∧ consecutive (first + 1) rest
  end.

(** A follower with two entries of term 1 and a request of a leader of
    term 2 that sends one entry for index 1. *)
Definition stale_follower : RaftNode :=
  mkRaftNode 1 [(0, ("localhost"%string, 16000))] FOLLOWER
    (mkRaftState 2 None [mkLogEntry 1 1 "x"; mkLogEntry 1 2 "y"] 0 0)
    ∅ ∅ None 2 0 [].

Definition short_request : AppendEntries :=
  mkAppendEntries 2 0 0 0 [mkLogEntry 2 1 "z"] 2.

(** A table of two records. *)
Definition two_records : gmap string string :=
  {["a" := "1"; "b" := "2"]}%string.

(** A value that fills a segment at once, and the scenario tried on the
    storage engine: three such values are put under ["a"], ["b"] and ["c"],
    which makes the segments 0, 1 and 2; the first two are compacted; then
    ["d"] is put. [observe] collects what is observed on the way; where the
    value expected from a [get] is the big one, it records whether the
    [get] returned it. *)
Definition big_value : string :=
  string_of_list_ascii (replicate (Z.to_nat Storage.SEGMENT_MAX_SIZE) "x"%char).

Definition fill_ops : list Storage.engine_op :=
  [Storage.Put "a" big_value; Storage.Put "b" big_value;
   Storage.Put "c" big_value]%string.

Record Observed : Type := mkObserved {
  ids_before : list Z;
  get_a_before : bool;
  get_b_before : bool;
  compacted : bool;
  ids_after : list Z;
  paths_after : list string;
  files_after : list string;
  get_a_after : result (option string);
  get_b_after : result (option string);
  get_c_after : bool;
  put_d : Z * Z;
  ids_final : list Z;
  paths_final : list string
}.

Definition observe (max_offset : N) (c3 : Storage.Core) (c4 : Storage.Core)
  (done : bool) (c5 : Storage.Core) (loc : Z * Z) : Observed :=
  mkObserved
    (Storage.segment_ids c3.1)
    (bool_decide (Storage.get_located max_offset "a" c3.1 c3.2
                  = Ok (Some big_value)))
    (bool_decide (Storage.get_located max_offset "b" c3.1 c3.2
                  = Ok (Some big_value)))
    done
    (Storage.segment_ids c4.1)
    (Storage.segment_paths c4.1)
    (map_to_list (Storage.fs c4.1)).*1
    (Storage.get_located max_offset "a" c4.1 c4.2)
    (Storage.get_located max_offset "b" c4.1 c4.2)
    (bool_decide (Storage.get_located max_offset "c" c4.1 c4.2
                  = Ok (Some big_value)))
    loc
    (Storage.segment_ids c5.1)
    (Storage.segment_paths c5.1).

Definition observed : Observed :=
  mkObserved
    [0; 1; 2] true true
    true
    [0; 2] ["segment_000000.log"; "segment_000002.log"]%string
    ["segment_000002.log"]%string
    (Raise FileNotFoundError) (Ok None) true
    (2, 1048586)
    [0; 2; 2]
    ["segment_000000.log"; "segment_000002.log"; "segment_000002.log"]%string.

(** The stores of the scenario, with [ra], [rb], [rc] and [rd] the bytes
    written for ["a"], ["b"], ["c"] and ["d"]: the store opened on an empty
    directory, the store after the three puts, after the compaction, and
    after the put of ["d"]; and the hash index after the three puts, which
    the compaction leaves as it is. *)
Definition fresh_store : Storage.LogStore :=
  Storage.mkLogStore ∅ [Storage.mkSegment "segment_000000.log" 0 0] [0%nat]
    (Some 0%nat).

Definition first_store (ra : list byte) : Storage.LogStore :=
  Storage.mkLogStore (<["segment_000000.log"%string := ra]> ∅)
    [Storage.mkSegment "segment_000000.log" 0 (len ra)] [0%nat] (Some 0%nat).

Definition second_store (ra rb : list byte) : Storage.LogStore :=
  Storage.mkLogStore
    (<["segment_000001.log"%string := rb]>
       (<["segment_000000.log"%string := ra]> ∅))
    [Storage.mkSegment "segment_000000.log" 0 (len ra);
     Storage.mkSegment "segment_000001.log" 1 (len rb)]
    [0; 1]%nat (Some 1%nat).

Definition filled_heap (ra rb rc : list byte) : list Storage.LogSegment :=
  [Storage.mkSegment "segment_000000.log" 0 (len ra);
   Storage.mkSegment "segment_000001.log" 1 (len rb);
   Storage.mkSegment "segment_000002.log" 2 (len rc)].

Definition filled_store (ra rb rc : list byte) : Storage.LogStore :=
  Storage.mkLogStore
    (<["segment_000002.log"%string := rc]>
       (<["segment_000001.log"%string := rb]>
          (<["segment_000000.log"%string := ra]> ∅)))
    (filled_heap ra rb rc) [0; 1; 2]%nat (Some 2%nat).

Definition compacted_store (ra rb rc : list byte) : Storage.LogStore :=
  Storage.mkLogStore {["segment_000002.log"%string := rc]}
    (filled_heap ra rb rc
       ++ [Storage.mkSegment "segment_000000.log" 0 (len ra + len rb)])
    [3; 2]%nat (Some 2%nat).

Definition collided_store (ra rb rc rd : list byte) : Storage.LogStore :=
  Storage.mkLogStore {["segment_000002.log"%string := rc ++ rd]}
    (filled_heap ra rb rc
       ++ [Storage.mkSegment "segment_000000.log" 0 (len ra + len rb);
           Storage.mkSegment "segment_000002.log" 2 (len rc + len rd)])
    [3; 2; 4]%nat (Some 4%nat).

Definition filled_index : Index.HashIndex :=
  Index.hash_put "c" 2 0
    (Index.hash_put "b" 1 0 (Index.hash_put "a" 0 0 (Index.mkHashIndex ∅))).

(** A clock that steps back: transaction 1 writes [1] to ["x"] and commits
    at the reading 10, transaction 2, begun at 10, writes [2] to ["x"] and
    commits at the reading 5; transaction 3 begins at 20. *)
Definition back_ops : list MVCC.op :=
  [MVCC.Begin 1; MVCC.Write 1 "x" (VInt 1); MVCC.Commit 10 1;
   MVCC.Begin 10; MVCC.Write 2 "x" (VInt 2); MVCC.Commit 5 2;
   MVCC.Begin 20]%string.




End Claims.

(** ** What the properties of the storage engine are stated with *)

Module StoreSpec.

Import Index Storage.

(** [append] of each record in turn, with the offsets it returns. *)
Fixpoint append_each (recs : list (string * option string)) (seg : LogSegment)
  (fs : Files) : result (LogSegment * Files * list Z) :=
  match recs with
  | [] => Ok (seg, fs, [])
  | (key, value) :: rest =>
      '(seg', fs', offset) ← segment_append key value seg fs;
      '(seg'', fs'', offsets) ← append_each rest seg' fs';
      Ok (seg'', fs'', offset :: offsets)
  end.

(** The size a segment records is the length of its file. *)
Definition sized (seg : LogSegment) (fs : Files) : Prop :=
  size seg = len (default [] (fs !! path seg)).

Definition is_tombstone (value : option string) : bool :=
  match value with Some _ => false | None => true end.

(** Every segment of the list is an object of the heap whose file is named
    after its id. *)
Definition named_by_id (st : LogStore) : Prop :=
  ∀ r, r ∈ segments st →
       ∃ seg, heap st !! r = Some seg ∧ path seg = segment_path (segment_id seg).

(** What the calls leave in the engine, as a dictionary. *)
Definition apply_op (m : gmap string string) (o : engine_op)
  : gmap string string :=
  match o with
  | Put key value => <[key := value]> m
  | Delete key => base.delete key m
  | _ => m
  end.

Definition contents (ops : list engine_op) : gmap string string :=
  foldl apply_op ∅ ops.

Definition is_update (o : engine_op) : Prop :=
  match o with
  | Put _ _ | Delete _ => True
  | _ => False
  end.

(** The store as [put] and [_create_new_segment] leave it on a directory
    that no compaction has touched: the segment at position [i] of the list
    has the id [i], its file is named after it, and the size it records is
    the length of that file; the last segment is the active one. *)
Record store_inv (st : LogStore) : Prop := {
  inv_segments : segments st = seq 0 (length (heap st));
  inv_active : active_segment st = Some (length (heap st) - 1)%nat;
  inv_nonempty : heap st ≠ [];
  inv_heap : ∀ i seg, heap st !! i = Some seg →
               segment_id seg = Z.of_nat i
               ∧ path seg = segment_path (Z.of_nat i)
               ∧ sized seg (fs st)
}.

(** [loc] is the place of a record of [k] with the value [v]. *)
Definition located (st : LogStore) (k v : string) (loc : Z * Z) : Prop :=
  ∃ (i : nat) (pre rec post : list byte),
    loc = (Z.of_nat i, len pre)
    ∧ (i < length (heap st))%nat
    ∧ fs st !! segment_path (Z.of_nat i) = Some (pre ++ rec ++ post)
    ∧ record_bytes k (Some v) = Ok rec.

(** Every segment's size is an offset that [seek] accepts. *)
Definition seekable (max_offset : N) (st : LogStore) : Prop :=
  Forall (λ seg, size seg ≤ Z.of_N max_offset ∧ size seg < 2 ^ 63) (heap st).

Definition index_inv (st : LogStore) (idx : HashIndex)
  (m : gmap string string) : Prop :=
  ∀ k, match hash_get k idx with
       | Some loc => ∃ v, m !! k = Some v ∧ located st k v loc
       | None => m !! k = None
       end.

Record engine_inv (hash : string → Z) (e : StorageEngine)
  (m : gmap string string) : Prop := {
  e_store : store_inv (log_store e);
  e_index : index_inv (log_store e) (Storage.index e) m;
  e_bloom : well_sized (bloom e);
  e_keys : ∀ k, is_Some (hash_get k (Storage.index e)) →
                contains hash k (bloom e)
}.

End StoreSpec.

(** ** What the properties of the Raft node are stated with *)

Module RaftSpec.

Import Raft.

(** What happens at a node: it serves a request, or its election timer
    runs out and it starts an election over the network [send_rpc]. *)
Inductive event : Type :=
| Serve (env : Env) (request : Request)
| Elect (env : Env) (send_rpc : Address -> RequestVote -> option VoteReply).

(** The vote the node casts in an event, as [(term, candidate)]: the vote
    it grants to a candidate, or the vote for itself in an election. *)
Definition event_step (ev : event) (n : RaftNode)
  : result (RaftNode * option (Z * Z)) :=
  match ev with
  | Serve env request =>
      '(n', r) ← _process env request n;
      Ok (n', match request, r with
              | ReqVote req, RespVote reply =>
                  if vr_vote_granted reply
                  then Some (rv_term req, rv_candidate_id req) else None
              | _, _ => None
              end)
  | Elect env send_rpc =>
      Ok (_start_election env send_rpc n,
          Some (current_term (raft_state n) + 1, node_id n))
  end.

Fixpoint event_run (evs : list event) (n : RaftNode)
  : result (RaftNode * list (Z * Z)) :=
  match evs with
  | [] => Ok (n, [])
  | ev :: rest =>
      '(n1, v) ← event_step ev n;
      '(n2, vs) ← event_run rest n1;
      Ok (n2, match v with Some x => x :: vs | None => vs end)
  end.

(** The node has voted for [c] in term [t], or is past that term. *)
Definition promised (t c : Z) (n : RaftNode) : Prop :=
  t ≤ current_term (raft_state n)
  ∧ (current_term (raft_state n) = t → voted_for (raft_state n) = Some c).

(** [_update_commit_index] commits [k]: the entry at [k] is of the current
    term and is counted on more nodes than half the number of peers. *)
Definition committable (n : RaftNode) (k : Z) : bool :=
  match log (raft_state n) !! Z.to_nat (k - 1) with
  | Some e => (term e =? current_term (raft_state n))
              && (len (peers n) / 2 <? replicated_on n k)
  | None => false
  end.

(** The last index of [ks] that is committed, [c] when there is none. *)
Definition last_committable (n : RaftNode) (c : Z) (ks : list Z) : Z :=
  foldl (fun c k => if committable n k then k else c) c ks.

(** The entry at position [i] of the log has the index [i + 1]. *)
Definition numbered_log (l : list LogEntry) : Prop :=
  ∀ (i : nat) e, l !! i = Some e → index e = Z.of_nat i + 1.

End RaftSpec.

(** ** What the properties of the MVCC stores are stated with *)

Module MVCCSpec.

Import MVCC.

(** The record of [key], the empty one when the key has none. *)
Definition record_of (d : gmap string MVCCRecord) (key : string) : MVCCRecord :=
  default empty_record (d !! key).

(** The transaction that holds the lock of [key]. *)
Definition holder (st : MVCCStore) (key : string) : option Z :=
  lock_holder (record_of (data st) key).

(** [t] is active and has a pending write of [key]. *)
Definition writes (st : MVCCStore) (t : Z) (key : string) : Prop :=
  ∃ info, active_txns st !! t = Some info ∧ is_Some (write_set info !! key).

(** The locks are those of the pending writes, and the ids of the active
    transactions have been given out. *)
Record locks_ok (st : MVCCStore) : Prop := mkLocksOk {
  lk_holder : ∀ t key, holder st key = Some t ↔ writes st t key;
  lk_ids : ∀ t, is_Some (active_txns st !! t) → t < next_txn_id st
}.

(** Every version was written by a transaction that has committed. *)
Definition all_committed (st : MVCCStore) : Prop :=
  ∀ key v, v ∈ versions_of (data st) key →
           is_Some (committed_txns st !! txn_id v).

(** The versions that [gc_old_versions(before_ts)] does not look for: those
    of a transaction that has not committed, or has committed at
    [before_ts] or later. *)
Definition recent (committed : gmap Z Z) (before_ts : Z) (v : Version) : Prop :=
  ∀ ts, committed !! txn_id v = Some ts → before_ts ≤ ts.

End MVCCSpec.

(** ** What the properties of the persistent log are stated with *)

Module PLogSpec.

Import PLog.

Section WithJson.

Context {Command : Type}.
Variable json_dumps : Command -> list byte.

(** The entries that calls of [append] make on a log of [k] entries. *)
Fixpoint numbered (k : Z) (calls : list (Z * Command))
  : list (@PersistentLogEntry Command) :=
  match calls with
  | [] => []
  | (t, c) :: rest => mkEntry t (k + 1) c :: numbered (k + 1) rest
  end.

(** [struct.pack('>Q Q I', ...)] takes the fields of the entry. *)
Definition packable (e : @PersistentLogEntry Command) : Prop :=
  0 ≤ term e < 2 ^ 64 ∧ 0 ≤ index e < 2 ^ 64
  ∧ len (json_dumps (command e)) < 2 ^ 32.

(** The bytes of an entry in the file. *)
Definition entry_bytes (e : @PersistentLogEntry Command) : list byte :=
  be_encode 8 (term e) ++ be_encode 8 (index e)
  ++ be_encode 4 (len (json_dumps (command e))) ++ json_dumps (command e).

End WithJson.

End PLogSpec.

(** * Properties *)

(** ** Python sequences *)

Section PyFacts.

Context {A : Type}.

Lemma len_nonneg (l : list A) : 0 ≤ len l.
Proof. unfold len. lia. Qed.

Lemma len_app (l k : list A) : len (l ++ k) = len l + len k.
Proof. unfold len. rewrite length_app. lia. Qed.

Lemma len_cons (x : A) (l : list A) : len (x :: l) = 1 + len l.
Proof. unfold len. cbn [length]. lia. Qed.

Lemma index_pos_in_range (l : list A) (i : Z) :
  0 ≤ i < len l → index_pos l i = Ok (Z.to_nat i).
Proof.
  intros [H0 H1]. unfold index_pos.
  destruct (Z.leb_spec 0 i); [|lia].
  destruct (Z.ltb_spec i (len l)); [|lia].
  reflexivity.
Qed.

Lemma getitem_in_range (l : list A) (i : Z) (x : A) :
  0 ≤ i → l !! Z.to_nat i = Some x → getitem l i = Ok x.
Proof.
  intros H0 Hx. unfold getitem.
  rewrite index_pos_in_range.
  - now rewrite Hx.
  - apply lookup_lt_Some in Hx. unfold len. lia.
Qed.

Lemma setitem_in_range (l : list A) (i : Z) (x : A) :
  0 ≤ i < len l → setitem l i x = Ok (<[Z.to_nat i := x]> l).
Proof.
  intros H. unfold setitem. now rewrite index_pos_in_range.
Qed.

End PyFacts.

(** ** Raft: AppendEntries and elections *)

Section RaftFacts.

Import Raft Claims.

Lemma store_entries_consecutive (entries : list LogEntry) :
  ∀ (l : list LogEntry) (p : nat),
    (p ≤ length l)%nat →
    consecutive (Z.of_nat p + 1) entries →
    store_entries entries l =
      Ok (take p l ++ entries ++ drop (p + length entries) l).
Proof.
  induction entries as [|e rest IH]; intros l p Hp Hc.
  - cbn. now rewrite Nat.add_0_r, take_drop.
  - destruct Hc as [He Hc]. cbn [store_entries].
    destruct (Z.leb_spec (index e) (len l)) as [Hle|Hgt].
    + assert (Hlt : (p < length l)%nat) by (unfold len in Hle; lia).
      rewrite setitem_in_range by (unfold len; lia).
      replace (Z.to_nat (index e - 1)) with p by lia.
      cbn. rewrite (IH (<[p:=e]> l) (S p)).
      * rewrite (take_S_r _ _ e) by (now apply list_lookup_insert_eq).
        rewrite take_insert_ge by lia.
        rewrite drop_insert_lt by lia.
        rewrite <- app_assoc. cbn.
        now replace (S (p + length rest))%nat with (p + S (length rest))%nat by lia.
      * rewrite length_insert. lia.
      * now replace (Z.of_nat (S p) + 1) with (Z.of_nat p + 1 + 1) by lia.
    + assert (Hpl : p = length l) by (unfold len in Hgt; lia).
      rewrite (IH (l ++ [e]) (S p)).
      * subst p.
        rewrite (take_ge l (length l)) by lia.
        rewrite (take_ge (l ++ [e])) by (rewrite length_app; cbn; lia).
        rewrite (drop_ge l) by lia.
        rewrite (drop_ge (l ++ [e])) by (rewrite length_app; cbn; lia).
        now rewrite <- app_assoc.
      * rewrite length_app. cbn. lia.
      * now replace (Z.of_nat (S p) + 1) with (Z.of_nat p + 1 + 1) by lia.
Qed.

Lemma apply_loop_ok (k : nat) :
  ∀ n, 0 ≤ last_applied (raft_state n) →
       commit_index (raft_state n) ≤ len (log (raft_state n)) →
       ∃ n', apply_loop k n = Ok n'
             ∧ log (raft_state n') = log (raft_state n)
             ∧ commit_index (raft_state n') = commit_index (raft_state n)
             ∧ current_term (raft_state n') = current_term (raft_state n).
Proof.
  induction k as [|k IH]; intros n H0 Hc.
  - exists n. now cbn.
  - cbn [apply_loop].
    destruct (Z.ltb_spec (last_applied (raft_state n)) (commit_index (raft_state n)))
      as [Hlt|Hge].
    + replace (last_applied (raft_state n) + 1 - 1) with (last_applied (raft_state n))
        by lia.
      destruct (lookup_lt_is_Some_2 (log (raft_state n))
                  (Z.to_nat (last_applied (raft_state n)))) as [e He].
      { unfold len in Hc. lia. }
      rewrite (getitem_in_range _ _ e) by assumption.
      cbn.
      destruct (IH (set_applied
                      (set_last_applied (last_applied (raft_state n) + 1) (raft_state n))
                      (applied n ++ [e]) n)) as (n' & Hn' & Hl & Hci & Hct).
      * cbn. lia.
      * cbn. exact Hc.
      * exists n'. cbn in Hl, Hci, Hct. auto.
    + exists n. auto.
Qed.

Lemma accept_entries_ok (req : AppendEntries) (n : RaftNode) :
  0 ≤ ae_prev_log_index req ≤ len (log (raft_state n)) →
  consecutive (ae_prev_log_index req + 1) (ae_entries req) →
  0 ≤ last_applied (raft_state n) →
  ∃ n', accept_entries req n = Ok (n', mkAppendReply (current_term (raft_state n)) true)
        ∧ log (raft_state n') =
            take (Z.to_nat (ae_prev_log_index req)) (log (raft_state n))
            ++ ae_entries req
            ++ drop (Z.to_nat (ae_prev_log_index req) + length (ae_entries req))
                 (log (raft_state n))
        ∧ commit_index (raft_state n') =
            (if commit_index (raft_state n) <? ae_leader_commit req
             then Z.min (ae_leader_commit req) (len (log (raft_state n')))
             else commit_index (raft_state n)).
Proof.
  intros Hp Hc Ha. unfold accept_entries.
  rewrite (store_entries_consecutive _ _ (Z.to_nat (ae_prev_log_index req))).
  2: { unfold len in Hp. lia. }
  2: { now rewrite Z2Nat.id by lia. }
  cbn.
  set (l' := take _ _ ++ _ ++ drop _ _).
  destruct (Z.ltb_spec (commit_index (raft_state n)) (ae_leader_commit req)) as [Hlt|Hge].
  - unfold _apply_committed.
    match goal with
    | |- context [apply_loop ?k ?m] =>
        destruct (apply_loop_ok k m) as (n' & Hn' & Hl & Hci & Hct)
    end.
    + cbn. exact Ha.
    + cbn. lia.
    + rewrite Hn'. cbn. exists n'. cbn in Hl, Hci, Hct.
      rewrite Hct, Hl, Hci. auto.
  - cbn. eexists. split; [reflexivity|]. cbn. auto.
Qed.

(** C2 fails on the code: [_handle_append_entries] writes each entry sent at
    its index and never cuts the log behind the last of them, as it does
    where the previous entry does not match. A follower of term 2 with the
    entries ["x"] and ["y"] of term 1, sent the one entry ["z"] of term 2
    for index 1 by the leader of term 2, passes the term check and the check
    of the previous entry and keeps ["y"], the differing suffix that the
    claim has overwritten; its commit index becomes
    [min(leader_commit, len(log))], which is 2 and not 1, the index of the
    last new entry, and the entry ["y"] is applied. *)
Theorem append_entries_keeps_tail :
  ∃ n', _handle_append_entries (mkEnv 10 2) short_request stale_follower
          = Ok (n', mkAppendReply 2 true)
        ∧ term_ok stale_follower short_request
        ∧ prev_ok stale_follower short_request
        ∧ log (raft_state n') = [mkLogEntry 2 1 "z"; mkLogEntry 1 2 "y"]
        ∧ commit_index (raft_state n') = 2
        ∧ applied n' = [mkLogEntry 2 1 "z"; mkLogEntry 1 2 "y"]
        ∧ ¬ accept_as_specified stale_follower short_request n'.
Proof.
  eexists. split; [vm_compute; reflexivity|].
  split; [unfold term_ok; cbn; lia|].
  split; [left; cbn; lia|].
  split; [reflexivity|]. split; [reflexivity|]. split; [reflexivity|].
  intros [Hlog _]. vm_compute in Hlog. discriminate Hlog.
Qed.

(** What [_handle_append_entries] does with a request that passes the term
    check and the check of the previous entry, when [prev_log_index] is not
    negative, the entries are numbered consecutively from
    [prev_log_index + 1] and [last_applied] is not negative: it answers
    success with the term of the request; the log becomes its first
    [prev_log_index] entries, the sent entries, and the old entries beyond
    the last sent index; the commit index becomes
    [min(leader_commit, len(log))] when [leader_commit] exceeds it and is
    left alone otherwise. When the sent entries reach the end of the old
    log, this is the old prefix followed by the sent entries and
    [min(leader_commit, index of the last new entry)]. *)
Theorem append_entries_accept (env : Env) (req : AppendEntries) (n : RaftNode) :
  term_ok n req →
  prev_ok n req →
  0 ≤ ae_prev_log_index req →
  consecutive (ae_prev_log_index req + 1) (ae_entries req) →
  0 ≤ last_applied (raft_state n) →
  ∃ n', _handle_append_entries env req n = Ok (n', mkAppendReply (ae_term req) true)
        ∧ log (raft_state n') =
            take (Z.to_nat (ae_prev_log_index req)) (log (raft_state n))
            ++ ae_entries req
            ++ drop (Z.to_nat (ae_prev_log_index req) + length (ae_entries req))
                 (log (raft_state n))
        ∧ commit_index (raft_state n') =
            (if commit_index (raft_state n) <? ae_leader_commit req
             then Z.min (ae_leader_commit req) (len (log (raft_state n')))
             else commit_index (raft_state n))
        ∧ (len (log (raft_state n)) ≤ last_new_index req →
           log (raft_state n') =
             take (Z.to_nat (ae_prev_log_index req)) (log (raft_state n))
             ++ ae_entries req
           ∧ (commit_index (raft_state n) < ae_leader_commit req →
              commit_index (raft_state n') =
                Z.min (ae_leader_commit req) (last_new_index req))).
Proof.
  intros Ht Hp H0 Hc Ha. unfold term_ok in Ht.
  assert (Hplen : ae_prev_log_index req ≤ len (log (raft_state n))).
  { destruct Hp as [Hp|[Hp _]]; [pose proof (len_nonneg (log (raft_state n)))|]; lia. }
  set (n1 := adopt_term (ae_term req) n).
  assert (Hn1 : log (raft_state n1) = log (raft_state n)
                ∧ commit_index (raft_state n1) = commit_index (raft_state n)
                ∧ last_applied (raft_state n1) = last_applied (raft_state n)
                ∧ current_term (raft_state n1) = ae_term req).
  { unfold n1, adopt_term.
    destruct (Z.ltb_spec (current_term (raft_state n)) (ae_term req)); cbn;
      repeat split; lia. }
  destruct Hn1 as (Hl1 & Hc1 & Ha1 & Ht1).
  set (n2 := set_state FOLLOWER
               (set_leader_id (Some (ae_leader_id req)) (_reset_election_timer env n1))).
  assert (Hn2 : raft_state n2 = raft_state n1) by reflexivity.
  destruct (accept_entries_ok req n2) as (n' & Hacc & Hlog & Hci).
  { rewrite Hn2, Hl1. lia. }
  { exact Hc. }
  { rewrite Hn2, Ha1. exact Ha. }
  rewrite Hn2, Ht1 in Hacc. rewrite Hn2, Hl1 in Hlog. rewrite Hn2, Hc1 in Hci.
  exists n'. split.
  - unfold _handle_append_entries. fold n1. rewrite Ht1, Z.ltb_irrefl. cbv zeta.
    fold n2.
    destruct (Z.ltb_spec 0 (ae_prev_log_index req)) as [Hpos|Hzero]; [|exact Hacc].
    rewrite Hn2, Hl1.
    destruct (Z.ltb_spec (len (log (raft_state n))) (ae_prev_log_index req)); [lia|].
    destruct Hp as [Hp|(_ & e & He & Hterm)]; [lia|].
    rewrite (getitem_in_range _ _ e) by (lia || assumption).
    cbn. rewrite Hterm, Z.eqb_refl. exact Hacc.
  - split; [exact Hlog|]. split; [exact Hci|].
    intros Hend. unfold last_new_index, len in Hend.
    assert (Hdrop : drop (Z.to_nat (ae_prev_log_index req) + length (ae_entries req))
                      (log (raft_state n)) = []).
    { apply drop_ge. lia. }
    rewrite Hdrop, app_nil_r in Hlog. split; [exact Hlog|].
    intros Hlt. rewrite Hci.
    destruct (Z.ltb_spec (commit_index (raft_state n)) (ae_leader_commit req)); [|lia].
    f_equal. rewrite Hlog. unfold last_new_index, len.
    rewrite length_app, length_take. unfold len in Hplen. lia.
Qed.

(** The theorem at a follower with one entry and a leader that sends the
    second one. *)
Lemma append_entries_accept_witness :
  ∃ n', _handle_append_entries (mkEnv 10 2)
          (mkAppendEntries 1 0 1 1 [mkLogEntry 1 2 "y"] 2)
          (mkRaftNode 1 [] FOLLOWER (mkRaftState 1 None [mkLogEntry 1 1 "x"] 0 0)
             ∅ ∅ None 2 0 [])
        = Ok (n', mkAppendReply 1 true)
        ∧ log (raft_state n') = [mkLogEntry 1 1 "x"; mkLogEntry 1 2 "y"]
        ∧ commit_index (raft_state n') = 2.
Proof.
  destruct (append_entries_accept (mkEnv 10 2)
              (mkAppendEntries 1 0 1 1 [mkLogEntry 1 2 "y"] 2)
              (mkRaftNode 1 [] FOLLOWER (mkRaftState 1 None [mkLogEntry 1 1 "x"] 0 0)
                 ∅ ∅ None 2 0 []))
    as (n' & Hrun & Hlog & Hci & _).
  - unfold term_ok. cbn. lia.
  - right. unfold len. cbn. split; [lia|]. eexists. split; reflexivity.
  - cbn. lia.
  - cbn. auto.
  - cbn. lia.
  - exists n'. split; [exact Hrun|]. split; [exact Hlog|].
    rewrite Hci, Hlog. reflexivity.
Defined.

Lemma collect_votes_state (send_rpc : Address → RequestVote → option VoteReply)
  (req : RequestVote) (ps : list (Z * Address)) :
  ∀ votes n,
    match collect_votes send_rpc req ps votes n with
    | inl n' => state n' = FOLLOWER
    | inr (n', votes') => n' = n ∧ votes ≤ votes' ≤ votes + len ps
    end.
Proof.
  induction ps as [|[peer_id addr] rest IH]; intros votes n; cbn [collect_votes].
  - split; [reflexivity|]. unfold len. cbn. lia.
  - rewrite len_cons. pose proof (len_nonneg rest).
    destruct (send_rpc addr req) as [r|].
    + destruct (rv_term req <? vr_term r); [reflexivity|].
      specialize (IH (if vr_vote_granted r then votes + 1 else votes) n).
      destruct (collect_votes _ _ _ _ _) as [|[n' v']]; [exact IH|].
      destruct IH as [-> IH]. split; [reflexivity|].
      destruct (vr_vote_granted r); lia.
    + specialize (IH votes n).
      destruct (collect_votes _ _ _ _ _) as [|[n' v']]; [exact IH|].
      destruct IH as [-> IH]. split; [reflexivity|]. lia.
Qed.

(** A candidate that becomes leader has counted more votes than half the
    number of its peers, which is a strict majority of the cluster when the
    cluster has an odd number of nodes. *)
Lemma election_win_votes (env : Env)
  (send_rpc : Address → RequestVote → option VoteReply) (n : RaftNode) :
  state (_start_election env send_rpc n) = LEADER →
  ∃ votes, election_votes env send_rpc n = Some votes
           ∧ len (peers n) / 2 < votes
           ∧ (Z.odd (cluster_size n) = true → strict_majority votes (cluster_size n)).
Proof.
  unfold _start_election, election_votes.
  pose proof (collect_votes_state send_rpc (election_request (election_start env n))
                (peers (election_start env n)) 1 (election_start env n)) as Hcv.
  destruct (collect_votes _ _ _ _ _) as [n'|[n' votes]].
  - rewrite Hcv. discriminate.
  - destruct Hcv as [-> _]. change (peers (election_start env n)) with (peers n).
    destruct (Z.ltb_spec (len (peers n) / 2) votes) as [Hlt|Hge]; cbn.
    + intros _. exists votes. split; [reflexivity|]. split; [exact Hlt|].
      unfold strict_majority, cluster_size. intros Hodd.
      rewrite Z.odd_add in Hodd. cbn in Hodd.
      destruct (Z.odd (len (peers n))) eqn:Hp; [discriminate|].
      assert (Heven : Z.even (len (peers n)) = true)
        by (rewrite <- Z.negb_odd, Hp; reflexivity).
      apply Z.even_spec in Heven. destruct Heven as [k Hk].
      rewrite Hk in Hlt |- *.
      rewrite (Z.mul_comm 2 k), Z.div_mul in Hlt by lia. lia.
    + discriminate.
Qed.

(** C3 fails on the code: in a cluster of two nodes a candidate whose peer
    does not answer counts its own vote only, one vote of two, and becomes
    leader, because [_start_election] compares the votes with half the
    number of peers, which leaves the candidate itself out. *)
Theorem election_won_without_majority :
  state (_start_election (mkEnv 10 2) no_answer lonely_candidate) = LEADER
  ∧ election_votes (mkEnv 10 2) no_answer lonely_candidate = Some 1
  ∧ cluster_size lonely_candidate = 2
  ∧ ¬ strict_majority 1 (cluster_size lonely_candidate).
Proof.
  split; [reflexivity|]. split; [reflexivity|]. split; [reflexivity|].
  unfold strict_majority. vm_compute. intros H. discriminate H.
Qed.

End RaftFacts.

(** ** [struct] *)

Section StructFacts.

Lemma be_encode_length (w : nat) (n : Z) : length (be_encode w n) = w.
Proof. induction w as [|w IH]; cbn; [reflexivity|]. now rewrite IH. Qed.

Lemma struct_pack_length (fields : list (nat * Z)) :
  ∀ bs, struct_pack fields = Ok bs → length bs = foldr Nat.add O fields.*1.
Proof.
  induction fields as [|[w n] rest IH]; intros bs H; cbn in H.
  - now inversion H.
  - destruct ((0 <=? n) && (n <? 256 ^ Z.of_nat w)); [|discriminate].
    destruct (struct_pack rest) as [bs'|]; [|discriminate].
    cbn in H. inversion H; subst.
    rewrite length_app, be_encode_length, (IH bs') by reflexivity.
    reflexivity.
Qed.

Lemma struct_unpack_ok (widths : list nat) (bs : list byte) :
  length bs = foldr Nat.add O widths →
  struct_unpack widths bs = Ok (unpack_fields widths bs).
Proof.
  intros H. unfold struct_unpack. now rewrite H, Nat.eqb_refl.
Qed.

End StructFacts.

(** ** Persistent Raft log *)

Section PLogFacts.

Import PLog.

Context {Command : Type}.
Variable json_dumps : Command → list byte.
Variable json_loads : list byte → result Command.

Lemma append_file_grows (t : Z) (c : Command) (l l' : PersistentLog)
  (e : PersistentLogEntry) :
  append json_dumps t c l = Ok (l', e) →
  ∃ data, file l' = Some data
          ∧ (20 + length (default [] (file l)) ≤ length data)%nat.
Proof.
  unfold append, _append_to_file. cbn [command term index].
  destruct (struct_pack _) as [header|] eqn:Hpack; [|discriminate].
  cbn -[Nat.add]. intros H. injection H as <- <-. cbn -[Nat.add].
  eexists. split; [reflexivity|].
  apply struct_pack_length in Hpack. cbn in Hpack.
  rewrite !length_app, Hpack. lia.
Qed.

Lemma append_all_file (calls : list (Z * Command)) :
  ∀ l l', append_all json_dumps calls l = Ok l' →
          (length (default [] (file l)) ≤ length (default [] (file l')))%nat
          ∧ (calls ≠ [] →
             ∃ data, file l' = Some data ∧ (20 ≤ length data)%nat).
Proof.
  induction calls as [|[t c] rest IH]; intros l l' H; cbn [append_all] in H.
  - inversion H; subst. split; [lia|]. intros Hne. now contradiction Hne.
  - destruct (append json_dumps t c l) as [[l1 e]|] eqn:Happ;
      [|cbn in H; discriminate H].
    cbn in H. destruct (append_file_grows _ _ _ _ _ Happ) as (d1 & Hd1 & Hlen).
    destruct (IH _ _ H) as [Hmono Hrest]. rewrite Hd1 in Hmono. cbn in Hmono.
    split; [lia|]. intros _.
    destruct rest as [|call rest'].
    + cbn in H. inversion H; subst. exists d1. split; [exact Hd1|lia].
    + destruct Hrest as (data & Hdata & Hl); [discriminate|].
      exists data. split; [exact Hdata|exact Hl].
Qed.

(** [_load] stops with [ValueError] on every file that holds 16 bytes or
    more: it unpacks the two fields of ['>Q Q'] into three names. *)
Lemma load_raises (data : list byte) :
  (16 ≤ length data)%nat → _load json_loads (Some data) = Raise ValueError.
Proof.
  intros Hlen. unfold _load. cbn [load_loop]. cbv zeta.
  assert (Hhead : read_bytes data 0 16 = take 16 data) by reflexivity.
  assert (H16 : length (take 16 data) = 16%nat) by (rewrite length_take; lia).
  rewrite Hhead. unfold len at 1. rewrite H16.
  change (Z.of_nat 16 <? 16) with false. cbv iota.
  rewrite take_take. change (16 `min` 16)%nat with 16%nat.
  rewrite (struct_unpack_ok [8; 8]%nat (take 16 data))
    by (rewrite H16; reflexivity).
  reflexivity.
Qed.

(** C6 fails on the code: after one [append] or more, a new [PersistentLog]
    on the file written does not come back with the entries; [_load] raises
    [ValueError], whatever the terms and commands are. *)
Theorem reload_after_append_raises (calls : list (Z * Command))
  (l : PersistentLog) :
  calls ≠ [] →
  append_all json_dumps calls (mkLog None []) = Ok l →
  open_log json_loads (file l) = Raise ValueError.
Proof.
  intros Hne Happ.
  destruct (append_all_file _ _ _ Happ) as [_ Hfile].
  destruct (Hfile Hne) as (data & Hdata & Hlen).
  unfold open_log. rewrite Hdata, load_raises by lia. reflexivity.
Qed.

End PLogFacts.

(** The theorem at one [append(1, c)], with commands that are byte strings
    and are written as they are. *)
Lemma reload_after_append_raises_witness :
  ∃ l, PLog.append_all (fun c => c) [(1, [x61])] (PLog.mkLog None []) = Ok l
       ∧ PLog.entries l = [PLog.mkEntry 1 1 [x61]]
       ∧ PLog.open_log (fun c => Ok c) (PLog.file l) = Raise ValueError.
Proof.
  eexists. split; [reflexivity|]. split; [reflexivity|].
  apply (reload_after_append_raises (fun c => c) (fun c => Ok c) [(1, [x61])]).
  - discriminate.
  - reflexivity.
Defined.

(** ** Bloom filter *)

Section BloomFacts.

Import Index.

Variable hash : string → Z.

Lemma index_pos_length {A : Type} (l l' : list A) (i : Z) :
  length l = length l' → index_pos l' i = index_pos l i.
Proof. intros H. unfold index_pos, len. now rewrite H. Qed.

Lemma setitem_sets (bs bs' : list bool) (h : Z) :
  setitem bs h true = Ok bs' → bit_set bs' h.
Proof.
  unfold setitem, bit_set, getitem.
  destruct (index_pos bs h) as [n|] eqn:Hn; [|discriminate].
  intros H. injection H as <-.
  rewrite (index_pos_length bs (<[n:=true]> bs)) by (now rewrite length_insert).
  rewrite Hn.
  assert (Hlt : (n < length bs)%nat).
  { unfold index_pos, len in Hn.
    destruct ((0 <=? h) && (h <? Z.of_nat (length bs))) eqn:E1.
    - injection Hn as <-. lia.
    - destruct ((h <? 0) && (0 <=? Z.of_nat (length bs) + h)) eqn:E2;
        [|discriminate].
      injection Hn as <-. lia. }
  now rewrite list_lookup_insert_eq.
Qed.

Lemma setitem_keeps (bs bs' : list bool) (h h' : Z) :
  setitem bs h' true = Ok bs' → bit_set bs h → bit_set bs' h.
Proof.
  unfold setitem, bit_set, getitem.
  destruct (index_pos bs h') as [n'|] eqn:Hn'; [|discriminate].
  intros H. injection H as <-.
  rewrite (index_pos_length bs (<[n':=true]> bs)) by (now rewrite length_insert).
  destruct (index_pos bs h) as [n|]; [|discriminate].
  destruct (bs !! n) as [b|] eqn:Hb; [|discriminate].
  intros Hb'. injection Hb' as ->.
  destruct (decide (n' = n)) as [->|Hne].
  - rewrite list_lookup_insert_eq; [reflexivity|]. now apply lookup_lt_Some in Hb.
  - rewrite list_lookup_insert_ne by assumption. now rewrite Hb.
Qed.

Lemma hash_at_size (b b' : BloomFilter) (key : string) (i : Z) :
  size b' = size b → hash_at hash b' key i = hash_at hash b key i.
Proof. intros H. unfold hash_at. now rewrite H. Qed.

Lemma add_loop_spec (b : BloomFilter) (key : string) (idxs : list Z) :
  ∀ bs bs', add_loop hash b key idxs bs = Ok bs' →
    (∀ h, bit_set bs h → bit_set bs' h)
    ∧ (∀ i, i ∈ idxs → ∃ h, hash_at hash b key i = Ok h ∧ bit_set bs' h).
Proof.
  induction idxs as [|i rest IH]; intros bs bs' H; cbn [add_loop] in H.
  - injection H as <-. split; [auto|]. intros i Hi. inversion Hi.
  - destruct (hash_at hash b key i) as [h|] eqn:Hh; [|discriminate H].
    cbn in H. destruct (setitem bs h true) as [bs1|] eqn:Hs; [|discriminate H].
    cbn in H. destruct (IH _ _ H) as [Hkeep Hset]. split.
    + intros h' Hh'. apply Hkeep. eapply setitem_keeps; eassumption.
    + intros j Hj. apply elem_of_cons in Hj as [->|Hj].
      * exists h. split; [exact Hh|]. apply Hkeep. eapply setitem_sets; eassumption.
      * now apply Hset.
Qed.

Lemma all_loop_true (b : BloomFilter) (key : string) (idxs : list Z) :
  all_loop hash b key idxs = Ok true ↔
  ∀ i, i ∈ idxs → ∃ h, hash_at hash b key i = Ok h ∧ bit_set (bits b) h.
Proof.
  induction idxs as [|i rest IH]; cbn [all_loop].
  - split; [|reflexivity]. intros _ i Hi. inversion Hi.
  - split.
    + destruct (hash_at hash b key i) as [h|] eqn:Hh; [|discriminate].
      cbn. destruct (getitem (bits b) h) as [bit|] eqn:Hg; [|discriminate].
      cbn. destruct bit; [|discriminate].
      intros Hrest j Hj. apply elem_of_cons in Hj as [->|Hj].
      * exists h. split; [exact Hh|exact Hg].
      * now apply IH.
    + intros Hall. destruct (Hall i) as (h & Hh & Hg); [left|].
      rewrite Hh. cbn. unfold bit_set in Hg. rewrite Hg. cbn.
      apply IH. intros j Hj. apply Hall. now right.
Qed.

Lemma add_shape (key : string) (b b' : BloomFilter) :
  add hash key b = Ok b' →
  size b' = size b ∧ num_hashes b' = num_hashes b
  ∧ add_loop hash b key (seqZ 0 (num_hashes b)) (bits b) = Ok (bits b').
Proof.
  unfold add. destruct (add_loop _ _ _ _ _) as [bs|]; [|discriminate].
  cbn. intros H. injection H as <-. auto.
Qed.

Lemma add_contains (key : string) (b b' : BloomFilter) :
  add hash key b = Ok b' → contains hash key b'.
Proof.
  intros H. apply add_shape in H as (Hs & Hn & Hl).
  apply add_loop_spec in Hl as [_ Hset].
  unfold contains, might_contain. rewrite Hn. apply all_loop_true.
  intros i Hi. destruct (Hset i Hi) as (h & Hh & Hb).
  exists h. split; [|exact Hb]. now rewrite (hash_at_size b).
Qed.

Lemma add_keeps (key k : string) (b b' : BloomFilter) :
  add hash key b = Ok b' → contains hash k b → contains hash k b'.
Proof.
  intros H Hk. apply add_shape in H as (Hs & Hn & Hl).
  apply add_loop_spec in Hl as [Hkeep _].
  unfold contains, might_contain in *. rewrite Hn. apply all_loop_true.
  intros i Hi. destruct (proj1 (all_loop_true _ _ _) Hk i Hi) as (h & Hh & Hb).
  exists h. split; [|now apply Hkeep]. now rewrite (hash_at_size b).
Qed.

Lemma add_all_keeps (keys : list string) (k : string) :
  ∀ b b', add_all hash keys b = Ok b' → contains hash k b → contains hash k b'.
Proof.
  induction keys as [|key rest IH]; intros b b' H Hk; cbn [add_all] in H.
  - now injection H as <-.
  - destruct (add hash key b) as [b1|] eqn:Ha; [|discriminate H].
    cbn in H. eapply IH; [exact H|]. eapply add_keeps; eassumption.
Qed.

Lemma add_all_contains (keys : list string) (k : string) :
  ∀ b b', add_all hash keys b = Ok b' → k ∈ keys → contains hash k b'.
Proof.
  induction keys as [|key rest IH]; intros b b' H Hk; cbn [add_all] in H.
  - inversion Hk.
  - destruct (add hash key b) as [b1|] eqn:Ha; [|discriminate H].
    cbn in H. apply elem_of_cons in Hk as [->|Hk].
    + eapply add_all_keeps; [exact H|]. eapply add_contains; eassumption.
    + eapply IH; eassumption.
Qed.

Lemma step_inserts (o : bloom_op) (k : string) (b b' : BloomFilter) :
  bloom_step hash o b = Ok b' → inserts k o → contains hash k b'.
Proof.
  destruct o as [key|keys]; cbn.
  - intros H <-. eapply add_contains; eassumption.
  - intros H Hk. eapply add_all_contains; eassumption.
Qed.

Lemma step_keeps (o : bloom_op) (k : string) (b b' : BloomFilter) :
  bloom_step hash o b = Ok b' → keeps k o → contains hash k b → contains hash k b'.
Proof.
  destruct o as [key|keys]; cbn.
  - intros H _ Hk. eapply add_keeps; eassumption.
  - intros H Hk _. eapply add_all_contains; eassumption.
Qed.

Lemma run_keeps (ops : list bloom_op) (k : string) :
  ∀ b b', bloom_run hash ops b = Ok b' → Forall (keeps k) ops →
          contains hash k b → contains hash k b'.
Proof.
  induction ops as [|o rest IH]; intros b b' H Hall Hk; cbn [bloom_run] in H.
  - now injection H as <-.
  - destruct (bloom_step hash o b) as [b1|] eqn:Hs; [|discriminate H].
    cbn in H. inversion Hall; subst.
    eapply IH; [exact H|assumption|]. eapply step_keeps; eassumption.
Qed.

Lemma run_app (pre post : list bloom_op) :
  ∀ b b', bloom_run hash (pre ++ post) b = Ok b' →
          ∃ b1, bloom_run hash pre b = Ok b1 ∧ bloom_run hash post b1 = Ok b'.
Proof.
  induction pre as [|o rest IH]; intros b b' H; cbn [bloom_run app] in *.
  - exists b. auto.
  - destruct (bloom_step hash o b) as [b1|]; [|discriminate H].
    cbn in *. now apply IH.
Qed.

(** C9: a key that an [add] or a [rebuild] has put into the filter is
    answered with [True] after every further sequence of [add] calls and of
    [rebuild] calls whose keys hold it; the answer can change only by a
    [rebuild] whose key set leaves the key out. This holds for every hash
    function, every size and every number of hashes, whenever the calls
    return. *)
Theorem bloom_no_false_negative (k : string) (pre post : list bloom_op)
  (o : bloom_op) (b0 b : BloomFilter) :
  bloom_run hash (pre ++ o :: post) b0 = Ok b →
  inserts k o →
  Forall (keeps k) post →
  might_contain hash k b = Ok true.
Proof.
  intros Hrun Hins Hkeep.
  apply run_app in Hrun as (b1 & _ & Hrun). cbn [bloom_run] in Hrun.
  destruct (bloom_step hash o b1) as [b2|] eqn:Hs; [|discriminate Hrun].
  cbn in Hrun. eapply run_keeps; [exact Hrun|exact Hkeep|].
  eapply step_inserts; eassumption.
Qed.

Lemma add_loop_ok (b : BloomFilter) (key : string) (idxs : list Z) :
  0 < size b →
  ∀ bs, length bs = Z.to_nat (size b) →
        ∃ bs', add_loop hash b key idxs bs = Ok bs'
               ∧ length bs' = Z.to_nat (size b).
Proof.
  intros Hs. induction idxs as [|i rest IH]; intros bs Hlen; cbn [add_loop].
  - eauto.
  - unfold hash_at. destruct (Z.eqb_spec (size b) 0); [lia|]. cbn.
    set (h := (hash key + i * hash (key ++ "_salt")) mod size b).
    assert (0 ≤ h < size b) by (apply Z.mod_pos_bound; lia).
    rewrite setitem_in_range by (unfold len; lia). cbn.
    apply IH. now rewrite length_insert.
Qed.

Lemma add_ok (key : string) (b : BloomFilter) :
  well_sized b → ∃ b', add hash key b = Ok b' ∧ well_sized b'.
Proof.
  intros [Hs Hl]. unfold add.
  destruct (add_loop_ok b key (seqZ 0 (num_hashes b)) Hs (bits b) Hl)
    as (bs' & Hrun & Hlen).
  rewrite Hrun. cbn. eexists. split; [reflexivity|]. split; assumption.
Qed.

Lemma add_all_ok (keys : list string) :
  ∀ b, well_sized b → ∃ b', add_all hash keys b = Ok b' ∧ well_sized b'.
Proof.
  induction keys as [|key rest IH]; intros b Hb; cbn [add_all].
  - eauto.
  - destruct (add_ok key b Hb) as (b1 & Hadd & Hb1). rewrite Hadd. cbn.
    now apply IH.
Qed.

Lemma rebuild_ok (keys : list string) (b : BloomFilter) :
  0 < size b →
  ∃ b', rebuild hash keys b = Ok b' ∧ well_sized b'
        ∧ ∀ k, k ∈ keys → contains hash k b'.
Proof.
  intros Hs. unfold rebuild.
  destruct (add_all_ok keys (mkBloom (size b) (num_hashes b)
                               (replicate (Z.to_nat (size b)) false)))
    as (b' & Hrun & Hb').
  { split; [exact Hs|]. cbn. apply length_replicate. }
  exists b'. split; [exact Hrun|]. split; [exact Hb'|].
  intros k Hk. eapply add_all_contains; eassumption.
Qed.

End BloomFacts.

(** The theorem at a filter of 16 bits and 3 hashes with the length of a
    string as its hash: ["a"] is added, then ["b"], then the filter is
    rebuilt from ["a"] and ["c"]. *)
Lemma bloom_no_false_negative_witness :
  let hash := fun s : string => Z.of_nat (String.length s) in
  ∃ b, Index.bloom_run hash
         ([] ++ Index.Add "a" :: [Index.Add "b"; Index.Rebuild ["a"; "c"]]%string)
         (Index.bloom_init 16 3) = Ok b
       ∧ Index.might_contain hash "a" b = Ok true.
Proof.
  intros hash. eexists. split; [vm_compute; reflexivity|].
  eapply (bloom_no_false_negative hash "a" []
            [Index.Add "b"; Index.Rebuild ["a"; "c"]]%string (Index.Add "a")
            (Index.bloom_init 16 3)).
  - vm_compute. reflexivity.
  - reflexivity.
  - repeat constructor.
Defined.

(** ** Segments: [read_at] *)

Section SegmentFacts.

Import Storage.


Lemma seek_in_range (max_offset : N) (offset : Z) :
  0 ≤ offset ≤ Z.of_N max_offset → offset < 2 ^ 63 →
  seek max_offset offset = Ok tt.
Proof.
  intros [H0 Hmax] H63. unfold seek.
  destruct (Z.ltb_spec offset (- 2 ^ 63)); [lia|].
  destruct (Z.leb_spec (2 ^ 63) offset); [lia|].
  destruct (Z.ltb_spec offset 0); [lia|].
  destruct (Z.ltb_spec (Z.of_N max_offset) offset); [lia|].
  reflexivity.
Qed.


(** C10 fails on the code: [read_at] is not total. The active segment of a
    store opened on an empty directory has the size 0 and no file, since
    [LogSegment.__init__] creates none; offset 0 is at the end of its data,
    and [read_at(0)] raises [FileNotFoundError] where the claim has it
    return [(None, None, False)] ([iterate] looks for the file first,
    [read_at] does not). On a segment whose file is there, an offset of
    [2^63], which is past every end, makes [f.seek] raise [ValueError]. This
    holds on every file system. *)
Theorem read_at_raises (max_offset : N) :
  let seg := mkSegment "segment_000000.log" 0 0 in
  let written := mkSegment "segment_000001.log" 1 3 in
  LogStore_init ∅ = Ok (mkLogStore ∅ [seg] [0%nat] (Some 0%nat))
  ∧ size seg ≤ 0
  ∧ read_at max_offset 0 seg ∅ = Raise FileNotFoundError
  ∧ size written ≤ 2 ^ 63
  ∧ read_at max_offset (2 ^ 63) written
      {["segment_000001.log"%string := [x00; x01; x02]]}
    = Raise ValueError.
Proof.
  intros seg written. split; [reflexivity|]. split; [reflexivity|].
  split; [reflexivity|]. split; [cbn; lia|]. reflexivity.
Qed.



End SegmentFacts.

(** ** Segments: the records of a file *)

Section RecordFacts.

Import Storage.

Lemma Z_of_byte_of_Z (z : Z) : Z_of_byte (byte_of_Z z) = z mod 256.
Proof.
  unfold Z_of_byte, byte_of_Z.
  pose proof (Z.mod_pos_bound z 256 ltac:(lia)) as Hm.
  destruct (Byte.of_N (Z.to_N (z mod 256))) as [b|] eqn:Hb.
  - apply Byte.to_of_N in Hb. rewrite Hb. lia.
  - apply Byte.of_N_None_iff in Hb. lia.
Qed.

Lemma be_decode_acc (w : nat) :
  ∀ n acc : Z,
    foldl (λ acc b, acc * 256 + Z_of_byte b) acc (be_encode w n)
    = acc * 256 ^ Z.of_nat w + n mod 256 ^ Z.of_nat w.
Proof.
  induction w as [|w IH]; intros n acc.
  - cbn. rewrite Z.mod_1_r. lia.
  - cbn [be_encode foldl]. rewrite IH, Z_of_byte_of_Z.
    rewrite Nat2Z.inj_succ, Z.pow_succ_r by lia.
    rewrite (Z.mul_comm 256 (256 ^ Z.of_nat w)).
    rewrite (Z.rem_mul_r n (256 ^ Z.of_nat w) 256) by lia.
    ring.
Qed.

Lemma be_decode_encode (w : nat) (n : Z) :
  0 ≤ n < 256 ^ Z.of_nat w → be_decode (be_encode w n) = n.
Proof.
  intros Hn. unfold be_decode. rewrite be_decode_acc.
  rewrite Z.mod_small by exact Hn. lia.
Qed.

Lemma unpack_fields_cons (w : nat) (n : Z) (widths : list nat) (bs : list byte) :
  0 ≤ n < 256 ^ Z.of_nat w →
  unpack_fields (w :: widths) (be_encode w n ++ bs) = n :: unpack_fields widths bs.
Proof.
  intros Hn. cbn [unpack_fields].
  rewrite take_app_length', drop_app_length' by now rewrite be_encode_length.
  now rewrite be_decode_encode.
Qed.

Lemma struct_pack_unpack (fields : list (nat * Z)) :
  ∀ bs, struct_pack fields = Ok bs →
        struct_unpack fields.*1 bs = Ok fields.*2.
Proof.
  intros bs H. rewrite struct_unpack_ok by now apply struct_pack_length.
  f_equal. revert bs H.
  induction fields as [|[w n] rest IH]; intros bs H; cbn in H.
  - now inversion H.
  - destruct (Z.leb_spec 0 n); [|discriminate].
    destruct (Z.ltb_spec n (256 ^ Z.of_nat w)); [|discriminate].
    destruct (struct_pack rest) as [bs'|]; [|discriminate].
    cbn in H. inversion H; subst. cbn [fmap list_fmap fst snd].
    rewrite unpack_fields_cons by lia. f_equal. now apply IH.
Qed.

Lemma record_bytes_inv (key : string) (value : option string) (rec : list byte) :
  record_bytes key value = Ok rec →
  ∃ header,
    rec = header ++ encode key ++ match value with Some v => encode v | None => [] end
    ∧ length header = 9%nat
    ∧ struct_unpack [4; 4; 1]%nat header
      = Ok [len (encode key);
            len (match value with Some v => encode v | None => [] end);
            match value with Some _ => 0 | None => 1 end].
Proof.
  unfold record_bytes. cbv zeta.
  destruct (struct_pack _) as [header|] eqn:Hpack; [|discriminate].
  cbn [mbind result_bind]. intros H. injection H as <-.
  exists header. split; [reflexivity|].
  split; [exact (struct_pack_length _ _ Hpack)|].
  exact (struct_pack_unpack _ _ Hpack).
Qed.

Lemma record_bytes_ok (key : string) (value : option string) :
  len (encode key) < 2 ^ 32 →
  len (match value with Some v => encode v | None => [] end) < 2 ^ 32 →
  ∃ rec, record_bytes key value = Ok rec.
Proof.
  intros Hk Hv. unfold record_bytes. cbv zeta. cbn [struct_pack].
  pose proof (len_nonneg (encode key)).
  pose proof (len_nonneg (match value with Some v => encode v | None => [] end)).
  destruct (Z.leb_spec 0 (len (encode key))); [|lia].
  destruct (Z.ltb_spec (len (encode key)) (256 ^ Z.of_nat 4)); [|cbn in *; lia].
  destruct (Z.leb_spec 0 (len (match value with Some v => encode v | None => [] end))); [|lia].
  destruct (Z.ltb_spec (len (match value with Some v => encode v | None => [] end)) (256 ^ Z.of_nat 4)); [|cbn in *; lia].
  cbn [andb].
  destruct value; cbn; eexists; reflexivity.
Qed.

Lemma record_bytes_len (key : string) (value : option string) (rec : list byte) :
  record_bytes key value = Ok rec →
  len rec = 9 + len (encode key)
            + len (match value with Some v => encode v | None => [] end).
Proof.
  intros H. apply record_bytes_inv in H as (header & -> & Hlen & _).
  rewrite !len_app. unfold len at 1. rewrite Hlen. lia.
Qed.

Lemma read_bytes_at (pre bs post : list byte) (pos n : Z) :
  pos = len pre → n = len bs →
  read_bytes (pre ++ bs ++ post) pos n = bs.
Proof.
  intros -> ->. unfold read_bytes, len. rewrite !Nat2Z.id.
  rewrite drop_app_length. apply take_app_length.
Qed.

Lemma read_bytes_end (data : list byte) (pos n : Z) :
  len data ≤ pos → read_bytes data pos n = [].
Proof.
  intros H. unfold read_bytes. rewrite drop_ge; [apply take_nil|].
  unfold len in H. lia.
Qed.


Lemma decode_encode (s : string) : decode (encode s) = s.
Proof. apply string_of_list_byte_of_string. Qed.

Lemma parse_record (pre post : list byte) (key : string) (value : option string)
  (rec : list byte) :
  record_bytes key value = Ok rec →
  let data := pre ++ rec ++ post in
  let vb := match value with Some v => encode v | None => [] end in
  len (read_bytes data (len pre) 9) = 9
  ∧ struct_unpack [4; 4; 1]%nat (read_bytes data (len pre) 9)
    = Ok [len (encode key); len vb; match value with Some _ => 0 | None => 1 end]
  ∧ read_bytes data (len pre + 9) (len (encode key)) = encode key
  ∧ read_bytes data (len pre + 9 + len (encode key)) (len vb) = vb.
Proof.
  intros H data vb. apply record_bytes_inv in H as (header & -> & Hlen & Hun).
  fold vb in Hun |- *.
  assert (H9 : len header = 9) by (unfold len; rewrite Hlen; reflexivity).
  assert (Hh : read_bytes data (len pre) 9 = header).
  { subst data. rewrite <- !app_assoc. apply read_bytes_at; [reflexivity|].
    now rewrite H9. }
  rewrite Hh. split; [exact H9|].
  split; [exact Hun|]. split.
  - subst data. rewrite <- !app_assoc. rewrite (app_assoc pre header).
    apply read_bytes_at; [|reflexivity].
    rewrite len_app, H9. reflexivity.
  - subst data. rewrite <- !app_assoc. rewrite (app_assoc pre header).
    rewrite (app_assoc (pre ++ header)).
    apply read_bytes_at; [|reflexivity].
    rewrite !len_app, H9. reflexivity.
Qed.

Lemma read_at_record (max_offset : N) (seg : LogSegment) (files : Files)
  (pre post : list byte) (key : string) (value : option string)
  (rec : list byte) :
  files !! path seg = Some (pre ++ rec ++ post) →
  record_bytes key value = Ok rec →
  len pre ≤ Z.of_N max_offset → len pre < 2 ^ 63 →
  read_at max_offset (len pre) seg files
  = Ok (Some key, value, match value with Some _ => false | None => true end).
Proof.
  intros Hfile Hrec Hmax H63. unfold read_at. rewrite Hfile.
  pose proof (len_nonneg pre).
  rewrite seek_in_range by lia. cbn [mbind result_bind]. cbv zeta.
  destruct (parse_record pre post key value rec Hrec) as (H9 & Hun & Hk & Hv).
  rewrite H9, Hun. cbn [Z.ltb Z.compare Pos.compare Pos.compare_cont mbind result_bind].
  rewrite Hk, decode_encode.
  destruct value as [v|]; cbn [Z.eqb negb].
  - now rewrite Hv, decode_encode.
  - reflexivity.
Qed.

Lemma iterate_loop_records (recs : list (string * option string * list byte)) :
  ∀ (fuel : nat) (pre : list byte),
    Forall (λ r, record_bytes r.1.1 r.1.2 = Ok r.2) recs →
    (length recs < fuel)%nat →
    iterate_loop fuel (pre ++ concat recs.*2) (len pre)
    = Ok (items_at (len pre) recs).
Proof.
  induction recs as [|[[key value] rec] rest IH]; intros fuel pre Hrecs Hfuel.
  - destruct fuel as [|fuel]; [cbn in Hfuel; lia|].
    cbn [iterate_loop fmap list_fmap concat items_at]. cbv zeta.
    rewrite read_bytes_end by (rewrite app_nil_r; lia).
    reflexivity.
  - destruct fuel as [|fuel]; [cbn in Hfuel; lia|].
    apply Forall_cons in Hrecs as [Hrec Hrest]. cbn [fst snd] in Hrec.
    cbn [iterate_loop fmap list_fmap concat items_at snd]. cbv zeta.
    destruct (parse_record pre (concat rest.*2) key value rec Hrec)
      as (H9 & Hun & Hk & Hv).
    rewrite H9, Hun.
    cbn [Z.ltb Z.compare Pos.compare Pos.compare_cont mbind result_bind].
    rewrite Hk, decode_encode.
    pose proof (record_bytes_len key value rec Hrec) as Hlen.
    specialize (IH fuel (pre ++ rec) Hrest ltac:(cbn in Hfuel; lia)).
    rewrite <- app_assoc, len_app in IH.
    destruct value as [v|]; cbn [Z.eqb negb].
    + rewrite Hv, decode_encode.
      replace (len pre + 9 + len (encode key) + len (encode v))
        with (len pre + len rec) by lia.
      rewrite IH. reflexivity.
    + replace (len pre + 9 + len (encode key)) with (len pre + len rec)
        by (change (len (@nil byte)) with 0 in Hlen; lia).
      rewrite IH. reflexivity.
Qed.

Lemma iterate_records (seg : LogSegment) (files : Files)
  (recs : list (string * option string * list byte)) :
  files !! path seg = Some (concat recs.*2) →
  Forall (λ r, record_bytes r.1.1 r.1.2 = Ok r.2) recs →
  iterate seg files = Ok (items_at 0 recs).
Proof.
  intros Hfile Hrecs. unfold iterate. rewrite Hfile.
  apply (iterate_loop_records recs _ [] Hrecs).
  assert (Hlen : ∀ rs : list (string * option string * list byte),
             Forall (λ r, record_bytes r.1.1 r.1.2 = Ok r.2) rs →
             (length rs ≤ length (concat rs.*2))%nat).
  { induction rs as [|[[k v] r] rs IH]; intros Hrs; [cbn; lia|].
    apply Forall_cons in Hrs as [Hr Hrs]. cbn [fst snd] in Hr.
    apply record_bytes_len in Hr.
    pose proof (len_nonneg (encode k)).
    pose proof (len_nonneg (match v with Some v0 => encode v0 | None => [] end)).
    cbn [fmap list_fmap concat snd length]. rewrite length_app.
    specialize (IH Hrs). unfold len in Hr at 1. lia. }
  specialize (Hlen recs Hrecs). lia.
Qed.

End RecordFacts.

(** ** Log store: [put] and the reading of single records *)

Section StoreFacts.

Import Storage Claims.

Lemma put_active (st : LogStore) (a : Ref) (seg : LogSegment) (key : string)
  (value : option string) (rec : list byte) :
  active_segment st = Some a → heap st !! a = Some seg → is_full seg = false →
  record_bytes key value = Ok rec →
  put key value st
  = Ok (mkLogStore (<[path seg := default [] (fs st !! path seg) ++ rec]> (fs st))
          (<[a := mkSegment (path seg) (segment_id seg) (size seg + len rec)]>
             (heap st))
          (segments st) (Some a),
        (segment_id seg, size seg)).
Proof.
  intros Ha Hseg Hfull Hrec. unfold put. rewrite Ha.
  rewrite (list_lookup_total_correct _ _ _ Hseg), Hfull. cbv beta iota zeta.
  rewrite Ha, (list_lookup_total_correct _ _ _ Hseg).
  unfold segment_append. rewrite Hrec. reflexivity.
Qed.

Lemma put_rollover (st : LogStore) (a : Ref) (seg : LogSegment) (key : string)
  (value : option string) (rec : list byte) :
  active_segment st = Some a → heap st !! a = Some seg → is_full seg = true →
  record_bytes key value = Ok rec →
  let n := len (segments st) in
  let new := segment_new (fs st) (segment_path n) n in
  put key value st
  = Ok (mkLogStore (<[path new := default [] (fs st !! path new) ++ rec]> (fs st))
          (<[length (heap st) := mkSegment (path new) n (size new + len rec)]>
             (heap st ++ [new]))
          (segments st ++ [length (heap st)]) (Some (length (heap st))),
        (n, size new)).
Proof.
  intros Ha Hseg Hfull Hrec n new. unfold put. rewrite Ha.
  rewrite (list_lookup_total_correct _ _ _ Hseg), Hfull. cbv beta iota zeta.
  unfold _create_new_segment. cbn [active_segment heap fs segments].
  rewrite list_lookup_total_middle by reflexivity.
  unfold segment_append. rewrite Hrec. reflexivity.
Qed.

Lemma segment_append_ok (key : string) (value : option string)
  (seg : LogSegment) (files : Files) (rec : list byte) :
  record_bytes key value = Ok rec →
  segment_append key value seg files
  = Ok (mkSegment (path seg) (segment_id seg) (size seg + len rec),
        <[path seg := default [] (files !! path seg) ++ rec]> files,
        size seg).
Proof. intros H. unfold segment_append. now rewrite H. Qed.

Lemma read_at_single (max_offset : N) (seg : LogSegment) (files : Files)
  (key : string) (value : option string) (rec : list byte) :
  files !! path seg = Some rec → record_bytes key value = Ok rec →
  read_at max_offset 0 seg files
  = Ok (Some key, value, match value with Some _ => false | None => true end).
Proof.
  intros Hfile Hrec.
  apply (read_at_record max_offset seg files [] [] key value rec);
    [|exact Hrec|unfold len; cbn; lia..].
  cbn. now rewrite app_nil_r.
Qed.

Lemma len_encode_replicate (n : nat) (c : ascii) :
  len (encode (string_of_list_ascii (replicate n c))) = Z.of_nat n.
Proof.
  unfold len, encode, list_byte_of_string.
  rewrite list_ascii_of_string_of_list_ascii, length_map, length_replicate.
  reflexivity.
Qed.

Lemma len_encode_big_value : len (encode big_value) = SEGMENT_MAX_SIZE.
Proof.
  unfold big_value. rewrite len_encode_replicate. apply Z2Nat.id. discriminate.
Qed.

Lemma iterate_single (seg : LogSegment) (files : Files) (key : string)
  (value : option string) (rec : list byte) :
  files !! path seg = Some rec → record_bytes key value = Ok rec →
  iterate seg files
  = Ok [(0, key, value, match value with Some _ => false | None => true end)].
Proof.
  intros Hfile Hrec.
  apply (iterate_records seg files [(key, value, rec)]).
  - cbn. now rewrite app_nil_r.
  - now repeat constructor.
Qed.

End StoreFacts.

(** ** SSTable index *)

Section SSTableFacts.

Import Index Claims.

(** C7 fails on the code: in a table built from [{"a": "1", "b": "2"}] the
    key ["a"], which is the key of the first sparse entry, is not found.
    [bisect_right] with the 1-tuple [(key,)] returns the position of the
    entry of the key itself, so [idx] is the entry before it and
    [end_offset] is the offset of the record looked for: the scan stops
    in front of it. Keys that are no sparse entries are found. *)
Theorem sstable_get_misses_sparse_key :
  ∃ t, build_from_records two_records 100 (sstable_init None None) = Ok t
       ∧ sparse_index t = [("a"%string, 0)]
       ∧ two_records !! "a"%string = Some "1"%string
       ∧ sstable_get "a" t = Ok None
       ∧ sstable_get "b" t = Ok (Some "2"%string)
       ∧ sstable_get "c" t = Ok None.
Proof.
  eexists. split; [vm_compute; reflexivity|].
  repeat split; vm_compute; reflexivity.
Qed.

End SSTableFacts.

(** ** MVCC store: snapshot reads *)

Section MVCCFacts.

Import MVCC.

#[local] Instance ts_le_trans : Transitive ts_le.
Proof. intros x y z. unfold ts_le. lia. Qed.

Lemma versions_of_touch (key k : string) (d : gmap string MVCCRecord) :
  versions_of (touch key d).1 k = versions_of d k
  ∧ versions (touch key d).2 = versions_of d key.
Proof.
  unfold touch, versions_of.
  destruct (d !! key) as [r|] eqn:Hk; cbn.
  - split; reflexivity.
  - split; [|reflexivity].
    destruct (decide (key = k)) as [->|Hne].
    + now rewrite lookup_insert_eq, Hk.
    + now rewrite lookup_insert_ne.
Qed.

Lemma versions_of_insert (key k : string) (r : MVCCRecord)
  (d : gmap string MVCCRecord) :
  versions_of (<[key := r]> d) k =
    if decide (key = k) then versions r else versions_of d k.
Proof.
  unfold versions_of. destruct (decide (key = k)) as [->|Hne].
  - now rewrite lookup_insert_eq.
  - now rewrite lookup_insert_ne.
Qed.

Lemma versions_of_commit_key (t c : Z) (key k : string) (p : Pending)
  (d : gmap string MVCCRecord) :
  versions_of (commit_key t c key p d) k =
    if decide (key = k)
    then versions_of d k ++ [mkVersion (p_value p) t c (p_deleted p)]
    else versions_of d k.
Proof.
  unfold commit_key.
  pose proof (versions_of_touch key k d) as [H1 H2].
  destruct (touch key d) as [d' r]. cbn in H1, H2.
  rewrite versions_of_insert. destruct (decide (key = k)) as [->|Hne]; cbn.
  - now rewrite H2.
  - exact H1.
Qed.

Lemma versions_of_abort_key (t : Z) (key k : string) (p : Pending)
  (d : gmap string MVCCRecord) :
  versions_of (abort_key t key p d) k = versions_of d k.
Proof.
  unfold abort_key.
  pose proof (versions_of_touch key k d) as [H1 H2].
  destruct (touch key d) as [d' r]. cbn in H1, H2.
  destruct (bool_decide _); [|exact H1].
  rewrite versions_of_insert. destruct (decide (key = k)) as [->|Hne]; cbn.
  - exact H2.
  - exact H1.
Qed.

Lemma versions_of_commit (t c : Z) (ws : gmap string Pending)
  (d : gmap string MVCCRecord) (k : string) :
  versions_of (map_fold (commit_key t c) d ws) k =
    match ws !! k with
    | Some p => versions_of d k ++ [mkVersion (p_value p) t c (p_deleted p)]
    | None => versions_of d k
    end.
Proof.
  revert k.
  apply (map_fold_weak_ind
           (λ r m, ∀ k, versions_of r k =
                        match m !! k with
                        | Some p => versions_of d k
                                    ++ [mkVersion (p_value p) t c (p_deleted p)]
                        | None => versions_of d k
                        end)).
  - intros k. now rewrite lookup_empty.
  - intros i x m r Hi IH k. rewrite versions_of_commit_key.
    destruct (decide (i = k)) as [->|Hne].
    + rewrite lookup_insert_eq, IH, Hi. reflexivity.
    + rewrite lookup_insert_ne by assumption. apply IH.
Qed.

Lemma versions_of_abort (t : Z) (ws : gmap string Pending)
  (d : gmap string MVCCRecord) (k : string) :
  versions_of (map_fold (abort_key t) d ws) k = versions_of d k.
Proof.
  revert k.
  apply (map_fold_weak_ind (λ r (m : gmap string Pending),
                              ∀ k, versions_of r k = versions_of d k)).
  - reflexivity.
  - intros i x m r _ IH k. now rewrite versions_of_abort_key.
Qed.

(** The versions [gc_record] keeps are a part of the old ones, in their
    order. *)
Lemma gc_record_sublist (committed : gmap Z Z) (before_ts : Z) (r : MVCCRecord) :
  versions (gc_record committed before_ts r) `sublist_of` versions r.
Proof.
  unfold gc_record.
  set (keep := fun version : Version => _).
  destruct (_ <? _)%nat; [|reflexivity].
  destruct (List.filter keep (versions r)) as [|v0 vs0] eqn:Hf; cbn.
  - apply sublist_drop.
  - rewrite <- Hf. clear Hf. induction (versions r) as [|v vs IH]; cbn.
    + constructor.
    + destruct (keep v); [now constructor|now apply sublist_cons].
Qed.

Lemma versions_of_gc (committed : gmap Z Z) (before_ts : Z)
  (d : gmap string MVCCRecord) (k : string) :
  versions_of (gc_record committed before_ts <$> d) k `sublist_of` versions_of d k.
Proof.
  unfold versions_of. rewrite lookup_fmap.
  destruct (d !! k) as [r|]; cbn; [apply gc_record_sublist|reflexivity].
Qed.

Lemma StronglySorted_sublist_of (l k : list Version) :
  l `sublist_of` k → StronglySorted ts_le k → StronglySorted ts_le l.
Proof.
  induction 1 as [|x l k Hs IH|x l k Hs IH]; intros Hk.
  - constructor.
  - apply StronglySorted_cons in Hk as [Hall Hk].
    apply StronglySorted_cons. split; [|now apply IH].
    rewrite Forall_forall in *. intros y Hy. apply Hall.
    eapply elem_of_sublist; eassumption.
  - apply StronglySorted_cons in Hk as [_ Hk]. now apply IH.
Qed.

Lemma invariant_later (st : MVCCStore) (tmax tmax' : Z) :
  tmax ≤ tmax' → invariant st tmax → invariant st tmax'.
Proof.
  intros Hle [H1 H2 H3 H4]. split; try assumption.
  intros t c Hc. destruct (H3 t c Hc). split; lia.
Qed.

Lemma invariant_init (tmax : Z) : invariant init tmax.
Proof.
  split; cbn.
  - intros key. unfold versions_of. rewrite lookup_empty. constructor.
  - intros key v. unfold versions_of. rewrite lookup_empty. cbn. inversion 1.
  - intros t c. rewrite lookup_empty. discriminate.
  - intros t info. rewrite lookup_empty. discriminate.
Qed.

Lemma invariant_begin (now : Z) (st : MVCCStore) (tmax : Z) :
  invariant st tmax → invariant (begin_transaction now st).1 tmax.
Proof.
  intros [H1 H2 H3 H4]. split; cbn; try assumption.
  - intros t c Hc. destruct (H3 t c Hc). split; lia.
  - intros t info Hl. destruct (decide (next_txn_id st = t)) as [<-|Hne].
    + split; [lia|]. destruct (committed_txns st !! next_txn_id st) as [c|] eqn:Hc;
        [|reflexivity].
      destruct (H3 _ _ Hc). lia.
    + rewrite lookup_insert_ne in Hl by assumption.
      destruct (H4 t info Hl). split; [lia|assumption].
Qed.

Lemma invariant_read (t : Z) (key : string) (st : MVCCStore) (tmax : Z) :
  invariant st tmax → invariant (read t key st).1 tmax.
Proof.
  intros Hinv. unfold read.
  destruct (active_txns st !! t) as [info|] eqn:Ht; [|exact Hinv].
  destruct (write_set info !! key); [exact Hinv|]. cbn.
  destruct Hinv as [H1 H2 H3 H4]. split; cbn; try assumption.
  intros t' info' Hl. destruct (decide (t = t')) as [<-|Hne].
  - exact (H4 t info Ht).
  - rewrite lookup_insert_ne in Hl by assumption. exact (H4 t' info' Hl).
Qed.

Lemma invariant_data (st st' : MVCCStore) (tmax : Z) :
  (∀ k, versions_of (data st') k = versions_of (data st) k) →
  next_txn_id st' = next_txn_id st →
  committed_txns st' = committed_txns st →
  (∀ t info, active_txns st' !! t = Some info → is_Some (active_txns st !! t)) →
  invariant st tmax → invariant st' tmax.
Proof.
  intros Hv Hn Hc Ha [H1 H2 H3 H4]. split.
  - intros key. rewrite Hv. apply H1.
  - intros key v. rewrite Hv, Hc. apply H2.
  - intros t c. rewrite Hc, Hn. apply H3.
  - intros t info Hl. rewrite Hc, Hn. destruct (Ha t info Hl) as [info' Hl'].
    exact (H4 t info' Hl').
Qed.

Lemma invariant_write_pending (t : Z) (key : string) (p : Pending)
  (st : MVCCStore) (tmax : Z) :
  invariant st tmax → invariant (write_pending t key p st).1 tmax.
Proof.
  intros Hinv. unfold write_pending.
  destruct (active_txns st !! t) as [info|] eqn:Ht; [|exact Hinv].
  pose proof (λ k, versions_of_touch key k (data st)) as Htouch.
  destruct (touch key (data st)) as [d r]. cbn in Htouch.
  assert (Hins : ∀ k lh lm, versions_of (<[key := mkRecord (versions r) lh lm]> d) k
                            = versions_of (data st) k).
  { intros k lh lm. rewrite versions_of_insert.
    destruct (decide (key = k)) as [<-|Hne]; cbn; [apply (Htouch key)|apply (Htouch k)]. }
  assert (Hact : ∀ (info' : TxnInfo) t' i,
             <[t := info']> (active_txns st) !! t' = Some i →
             is_Some (active_txns st !! t')).
  { intros info' t' i Hl. destruct (decide (t = t')) as [<-|Hne].
    - eauto.
    - rewrite lookup_insert_ne in Hl by assumption. eauto. }
  cbv zeta. destruct (match lock_holder r with Some _ => _ | None => _ end); cbn.
  - eapply invariant_data; [| | | |exact Hinv]; cbn;
      [intros k; apply Htouch|reflexivity|reflexivity|eauto].
  - eapply invariant_data; [| | | |exact Hinv]; cbn;
      [intros k; apply Hins|reflexivity|reflexivity|apply Hact].
Qed.

Lemma invariant_commit (now t : Z) (st : MVCCStore) (tmax : Z) :
  tmax ≤ now → invariant st tmax → invariant (commit now t st).1 now.
Proof.
  intros Hle Hinv. unfold commit.
  destruct (active_txns st !! t) as [info|] eqn:Ht;
    [|now apply (invariant_later st tmax)].
  destruct Hinv as [H1 H2 H3 H4]. destruct (H4 t info Ht) as [Hnext Hnc].
  split; cbn.
  - intros key. rewrite versions_of_commit.
    destruct (write_set info !! key) as [p|]; [|apply H1].
    apply StronglySorted_app. split; [|split; [apply H1|repeat constructor]].
    intros v w Hv Hw. apply list_elem_of_singleton in Hw as ->.
    unfold ts_le. cbn. pose proof (H2 key v Hv) as Hc.
    destruct (H3 _ _ Hc). lia.
  - intros key v. rewrite versions_of_commit. intros Hv.
    assert (Hold : v ∈ versions_of (data st) key →
                   <[t:=now]> (committed_txns st) !! txn_id v = Some (timestamp v)).
    { intros Hin. pose proof (H2 key v Hin) as Hc.
      rewrite lookup_insert_ne; [exact Hc|]. intros Heq. rewrite <- Heq, Hnc in Hc.
      discriminate. }
    destruct (write_set info !! key) as [p|]; [|now apply Hold].
    apply elem_of_app in Hv as [Hv|Hv]; [now apply Hold|].
    apply list_elem_of_singleton in Hv as ->. cbn. now rewrite lookup_insert_eq.
  - intros t' c Hc. destruct (decide (t = t')) as [<-|Hne].
    + rewrite lookup_insert_eq in Hc. injection Hc as <-. split; [lia|exact Hnext].
    + rewrite lookup_insert_ne in Hc by assumption. destruct (H3 t' c Hc).
      split; lia.
  - intros t' info' Hl. destruct (decide (t = t')) as [<-|Hne].
    + rewrite lookup_delete_eq in Hl. discriminate.
    + rewrite lookup_delete_ne in Hl by assumption.
      rewrite lookup_insert_ne by assumption. exact (H4 t' info' Hl).
Qed.

Lemma invariant_abort (t : Z) (st : MVCCStore) (tmax : Z) :
  invariant st tmax → invariant (abort t st).1 tmax.
Proof.
  intros Hinv. unfold abort.
  destruct (active_txns st !! t) as [info|] eqn:Ht; [|exact Hinv]. cbn.
  eapply invariant_data; [| | | |exact Hinv]; cbn; try reflexivity.
  - intros k. apply versions_of_abort.
  - intros t' i Hl. destruct (decide (t = t')) as [<-|Hne].
    + rewrite lookup_delete_eq in Hl. discriminate.
    + rewrite lookup_delete_ne in Hl by assumption. eauto.
Qed.

Lemma invariant_gc (before_ts : Z) (st : MVCCStore) (tmax : Z) :
  invariant st tmax → invariant (gc_old_versions before_ts st) tmax.
Proof.
  intros [H1 H2 H3 H4]. split; cbn; try assumption.
  - intros key. eapply StronglySorted_sublist_of; [apply versions_of_gc|apply H1].
  - intros key v Hv. apply (H2 key).
    eapply elem_of_sublist; [exact Hv|apply versions_of_gc].
Qed.

Lemma invariant_step (o : op) (st : MVCCStore) (tmax : Z) :
  (∀ now, clock_of o = Some now → tmax ≤ now) →
  invariant st tmax → invariant (step o st) (default tmax (clock_of o)).
Proof.
  intros Hclock Hinv. destruct o; cbn.
  - apply invariant_begin. apply (invariant_later st tmax); [|assumption].
    now apply Hclock.
  - now apply invariant_read.
  - now apply invariant_write_pending.
  - now apply invariant_write_pending.
  - apply (invariant_commit _ _ _ tmax); [|assumption]. now apply Hclock.
  - now apply invariant_abort.
  - now apply invariant_gc.
Qed.

Lemma invariant_run (ops : list op) :
  ∀ st tmax, invariant st tmax →
             Forall (Z.le tmax) (readings ops) →
             StronglySorted Z.le (readings ops) →
             ∃ tmax', invariant (run ops st) tmax'.
Proof.
  induction ops as [|o rest IH]; intros st tmax Hinv Hall Hs.
  - exists tmax. exact Hinv.
  - change (run (o :: rest) st) with (run rest (step o st)).
    unfold readings in Hall, Hs. cbn [omap list_omap] in Hall, Hs.
    fold (readings rest) in Hall, Hs.
    destruct (clock_of o) as [now|] eqn:Ho.
    + apply Forall_cons in Hall as [Hnow Hall].
      apply StronglySorted_cons in Hs as [Hrest Hs].
      apply (IH (step o st) now); [| exact Hrest | exact Hs].
      pose proof (invariant_step o st tmax) as Hstep. rewrite Ho in Hstep.
      apply Hstep; [|exact Hinv]. intros n Hn. injection Hn as <-. exact Hnow.
    + apply (IH (step o st) tmax); [| exact Hall | exact Hs].
      pose proof (invariant_step o st tmax) as Hstep. rewrite Ho in Hstep.
      apply Hstep; [|exact Hinv]. discriminate.
Qed.

(** In every state a client can reach with a clock that does not run
    backwards, the invariant holds. *)
Lemma invariant_reachable (ops : list op) :
  clock_monotone ops → ∃ tmax, invariant (run ops init) tmax.
Proof.
  intros Hmono. apply Sorted_StronglySorted in Hmono; [|apply _].
  destruct (readings ops) as [|r rs] eqn:Hr.
  - apply (invariant_run ops init 0 (invariant_init 0)); rewrite Hr; constructor.
  - apply (invariant_run ops init r (invariant_init r)); rewrite Hr; [|exact Hmono].
    apply StronglySorted_cons in Hmono as [Hall _].
    constructor; [lia|exact Hall].
Qed.

(** The loop of [_get_visible_version] on versions in the order of their
    commit timestamps, none of them written by the reader. *)
Lemma visible_loop_sorted (committed : gmap Z Z) (t s : Z) (vs : list Version) :
  StronglySorted ts_le vs →
  (∀ v, v ∈ vs → committed !! txn_id v = Some (timestamp v) ∧ txn_id v ≠ t) →
  (∃ v, v ∈ vs ∧ timestamp v ≤ s
        ∧ (∀ v', v' ∈ vs → timestamp v' ≤ s → timestamp v' ≤ timestamp v)
        ∧ visible_loop committed t s (reverse vs) = version_value v)
  ∨ ((∀ v, v ∈ vs → ¬ timestamp v ≤ s)
     ∧ visible_loop committed t s (reverse vs) = VNone).
Proof.
  induction vs as [|v vs IH] using rev_ind; intros Hs Hc.
  - right. split; [|reflexivity]. intros v Hv. inversion Hv.
  - rewrite reverse_snoc. cbn [visible_loop].
    apply StronglySorted_app in Hs as (Hlast & Hs & _).
    destruct (Hc v) as [Hcv Hne]; [apply elem_of_app; right; now left|].
    destruct (Z.eqb_spec (txn_id v) t) as [Heq|_]; [contradiction|].
    rewrite Hcv.
    destruct (Z.leb_spec (timestamp v) s) as [Hle|Hgt].
    + left. exists v. split; [apply elem_of_app; right; now left|].
      split; [exact Hle|]. split; [|reflexivity].
      intros v' Hv' _. apply elem_of_app in Hv' as [Hv'|Hv'].
      * apply (Hlast v' v Hv'). now left.
      * apply list_elem_of_singleton in Hv' as ->. lia.
    + destruct IH as [(w & Hw & Hws & Hmax & Hr)|[Hnone Hr]].
      * exact Hs.
      * intros v' Hv'. apply Hc. apply elem_of_app. now left.
      * left. exists w. split; [apply elem_of_app; now left|].
        split; [exact Hws|]. split; [|exact Hr].
        intros v' Hv' Hle'. apply elem_of_app in Hv' as [Hv'|Hv'].
        -- now apply Hmax.
        -- apply list_elem_of_singleton in Hv' as ->. lia.
      * right. split; [|exact Hr].
        intros v' Hv'. apply elem_of_app in Hv' as [Hv'|Hv'].
        -- now apply Hnone.
        -- apply list_elem_of_singleton in Hv' as ->. lia.
Qed.

Lemma committed_version_of (st : MVCCStore) (key : string) (v : Version) (c : Z) :
  committed_version st key v c ↔
  v ∈ versions_of (data st) key ∧ committed_txns st !! txn_id v = Some c.
Proof.
  unfold committed_version, versions_of. split.
  - intros [(r & Hr & Hv) Hc]. rewrite Hr. auto.
  - intros [Hv Hc]. split; [|exact Hc].
    destruct (data st !! key) as [r|]; [eauto|]. cbn in Hv. inversion Hv.
Qed.

(** C4, as the specification words it, fails when the clock steps back
    between two commits: the versions of a key are kept in the order of the
    commits, and a read returns the newest of them in that order that its
    snapshot may see. After [back_ops] the record of ["x"] holds a version
    with the value 1 committed at 10 and, behind it, a version with the
    value 2 committed at 5; transaction 3, begun at 20, has nothing pending
    for ["x"] and reads 2, though the committed version with the largest
    commit timestamp not above 20 is the one of value 1. *)
Lemma read_after_clock_step_back :
  let st := run Claims.back_ops init in
  active_txns st !! 3 = Some (mkTxnInfo 20 ∅ ∅ "active")
  ∧ (read 3 "x" st).2 = (VInt 2, None)
  ∧ committed_version st "x" (mkVersion (VInt 1) 1 10 false) 10
  ∧ committed_version st "x" (mkVersion (VInt 2) 2 5 false) 5
  ∧ ¬ snapshot_shows st "x" 20 (VInt 2)
  ∧ ¬ clock_monotone Claims.back_ops.
Proof.
  intros st.
  assert (Hdata : data st !! "x"%string
                  = Some (mkRecord [mkVersion (VInt 1) 1 10 false;
                                    mkVersion (VInt 2) 2 5 false] None None))
    by (vm_compute; reflexivity).
  assert (Hc1 : committed_txns st !! 1 = Some 10) by (vm_compute; reflexivity).
  assert (Hc2 : committed_txns st !! 2 = Some 5) by (vm_compute; reflexivity).
  assert (H1 : committed_version st "x" (mkVersion (VInt 1) 1 10 false) 10).
  { split; [|exact Hc1]. eexists. split; [exact Hdata|]. cbn. left. }
  assert (H2 : committed_version st "x" (mkVersion (VInt 2) 2 5 false) 5).
  { split; [|exact Hc2]. eexists. split; [exact Hdata|]. cbn. right. left. }
  split; [vm_compute; reflexivity|]. split; [vm_compute; reflexivity|].
  split; [exact H1|]. split; [exact H2|]. split.
  - intros [(v & c & Hv & Hle & Hmax & Hr)|[_ Hr]]; [|discriminate Hr].
    assert (H10 : 10 ≤ 20) by lia. specialize (Hmax _ _ H1 H10).
    destruct Hv as [(record & Hrec & Hin) Hc]. rewrite Hdata in Hrec.
    injection Hrec as <-. cbn [versions] in Hin.
    apply elem_of_cons in Hin as [->|Hin]; [discriminate Hr|].
    apply elem_of_cons in Hin as [->|Hin]; [|now apply elem_of_nil in Hin].
    cbn [txn_id] in Hc. rewrite Hc2 in Hc. injection Hc as <-. lia.
  - unfold clock_monotone, readings. cbn. intros Hs.
    apply Sorted_StronglySorted in Hs; [|apply _].
    apply StronglySorted_inv in Hs as [Hs _].
    apply StronglySorted_inv in Hs as [_ Hall].
    apply Forall_inv_tail, Forall_inv in Hall. lia.
Qed.

(** C4, amended by the condition on the clock: in every state that a
    sequence of calls reaches from the empty store with a clock that does
    not run backwards, a read by an active
    transaction returns its own pending value for a key of its write set
    ([None] for a pending deletion) and otherwise what its snapshot shows:
    the value of a committed version with the largest commit timestamp not
    above its [start_ts], [None] when that is a deletion marker or there is
    no such version. *)
Theorem read_snapshot (ops : list op) (t : Z) (key : string) (info : TxnInfo) :
  clock_monotone ops →
  active_txns (run ops init) !! t = Some info →
  match write_set info !! key with
  | Some pending =>
      (read t key (run ops init)).2 = (pending_value pending, None)
  | None =>
      ∃ r, (read t key (run ops init)).2 = (r, None)
           ∧ snapshot_shows (run ops init) key (start_ts info) r
  end.
Proof.
  intros Hmono Ht. destruct (invariant_reachable ops Hmono) as [tmax Hinv].
  set (st := run ops init) in *.
  unfold read. rewrite Ht.
  destruct (write_set info !! key) as [p|] eqn:Hw; [reflexivity|].
  cbn. eexists. split; [reflexivity|].
  unfold _get_visible_version. cbn. rewrite lookup_insert_eq. cbn.
  destruct Hinv as [H1 H2 H3 H4]. destruct (H4 t info Ht) as [_ Hnc].
  assert (Hnone : versions_of (data st) key = [] →
                  snapshot_shows st key (start_ts info) VNone).
  { intros Hempty. right. split; [|reflexivity].
    intros v c Hv. apply committed_version_of in Hv as [Hv _].
    rewrite Hempty in Hv. inversion Hv. }
  pose proof (H1 key) as Hsorted. pose proof (H2 key) as Hcomm.
  assert (Hin : ∀ v c, committed_version st key v c →
                       v ∈ versions_of (data st) key ∧ c = timestamp v).
  { intros v c Hv. apply committed_version_of in Hv as [Hv Hc].
    split; [exact Hv|]. rewrite (H2 key v Hv) in Hc. now injection Hc. }
  assert (Hout : ∀ v, v ∈ versions_of (data st) key →
                      committed_version st key v (timestamp v)).
  { intros v Hv. apply committed_version_of. split; [exact Hv|exact (H2 key v Hv)]. }
  unfold versions_of in Hnone, Hsorted, Hcomm, Hin, Hout.
  destruct (data st !! key) as [record|]; [|now apply Hnone].
  cbn in Hnone, Hsorted, Hcomm, Hin, Hout.
  destruct (versions record) as [|v0 vs0] eqn:Hvs; [now apply Hnone|].
  rewrite <- Hvs in *. clear Hnone.
  destruct (visible_loop_sorted (committed_txns st) t (start_ts info)
              (versions record) Hsorted) as [(v & Hv & Hle & Hmax & Hr)|[Hno Hr]].
  - intros v Hv. split; [now apply Hcomm|].
    intros Heq. pose proof (Hcomm v Hv) as Hc. rewrite Heq, Hnc in Hc. discriminate.
  - rewrite Hr. left. exists v, (timestamp v).
    split; [now apply Hout|]. split; [exact Hle|]. split; [|reflexivity].
    intros v' c' Hv' Hle'. apply Hin in Hv' as [Hv' ->]. now apply Hmax.
  - rewrite Hr. right. split; [|reflexivity].
    intros v c Hv Hle. apply Hin in Hv as [Hv ->]. exact (Hno v Hv Hle).
Qed.

End MVCCFacts.

(** The theorem at a store where transaction 1 has written [5] to ["x"] and
    committed at time 2, and transaction 2, begun at time 3, has a pending
    write of [7] to ["y"]: transaction 2 reads its own [7] at ["y"] and the
    snapshot value at ["x"]. *)
Lemma read_snapshot_witness :
  let ops := [MVCC.Begin 1; MVCC.Write 1 "x" (VInt 5); MVCC.Commit 2 1;
              MVCC.Begin 3; MVCC.Write 2 "y" (VInt 7)]%string in
  (MVCC.read 2 "y" (MVCC.run ops MVCC.init)).2 = (VInt 7, None)
  ∧ ∃ r, (MVCC.read 2 "x" (MVCC.run ops MVCC.init)).2 = (r, None)
         ∧ MVCC.snapshot_shows (MVCC.run ops MVCC.init) "x" 3 r.
Proof.
  intros ops.
  assert (Hmono : MVCC.clock_monotone ops).
  { unfold MVCC.clock_monotone, MVCC.readings. cbn.
    repeat constructor; lia. }
  assert (Hactive : MVCC.active_txns (MVCC.run ops MVCC.init) !! 2 =
                    Some (MVCC.mkTxnInfo 3 ∅
                            (<["y"%string := MVCC.mkPending (VInt 7) false]> ∅)
                            "active")).
  { vm_compute. reflexivity. }
  split.
  - pose proof (read_snapshot ops 2 "y" _ Hmono Hactive) as H.
    cbn [MVCC.write_set] in H. rewrite lookup_insert_eq in H. exact H.
  - pose proof (read_snapshot ops 2 "x" _ Hmono Hactive) as H.
    cbn [MVCC.write_set MVCC.start_ts] in H.
    rewrite lookup_insert_ne, lookup_empty in H by discriminate. exact H.
Defined.

(** ** Serializable snapshot isolation: commit *)

Section SSIFacts.

Import SSI.

Lemma find_txn_lookup (st : SerializableSnapshotIsolation) (i : Z) :
  find_txn st i = transactions st !! i.
Proof.
  unfold find_txn. destruct (transactions st !! i) eqn:H; [reflexivity|].
  now destruct (decide _).
Qed.

Lemma committed_before_spec (t : SSITransaction) (s : Z) :
  (committed t = true → is_Some (commit_ts t)) →
  ∃ skip, committed_before t s = Ok skip
          ∧ (skip = false ∧ aborted t = false ↔ counted s t).
Proof.
  intros Hts. unfold committed_before, counted, live, committed_when.
  destruct (committed t) eqn:Hc.
  - destruct (Hts eq_refl) as [c Hcts]. rewrite Hcts.
    exists (c <? s). split; [reflexivity|].
    destruct (Z.ltb_spec c s); split.
    + intros [? _]. discriminate.
    + intros [[? _]|(_ & _ & c' & Hc' & Hle)]; [discriminate|].
      injection Hc' as <-. lia.
    + intros [_ Ha]. right. split; [reflexivity|]. split; [exact Ha|].
      exists c. split; [reflexivity|lia].
    + intros [[? _]|(_ & Ha & _)]; [discriminate|]. auto.
  - exists false. split; [reflexivity|]. split.
    + intros [_ Ha]. left. auto.
    + intros [[_ Ha]|[? _]]; [auto|discriminate].
Qed.

Lemma counted_not_aborted (s : Z) (t : SSITransaction) :
  counted s t → aborted t = false.
Proof. intros [[_ H]|(_ & H & _)]; exact H. Qed.

Lemma some_counted_nil (st : SerializableSnapshotIsolation) (s : Z) :
  ¬ some_counted st s [].
Proof. intros (o & to & Ho & _). inversion Ho. Qed.

Lemma some_counted_cons_some (st : SerializableSnapshotIsolation) (s : Z)
  (o : Z) (to : SSITransaction) (rest : list Z) :
  transactions st !! o = Some to →
  some_counted st s (o :: rest) ↔ counted s to ∨ some_counted st s rest.
Proof.
  intros Hto. unfold some_counted. split.
  - intros (o' & to' & Ho' & Hl & Hc). apply elem_of_cons in Ho' as [->|Ho'].
    + rewrite Hto in Hl. injection Hl as ->. now left.
    + right. eauto.
  - intros [Hc|(o' & to' & Ho' & Hl & Hc)].
    + exists o, to. split; [now left|auto].
    + exists o', to'. split; [now right|auto].
Qed.

Lemma some_counted_cons_none (st : SerializableSnapshotIsolation) (s : Z)
  (o : Z) (rest : list Z) :
  transactions st !! o = None →
  some_counted st s (o :: rest) ↔ some_counted st s rest.
Proof.
  intros Hto. unfold some_counted. split.
  - intros (o' & to' & Ho' & Hl & Hc). apply elem_of_cons in Ho' as [->|Ho'].
    + rewrite Hto in Hl. discriminate.
    + eauto.
  - intros (o' & to' & Ho' & Hl & Hc). exists o', to'. split; [now right|auto].
Qed.

Lemma out_loop_spec (st : SerializableSnapshotIsolation)
  (txn in_txn : SSITransaction) (outs : list Z) :
  (∀ i t, transactions st !! i = Some t → committed t = true →
          is_Some (commit_ts t)) →
  ∃ found, out_loop st txn in_txn outs = Ok found
           ∧ (found = true ↔
              aborted in_txn = false ∧ some_counted st (start_ts txn) outs).
Proof.
  intros Hts. induction outs as [|o rest IH]; cbn [out_loop].
  - exists false. split; [reflexivity|]. split; [discriminate|].
    intros [_ H]. now apply some_counted_nil in H.
  - destruct IH as (found & Hrun & Hfound). rewrite find_txn_lookup.
    destruct (transactions st !! o) as [to|] eqn:Hto.
    + destruct (committed_before_spec to (start_ts txn)) as (skip & Hskip & Hcount);
        [now apply (Hts o)|].
      rewrite Hskip. cbn. setoid_rewrite (some_counted_cons_some st _ o to rest Hto).
      destruct skip.
      * exists found. split; [exact Hrun|]. rewrite Hfound.
        split; [tauto|]. intros [Ha [Hc|Hr]]; [|tauto].
        apply Hcount in Hc as [? _]. discriminate.
      * destruct (aborted in_txn) eqn:Hai; cbn.
        -- exists found. split; [exact Hrun|]. rewrite Hfound.
           split; intros [? _]; discriminate.
        -- destruct (aborted to) eqn:Hao; cbn.
           ++ exists found. split; [exact Hrun|]. rewrite Hfound.
              split; [tauto|]. intros [Ha [Hc|Hr]]; [|tauto].
              apply counted_not_aborted in Hc. congruence.
           ++ exists true. split; [reflexivity|]. split; [|reflexivity].
              intros _. split; [reflexivity|]. left. apply Hcount. auto.
    + setoid_rewrite (some_counted_cons_none st _ o rest Hto). eauto.
Qed.

(** A list of incoming ids that holds a counted endpoint, with a counted
    endpoint among the outgoing ids. *)
Lemma in_loop_spec (st : SerializableSnapshotIsolation)
  (txn : SSITransaction) (ins : list Z) :
  (∀ i t, transactions st !! i = Some t → committed t = true →
          is_Some (commit_ts t)) →
  ∃ found, in_loop st txn ins = Ok found
           ∧ (found = true ↔
              some_counted st (start_ts txn) ins
              ∧ some_counted st (start_ts txn) (elements (out_conflict txn))).
Proof.
  intros Hts. induction ins as [|i rest IH]; cbn [in_loop].
  - exists false. split; [reflexivity|]. split; [discriminate|].
    intros [H _]. now apply some_counted_nil in H.
  - destruct IH as (found & Hrun & Hfound). rewrite find_txn_lookup.
    destruct (transactions st !! i) as [ti|] eqn:Hti.
    + destruct (committed_before_spec ti (start_ts txn)) as (skip & Hskip & Hcount);
        [now apply (Hts i)|].
      rewrite Hskip. cbn. setoid_rewrite (some_counted_cons_some st _ i ti rest Hti).
      destruct skip.
      * exists found. split; [exact Hrun|]. rewrite Hfound.
        split; [tauto|]. intros [[Hc|Hr] Ho]; [|tauto].
        apply Hcount in Hc as [? _]. discriminate.
      * destruct (out_loop_spec st txn ti (elements (out_conflict txn)) Hts)
          as (fo & Hfo & Hout).
        rewrite Hfo. cbn. destruct fo.
        -- exists true. split; [reflexivity|]. split; [|reflexivity].
           intros _. destruct (proj1 Hout eq_refl) as [Ha Ho].
           split; [|exact Ho]. left. apply Hcount. auto.
        -- exists found. split; [exact Hrun|]. rewrite Hfound.
           split; [tauto|]. intros [[Hc|Hr] Ho]; [|tauto].
           pose proof (counted_not_aborted _ _ Hc) as Ha.
           assert (false = true) by (apply Hout; auto). discriminate.
    + setoid_rewrite (some_counted_cons_none st _ i rest Hti). eauto.
Qed.

Lemma dangerous_from_counted (st : SerializableSnapshotIsolation)
  (txn : SSITransaction) :
  dangerous_from st txn ↔
  some_counted st (start_ts txn) (elements (in_conflict txn))
  ∧ some_counted st (start_ts txn) (elements (out_conflict txn)).
Proof.
  unfold dangerous_from, pivot, some_counted, counted. split.
  - intros (i & o & ti & to & Hi & Ho & Hti & Hto & Hci & Hco). split.
    + exists i, ti. rewrite elem_of_elements. repeat split; assumption.
    + exists o, to. rewrite elem_of_elements. repeat split; assumption.
  - intros [(i & ti & Hi & Hti & Hci) (o & to & Ho & Hto & Hco)].
    rewrite elem_of_elements in Hi, Ho. exists i, o, ti, to.
    repeat split; assumption.
Qed.

(** [_has_dangerous_structure] returns, and it returns [True] exactly on
    the dangerous structures with endpoints live or committed at or after
    the start of the transaction. *)
Lemma has_dangerous_structure_spec (st : SerializableSnapshotIsolation)
  (txn : SSITransaction) :
  consistent st →
  ∃ found, _has_dangerous_structure txn st = Ok found
           ∧ (found = true ↔ dangerous_from st txn).
Proof.
  intros Hc. unfold _has_dangerous_structure.
  destruct (in_loop_spec st txn (elements (in_conflict txn)) (committed_ts st Hc))
    as (found & Hrun & Hfound).
  exists found. split; [exact Hrun|]. now rewrite dangerous_from_counted.
Qed.

Lemma release_siread_fold (t : Z) (sl : gmap string (gset Z)) (X : gset string)
  (key : string) :
  set_fold (release_siread t) sl X !! key =
    if decide (key ∈ X) then Some (default ∅ (sl !! key) ∖ {[t]}) else sl !! key.
Proof.
  revert key.
  set (P := λ (r : gmap string (gset Z)) (Y : gset string),
              ∀ key, r !! key =
                if decide (key ∈ Y) then Some (default ∅ (sl !! key) ∖ {[t]})
                else sl !! key).
  change (P (set_fold (release_siread t) sl X) X).
  apply set_fold_ind_L; unfold P.
  - intros key. destruct (decide (key ∈ ∅)) as [H|_]; [|reflexivity].
    now apply not_elem_of_empty in H.
  - intros x Y r Hx IH key. unfold release_siread.
    destruct (decide (x = key)) as [->|Hne].
    + rewrite lookup_insert_eq, IH.
      destruct (decide (key ∈ Y)); [contradiction|].
      destruct (decide (key ∈ {[key]} ∪ Y)) as [_|Hn]; [reflexivity|].
      exfalso. apply Hn. set_solver.
    + rewrite lookup_insert_ne by assumption. rewrite IH.
      destruct (decide (key ∈ Y)) as [Hy|Hy];
        destruct (decide (key ∈ {[x]} ∪ Y)) as [Hy'|Hy']; try reflexivity.
      * exfalso. apply Hy'. set_solver.
      * exfalso. apply Hy. set_solver.
Qed.

Lemma release_write_fold (t : Z) (wl : gmap string Z) (ws : gmap string Py.value)
  (key : string) :
  map_fold (release_write t) wl ws !! key =
    if decide (is_Some (ws !! key) ∧ wl !! key = Some t) then None else wl !! key.
Proof.
  revert key.
  set (P := λ (r : gmap string Z) (m : gmap string Py.value),
              ∀ key, r !! key =
                if decide (is_Some (m !! key) ∧ wl !! key = Some t) then None
                else wl !! key).
  change (P (map_fold (release_write t) wl ws) ws).
  apply map_fold_weak_ind; unfold P.
  - intros key. destruct (decide _) as [[[? H] _]|_]; [|reflexivity].
    rewrite lookup_empty in H. discriminate.
  - intros i x m r Hi IH key. unfold release_write.
    assert (Hri : r !! i = wl !! i).
    { rewrite IH. destruct (decide _) as [[[? H] _]|_]; [|reflexivity].
      rewrite Hi in H. discriminate. }
    destruct (decide (i = key)) as [->|Hne].
    + rewrite lookup_insert_eq.
      destruct (bool_decide_reflect (r !! key = Some t)) as [Hr|Hr].
      * rewrite lookup_delete_eq.
        destruct (decide _) as [_|Hn]; [reflexivity|].
        exfalso. apply Hn. split; [eauto|]. now rewrite <- Hri.
      * rewrite Hri in Hr |- *.
        destruct (decide _) as [[_ H]|_]; [contradiction|reflexivity].
    + rewrite lookup_insert_ne by assumption.
      destruct (bool_decide_reflect (r !! i = Some t)) as [Hr|Hr].
      * rewrite lookup_delete_ne by assumption. apply IH.
      * apply IH.
Qed.

Lemma cleanup_siread_sub (txn : SSITransaction) (st : SerializableSnapshotIsolation)
  (key : string) (holders : gset Z) (i : Z) :
  siread_locks (_cleanup_locks txn st) !! key = Some holders → i ∈ holders →
  ∃ holders0, siread_locks st !! key = Some holders0 ∧ i ∈ holders0
              ∧ (key ∈ read_set txn → i ≠ txn_id txn).
Proof.
  cbn. rewrite release_siread_fold.
  destruct (decide (key ∈ read_set txn)) as [Hk|Hk].
  - intros H Hi. injection H as <-.
    destruct (siread_locks st !! key) as [h0|]; cbn in Hi; [|set_solver].
    exists h0. split; [reflexivity|]. set_solver.
  - intros H Hi. exists holders. auto.
Qed.

Lemma cleanup_write_sub (txn : SSITransaction) (st : SerializableSnapshotIsolation)
  (key : string) (i : Z) :
  write_locks (_cleanup_locks txn st) !! key = Some i →
  write_locks st !! key = Some i
  ∧ (is_Some (write_set txn !! key) → i ≠ txn_id txn).
Proof.
  cbn. rewrite release_write_fold.
  destruct (decide _) as [H|H]; [discriminate|].
  intros Hl. split; [exact Hl|]. intros Hs ->. apply H. auto.
Qed.

Lemma cleanup_no_lock (txn : SSITransaction) (st : SerializableSnapshotIsolation) :
  (∀ key holders, siread_locks st !! key = Some holders →
                  txn_id txn ∈ holders → key ∈ read_set txn) →
  (∀ key, write_locks st !! key = Some (txn_id txn) →
          is_Some (write_set txn !! key)) →
  holds_no_lock (_cleanup_locks txn st) (txn_id txn).
Proof.
  intros Hr Hw. split.
  - intros key holders Hl Hin.
    destruct (cleanup_siread_sub _ _ _ _ _ Hl Hin) as (h0 & Hh0 & Hi0 & Hne).
    apply Hne; [|reflexivity]. eapply Hr; eassumption.
  - intros key Hl. apply cleanup_write_sub in Hl as [Hl Hne].
    apply Hne; [|reflexivity]. now apply Hw.
Qed.

Lemma usable_Some (st : SerializableSnapshotIsolation) (i : Z) (t : SSITransaction) :
  usable st i = Some t ↔
  transactions st !! i = Some t ∧ aborted t = false ∧ committed t = false.
Proof.
  unfold usable. destruct (transactions st !! i) as [t'|]; [|split; [discriminate|]].
  - destruct (aborted t') eqn:Ha; cbn.
    + split; [discriminate|]. intros (H & Ha' & _). injection H as ->. congruence.
    + destruct (committed t') eqn:Hc; cbn.
      * split; [discriminate|]. intros (H & _ & Hc'). injection H as ->. congruence.
      * split; [intros H; injection H as ->; auto|]. intros (H & _). exact H.
  - intros (H & _). discriminate.
Qed.

Lemma locks_of_holder (st : SerializableSnapshotIsolation) (txn : SSITransaction) :
  consistent st → transactions st !! txn_id txn = Some txn →
  (∀ key holders, siread_locks st !! key = Some holders →
                  txn_id txn ∈ holders → key ∈ read_set txn)
  ∧ (∀ key, write_locks st !! key = Some (txn_id txn) →
            is_Some (write_set txn !! key)).
Proof.
  intros Hc Ht. split.
  - intros key holders Hl Hin.
    destruct (siread_held st Hc key holders _ Hl Hin) as (t & Ht' & Hk).
    rewrite Ht in Ht'. now injection Ht' as <-.
  - intros key Hl. destruct (write_held st Hc key _ Hl) as (t & Ht' & Hk).
    rewrite Ht in Ht'. now injection Ht' as <-.
Qed.

Lemma abort_internal_spec (st : SerializableSnapshotIsolation)
  (txn : SSITransaction) :
  consistent st → transactions st !! txn_id txn = Some txn →
  aborted_in st (_abort_internal txn st) txn.
Proof.
  intros Hc Ht. destruct (locks_of_holder st txn Hc Ht) as [Hr Hw].
  unfold aborted_in. split; [|split; [|split]].
  - cbn. now rewrite lookup_alter_eq, Ht.
  - reflexivity.
  - cbn. unfold MVCC.abort.
    destruct (MVCC.active_txns (store st) !! txn_id txn) eqn:Ha; cbn.
    + apply lookup_delete_eq.
    + exact Ha.
  - unfold _abort_internal. apply cleanup_no_lock; cbn; assumption.
Qed.

(** What [commit] does on a transaction that can still be used, in a
    consistent state. *)
Lemma commit_consistent (now t : Z) (st : SerializableSnapshotIsolation)
  (txn : SSITransaction) :
  consistent st → usable st t = Some txn →
  (dangerous_from st txn
   ∧ commit now t st = Ok (_abort_internal txn st, (false, Some "serialization failure"%string))
   ∧ aborted_in st (_abort_internal txn st) txn)
  ∨ (¬ dangerous_from st txn
     ∧ ∃ st', commit now t st = Ok (st', (true, None))
              ∧ committed_in now st st' txn).
Proof.
  intros Hc Hu. pose proof Hu as Hu'. apply usable_Some in Hu' as (Ht & Ha & Hco).
  pose proof (own_id st Hc t txn Ht) as Hid. subst t.
  destruct (has_dangerous_structure_spec st txn Hc) as (found & Hrun & Hfound).
  unfold commit. rewrite Hu, Hrun. cbn.
  destruct found.
  - left. split; [now apply Hfound|]. split; [reflexivity|].
    now apply abort_internal_spec.
  - right. split; [intros Hd; apply Hfound in Hd; discriminate|].
    destruct (usable_active st Hc _ _ Hu) as [info Hinfo].
    unfold MVCC.commit. rewrite Hinfo. cbn.
    eexists. split; [reflexivity|].
    destruct (locks_of_holder st txn Hc Ht) as [Hr Hw].
    unfold committed_in. split; [|split; [|split; [|split]]].
    + cbn. unfold MVCC.commit. now rewrite Hinfo.
    + cbn. apply lookup_insert_eq.
    + cbn. now rewrite !lookup_alter_eq, Ht.
    + cbn. set_solver.
    + apply cleanup_no_lock; cbn; assumption.
Qed.

Lemma grown_refl (t : SSITransaction) : grown t t.
Proof. unfold grown. repeat split; auto. Qed.

Lemma grown_trans (t1 t2 t3 : SSITransaction) :
  grown t1 t2 → grown t2 t3 → grown t1 t3.
Proof.
  intros (A1 & A2 & A3 & A4 & A5 & A6) (B1 & B2 & B3 & B4 & B5 & B6).
  unfold grown. repeat split; try congruence; [set_solver|auto].
Qed.

Lemma all_grown_refl (ts : gmap Z SSITransaction) : all_grown ts ts.
Proof.
  intros i. destruct (ts !! i) as [t|] eqn:H; [|reflexivity].
  exists t. split; [reflexivity|apply grown_refl].
Qed.

Lemma all_grown_trans (ts1 ts2 ts3 : gmap Z SSITransaction) :
  all_grown ts1 ts2 → all_grown ts2 ts3 → all_grown ts1 ts3.
Proof.
  intros H12 H23 i. specialize (H12 i). specialize (H23 i).
  destruct (ts1 !! i) as [t1|].
  - destruct H12 as (t2 & Ht2 & Hg12). rewrite Ht2 in H23.
    destruct H23 as (t3 & Ht3 & Hg23). exists t3. split; [exact Ht3|].
    eapply grown_trans; eassumption.
  - now rewrite H12 in H23.
Qed.

Lemma all_grown_alter (f : SSITransaction → SSITransaction) (i : Z)
  (ts : gmap Z SSITransaction) :
  (∀ t, grown t (f t)) → all_grown ts (alter f i ts).
Proof.
  intros Hf j. destruct (decide (i = j)) as [->|Hne].
  - rewrite lookup_alter_eq. destruct (ts !! j) as [t|]; cbn; [|reflexivity].
    exists (f t). auto.
  - rewrite lookup_alter_ne by assumption.
    destruct (ts !! j) as [t|]; [|reflexivity].
    exists t. split; [reflexivity|apply grown_refl].
Qed.

Lemma all_grown_insert (i : Z) (t t' : SSITransaction)
  (ts : gmap Z SSITransaction) :
  ts !! i = Some t → grown t t' → all_grown ts (<[i := t']> ts).
Proof.
  intros Ht Hg j. destruct (decide (i = j)) as [->|Hne].
  - rewrite lookup_insert_eq, Ht. eauto.
  - rewrite lookup_insert_ne by assumption.
    destruct (ts !! j) as [tj|]; [|reflexivity].
    exists tj. split; [reflexivity|apply grown_refl].
Qed.

Lemma grown_add_in (i : Z) (t : SSITransaction) : grown t (add_in i t).
Proof. unfold grown. cbn. repeat split; auto. Qed.

Lemma grown_add_out (o : Z) (t : SSITransaction) : grown t (add_out o t).
Proof. unfold grown. cbn. repeat split; auto. Qed.

Lemma grown_add_read (key : string) (t : SSITransaction) : grown t (add_read key t).
Proof. unfold grown. cbn. repeat split; auto. set_solver. Qed.

Lemma grown_add_write (key : string) (v : Py.value) (t : SSITransaction) :
  grown t (add_write key v t).
Proof.
  unfold grown. cbn. repeat split; auto.
  intros k Hk. destruct (decide (key = k)) as [->|Hne].
  - rewrite lookup_insert_eq. eauto.
  - now rewrite lookup_insert_ne.
Qed.

Lemma all_grown_note_reader (t r : Z) (ts : gmap Z SSITransaction) :
  all_grown ts (note_reader t r ts).
Proof.
  unfold note_reader. destruct (ts !! r) as [rt|]; [|apply all_grown_refl].
  destruct (_ && _); [|apply all_grown_refl].
  eapply all_grown_trans; apply all_grown_alter;
    [apply grown_add_in|apply grown_add_out].
Qed.

Lemma all_grown_readers (t : Z) (ts : gmap Z SSITransaction) (X : gset Z) :
  all_grown ts (set_fold (note_reader t) ts X).
Proof.
  set (P := λ (r : gmap Z SSITransaction) (Y : gset Z), all_grown ts r).
  change (P (set_fold (note_reader t) ts X) X).
  apply set_fold_ind_L; unfold P.
  - apply all_grown_refl.
  - intros x Y r _ IH. eapply all_grown_trans; [exact IH|].
    apply all_grown_note_reader.
Qed.

Lemma mvcc_read_active (t : Z) (key : string) (s : MVCC.MVCCStore) (i : Z) :
  is_Some (MVCC.active_txns s !! i) →
  is_Some (MVCC.active_txns (MVCC.read t key s).1 !! i).
Proof.
  unfold MVCC.read. destruct (MVCC.active_txns s !! t) as [info|] eqn:Ht; [|auto].
  destruct (MVCC.write_set info !! key); [auto|]. cbn.
  intros Hi. rewrite lookup_insert_is_Some. destruct (decide (t = i)); auto.
Qed.

Lemma mvcc_write_active (t : Z) (key : string) (p : MVCC.Pending)
  (s : MVCC.MVCCStore) (i : Z) :
  is_Some (MVCC.active_txns s !! i) →
  is_Some (MVCC.active_txns (MVCC.write_pending t key p s).1 !! i).
Proof.
  unfold MVCC.write_pending.
  destruct (MVCC.active_txns s !! t) as [info|] eqn:Ht; [|auto].
  destruct (MVCC.touch key (MVCC.data s)) as [d r].
  intros Hi. cbv zeta.
  destruct (match MVCC.lock_holder r with Some _ => _ | None => _ end); cbn;
    try exact Hi; rewrite lookup_insert_is_Some; destruct (decide (t = i)); auto.
Qed.

(** A step that lets transactions grow, keeps the active transactions of the
    store and takes only locks that the read and write sets justify, keeps
    the state consistent. *)
Lemma consistent_grown (st st' : SerializableSnapshotIsolation) :
  consistent st →
  all_grown (transactions st) (transactions st') →
  next_txn_id st' = next_txn_id st →
  (∀ i, is_Some (MVCC.active_txns (store st) !! i) →
        is_Some (MVCC.active_txns (store st') !! i)) →
  (∀ key holders i, siread_locks st' !! key = Some holders → i ∈ holders →
     (∃ h0, siread_locks st !! key = Some h0 ∧ i ∈ h0)
     ∨ (∃ t', transactions st' !! i = Some t' ∧ key ∈ read_set t')) →
  (∀ key i, write_locks st' !! key = Some i →
     write_locks st !! key = Some i
     ∨ (∃ t', transactions st' !! i = Some t' ∧ is_Some (write_set t' !! key))) →
  consistent st'.
Proof.
  intros Hc Hg Hn Ha Hsl Hwl.
  assert (Hback : ∀ i t', transactions st' !! i = Some t' →
                          ∃ t, transactions st !! i = Some t ∧ grown t t').
  { intros i t' Ht'. specialize (Hg i).
    destruct (transactions st !! i) as [t|]; [|congruence].
    destruct Hg as (t'' & Ht'' & Hgr). exists t. split; [reflexivity|congruence]. }
  assert (Hfwd : ∀ i t, transactions st !! i = Some t →
                        ∃ t', transactions st' !! i = Some t' ∧ grown t t').
  { intros i t Ht. specialize (Hg i). now rewrite Ht in Hg. }
  split.
  - intros i t' Ht'. destruct (Hback i t' Ht') as (t & Ht & Hgr).
    destruct Hgr as (-> & _). exact (own_id st Hc i t Ht).
  - intros i t' Ht'. destruct (Hback i t' Ht') as (t & Ht & _).
    rewrite Hn. exact (known_below st Hc i t Ht).
  - intros i t' Hu. apply usable_Some in Hu as (Ht' & Hab & Hco).
    destruct (Hback i t' Ht') as (t & Ht & Hgr).
    destruct Hgr as (_ & _ & Hc' & Ha' & _).
    apply Ha. apply (usable_active st Hc i t). apply usable_Some.
    split; [exact Ht|]. split; congruence.
  - intros i t' Ht' Hco. destruct (Hback i t' Ht') as (t & Ht & Hgr).
    destruct Hgr as (_ & Hts & Hc' & _). rewrite Hts.
    apply (committed_ts st Hc i t Ht). congruence.
  - intros key holders i Hl Hi.
    destruct (Hsl key holders i Hl Hi) as [(h0 & Hh0 & Hi0)|Hnew]; [|exact Hnew].
    destruct (siread_held st Hc key h0 i Hh0 Hi0) as (t & Ht & Hk).
    destruct (Hfwd i t Ht) as (t' & Ht' & Hgr). exists t'. split; [exact Ht'|].
    destruct Hgr as (_ & _ & _ & _ & Hrs & _). set_solver.
  - intros key i Hl.
    destruct (Hwl key i Hl) as [Hold|Hnew]; [|exact Hnew].
    destruct (write_held st Hc key i Hold) as (t & Ht & Hk).
    destruct (Hfwd i t Ht) as (t' & Ht' & Hgr). exists t'. split; [exact Ht'|].
    destruct Hgr as (_ & _ & _ & _ & _ & Hws). now apply Hws.
Qed.

Lemma consistent_init : consistent init.
Proof.
  split; cbn; intros *; unfold usable; cbn; rewrite lookup_empty; discriminate.
Qed.

Lemma usable_insert_ne (st : SerializableSnapshotIsolation)
  (ts : gmap Z SSITransaction) (i : Z) :
  ts !! i = transactions st !! i → usable (set_transactions ts st) i = usable st i.
Proof. intros H. unfold usable. cbn. now rewrite H. Qed.

Lemma consistent_begin (now : Z) (st : SerializableSnapshotIsolation) :
  consistent st → consistent (begin now st).1.
Proof.
  intros Hc. unfold begin. cbn.
  set (n := next_txn_id st).
  assert (Hfresh : ∀ i t, transactions st !! i = Some t → i ≠ n).
  { intros i t Ht. pose proof (known_below st Hc i t Ht). unfold n. lia. }
  split; cbn.
  - intros i t Ht. destruct (decide (n = i)) as [<-|Hne].
    + rewrite lookup_insert_eq in Ht. now injection Ht as <-.
    + rewrite lookup_insert_ne in Ht by assumption. exact (own_id st Hc i t Ht).
  - intros i t Ht. destruct (decide (n = i)) as [<-|Hne]; [lia|].
    rewrite lookup_insert_ne in Ht by assumption.
    pose proof (known_below st Hc i t Ht). lia.
  - intros i t Hu. rewrite lookup_insert_is_Some.
    destruct (decide (n = i)) as [<-|Hne]; [now left|]. right. split; [exact Hne|].
    apply (usable_active st Hc i t). unfold usable in *. cbn in Hu.
    now rewrite lookup_insert_ne in Hu by assumption.
  - intros i t Ht. destruct (decide (n = i)) as [<-|Hne].
    + rewrite lookup_insert_eq in Ht. injection Ht as <-. discriminate.
    + rewrite lookup_insert_ne in Ht by assumption. exact (committed_ts st Hc i t Ht).
  - intros key holders i Hl Hi.
    destruct (siread_held st Hc key holders i Hl Hi) as (t & Ht & Hk).
    exists t. split; [|exact Hk].
    rewrite lookup_insert_ne; [exact Ht|]. intros <-. now apply (Hfresh n t).
  - intros key i Hl.
    destruct (write_held st Hc key i Hl) as (t & Ht & Hk).
    exists t. split; [|exact Hk].
    rewrite lookup_insert_ne; [exact Ht|]. intros <-. now apply (Hfresh n t).
Qed.

Lemma consistent_read (t : Z) (key : string) (st : SerializableSnapshotIsolation) :
  consistent st → consistent (read t key st).1.
Proof.
  intros Hc. unfold read.
  destruct (usable st t) as [txn|] eqn:Hu; [|exact Hc].
  destruct (write_set txn !! key); [exact Hc|].
  apply usable_Some in Hu as (Ht & _).
  set (ts1 := <[t := add_read key txn]> (transactions st)).
  set (ts2 := match write_locks st !! key with Some _ => _ | None => _ end).
  assert (Hg1 : all_grown (transactions st) ts1).
  { apply (all_grown_insert t txn); [exact Ht|apply grown_add_read]. }
  assert (Hg2 : all_grown ts1 ts2).
  { unfold ts2. destruct (write_locks st !! key) as [w|]; [|apply all_grown_refl].
    destruct (ts1 !! w); [|apply all_grown_refl].
    destruct (_ && _); [|apply all_grown_refl].
    eapply all_grown_trans; apply all_grown_alter;
      [apply grown_add_in|apply grown_add_out]. }
  assert (Hread : ∃ t', ts2 !! t = Some t' ∧ key ∈ read_set t').
  { specialize (Hg2 t). unfold ts1 in Hg2 at 1. rewrite lookup_insert_eq in Hg2.
    destruct Hg2 as (t' & Ht' & Hgr). exists t'. split; [exact Ht'|].
    destruct Hgr as (_ & _ & _ & _ & Hrs & _). cbn in Hrs. set_solver. }
  destruct (MVCC.read t key (store st)) as [s' r] eqn:Hs. cbn.
  apply (consistent_grown st); cbn; auto.
  - eapply all_grown_trans; eassumption.
  - intros i Hi. replace s' with (MVCC.read t key (store st)).1 by now rewrite Hs.
    now apply mvcc_read_active.
  - intros k holders i Hl Hi. destruct (decide (key = k)) as [<-|Hne].
    + rewrite lookup_insert_eq in Hl. injection Hl as <-.
      apply elem_of_union in Hi as [Hi|Hi].
      * apply elem_of_singleton in Hi as ->. now right.
      * left. destruct (siread_locks st !! key) as [h0|]; cbn in Hi; [eauto|].
        now apply not_elem_of_empty in Hi.
    + rewrite lookup_insert_ne in Hl by assumption. left. eauto.
Qed.

Lemma consistent_write (t : Z) (key : string) (v : Py.value)
  (st : SerializableSnapshotIsolation) :
  consistent st → consistent (write t key v st).1.
Proof.
  intros Hc. unfold write.
  destruct (usable st t) as [txn|] eqn:Hu; [|exact Hc].
  cbv zeta. destruct (match write_locks st !! key with Some _ => _ | None => _ end);
    [exact Hc|].
  apply usable_Some in Hu as (Ht & _).
  set (ts1 := set_fold (note_reader t) (transactions st) _).
  assert (Hg1 : all_grown (transactions st) ts1) by apply all_grown_readers.
  assert (Hg2 : all_grown ts1 (alter (add_write key v) t ts1))
    by (apply all_grown_alter, grown_add_write).
  assert (Hwritten : ∃ t', alter (add_write key v) t ts1 !! t = Some t'
                           ∧ is_Some (write_set t' !! key)).
  { specialize (Hg1 t). rewrite Ht in Hg1. destruct Hg1 as (t1 & Ht1 & _).
    rewrite lookup_alter_eq, Ht1. cbn. eexists. split; [reflexivity|].
    cbn. rewrite lookup_insert_eq. eauto. }
  destruct (MVCC.write t key v (store st)) as [s' r] eqn:Hs. cbn.
  apply (consistent_grown st); cbn; auto.
  - eapply all_grown_trans; eassumption.
  - intros i Hi. replace s' with (MVCC.write t key v (store st)).1 by now rewrite Hs.
    now apply mvcc_write_active.
  - intros k holders i Hl Hi. left. eauto.
  - intros k i Hl. destruct (decide (key = k)) as [<-|Hne].
    + rewrite lookup_insert_eq in Hl. injection Hl as <-. now right.
    + rewrite lookup_insert_ne in Hl by assumption. now left.
Qed.

(** A step that ends one transaction, by commit or by abort, and releases
    locks keeps the state consistent. *)
Lemma consistent_finished (f : SSITransaction → SSITransaction) (t : Z)
  (st st' : SerializableSnapshotIsolation) :
  consistent st →
  transactions st' = alter f t (transactions st) →
  (∀ x, transactions st !! t = Some x →
        txn_id (f x) = txn_id x ∧ read_set (f x) = read_set x
        ∧ write_set (f x) = write_set x
        ∧ (aborted (f x) || committed (f x) = true)
        ∧ (committed (f x) = true → is_Some (commit_ts (f x)))) →
  next_txn_id st' = next_txn_id st →
  (∀ i, i ≠ t → is_Some (MVCC.active_txns (store st) !! i) →
        is_Some (MVCC.active_txns (store st') !! i)) →
  (∀ key holders i, siread_locks st' !! key = Some holders → i ∈ holders →
     ∃ h0, siread_locks st !! key = Some h0 ∧ i ∈ h0) →
  (∀ key i, write_locks st' !! key = Some i → write_locks st !! key = Some i) →
  consistent st'.
Proof.
  intros Hc Hts Hf Hn Ha Hsl Hwl.
  assert (Hfwd : ∀ i x, transactions st !! i = Some x →
             ∃ x', transactions st' !! i = Some x'
                   ∧ read_set x' = read_set x ∧ write_set x' = write_set x).
  { intros i x Hx. rewrite Hts. destruct (decide (t = i)) as [->|Hne].
    - rewrite lookup_alter_eq, Hx. cbn. exists (f x).
      destruct (Hf x ltac:(first [exact Hx|reflexivity])) as (_ & Hr & Hw & _). auto.
    - rewrite lookup_alter_ne by assumption. eauto. }
  split.
  - intros i x'. rewrite Hts. destruct (decide (t = i)) as [->|Hne].
    + rewrite lookup_alter_eq. destruct (transactions st !! i) as [x|] eqn:Hx;
        [|discriminate]. cbn. intros H. injection H as <-.
      destruct (Hf x ltac:(first [exact Hx|reflexivity])) as (-> & _). exact (own_id st Hc i x Hx).
    + rewrite lookup_alter_ne by assumption. apply (own_id st Hc).
  - intros i x'. rewrite Hts, Hn. intros Hx'.
    assert (is_Some (transactions st !! i)) as [x Hx].
    { destruct (decide (t = i)) as [->|Hne].
      - rewrite lookup_alter_eq in Hx'.
        destruct (transactions st !! i); [eauto|discriminate]. 
      - rewrite lookup_alter_ne in Hx' by assumption. eauto. }
    exact (known_below st Hc i x Hx).
  - intros i x' Hu. apply usable_Some in Hu as (Hx' & Hab & Hco).
    rewrite Hts in Hx'. destruct (decide (t = i)) as [->|Hne].
    + rewrite lookup_alter_eq in Hx'.
      destruct (transactions st !! i) as [x|] eqn:Hx; [|discriminate].
      cbn in Hx'. injection Hx' as <-. destruct (Hf x ltac:(first [exact Hx|reflexivity])) as (_ & _ & _ & Hend & _).
      rewrite Hab, Hco in Hend. discriminate.
    + rewrite lookup_alter_ne in Hx' by assumption.
      apply Ha; [congruence|]. apply (usable_active st Hc i x').
      apply usable_Some. auto.
  - intros i x'. rewrite Hts. destruct (decide (t = i)) as [->|Hne].
    + rewrite lookup_alter_eq. destruct (transactions st !! i) as [x|] eqn:Hx;
        [|discriminate]. cbn. intros H. injection H as <-.
      destruct (Hf x ltac:(first [exact Hx|reflexivity])) as (_ & _ & _ & _ & Hcts). exact Hcts.
    + rewrite lookup_alter_ne by assumption. apply (committed_ts st Hc).
  - intros key holders i Hl Hi. destruct (Hsl key holders i Hl Hi) as (h0 & Hh0 & Hi0).
    destruct (siread_held st Hc key h0 i Hh0 Hi0) as (x & Hx & Hk).
    destruct (Hfwd i x Hx) as (x' & Hx' & Hr & _). exists x'. now rewrite Hr.
  - intros key i Hl. apply Hwl in Hl.
    destruct (write_held st Hc key i Hl) as (x & Hx & Hk).
    destruct (Hfwd i x Hx) as (x' & Hx' & _ & Hw). exists x'. now rewrite Hw.
Qed.

Lemma consistent_abort_internal (txn : SSITransaction)
  (st : SerializableSnapshotIsolation) :
  consistent st → consistent (_abort_internal txn st).
Proof.
  intros Hc. apply (consistent_finished set_aborted (txn_id txn) st); auto.
  - intros x Hx. cbn. repeat split; auto.
    exact (committed_ts st Hc _ x Hx).
  - intros i Hne. cbn. unfold MVCC.abort.
    destruct (MVCC.active_txns (store st) !! txn_id txn); cbn; [|auto].
    now rewrite lookup_delete_ne.
  - intros key holders i Hl Hi.
    destruct (cleanup_siread_sub _ _ _ _ _ Hl Hi) as (h0 & Hh0 & Hi0 & _). eauto.
  - intros key i Hl. now apply cleanup_write_sub in Hl as [Hl _].
Qed.

Lemma consistent_commit (now t : Z) (st st' : SerializableSnapshotIsolation)
  (r : bool * option string) :
  consistent st → commit now t st = Ok (st', r) → consistent st'.
Proof.
  intros Hc. unfold commit.
  destruct (usable st t) as [txn|] eqn:Hu.
  2: { intros H. now injection H as <- _. }
  destruct (has_dangerous_structure_spec st txn Hc) as (found & Hrun & _).
  rewrite Hrun. cbn. destruct found.
  - intros H. injection H as <- _. now apply consistent_abort_internal.
  - destruct (usable_active st Hc _ _ Hu) as [info Hinfo].
    apply usable_Some in Hu as (Ht & _).
    pose proof (own_id st Hc t txn Ht) as Hid.
    unfold MVCC.commit. rewrite Hinfo. cbn. intros H. injection H as <- _.
    apply (consistent_finished (set_committed ∘ set_commit_ts now) t st); auto.
    + cbn. apply alter_alter_eq.
    + intros x Hx. cbn. repeat split; eauto. apply orb_true_r.
    + intros i Hne Hi. cbn. now rewrite lookup_delete_ne.
    + intros key holders i Hl Hi.
      destruct (cleanup_siread_sub _ _ _ _ _ Hl Hi) as (h0 & Hh0 & Hi0 & _). eauto.
    + intros key i Hl. now apply cleanup_write_sub in Hl as [Hl _].
Qed.

Lemma consistent_step (o : op) (st st' : SerializableSnapshotIsolation) :
  consistent st → step o st = Ok st' → consistent st'.
Proof.
  intros Hc. destruct o; cbn.
  - intros H. injection H as <-. now apply consistent_begin.
  - intros H. injection H as <-. now apply consistent_read.
  - intros H. injection H as <-. now apply consistent_write.
  - destruct (commit now txn_id0 st) as [[st1 r]|] eqn:Hcommit; [|discriminate].
    cbn. intros H. injection H as <-. eapply consistent_commit; eassumption.
  - intros H. injection H as <-. unfold abort.
    destruct (transactions st !! txn_id0); [|exact Hc].
    now apply consistent_abort_internal.
Qed.

(** Every state that a sequence of calls reaches is consistent. *)
Lemma consistent_run (ops : list op) :
  ∀ st st', consistent st → run ops st = Ok st' → consistent st'.
Proof.
  induction ops as [|o rest IH]; intros st st' Hc; cbn [run].
  - intros H. now injection H as <-.
  - destruct (step o st) as [st1|] eqn:Hs; [|discriminate]. cbn.
    apply IH. eapply consistent_step; eassumption.
Qed.



End SSIFacts.


(** ** Storage engine: the engine and its core *)

Section EngineFacts.

Import Index Storage Claims.

Variable hash : string → Z.

Lemma engine_get_core (max_offset : N) (key : string) (e : StorageEngine) :
  contains hash key (bloom e) →
  engine_get hash max_offset key e
  = get_located max_offset key (log_store e) (index e).
Proof. intros Hk. unfold engine_get. unfold contains in Hk. now rewrite Hk. Qed.

Lemma engine_init_core (files : Files) (c : Core) :
  core_init files = Ok c →
  ∃ e, engine_init hash files = Ok e
       ∧ log_store e = c.1 ∧ index e = c.2 ∧ well_sized (bloom e)
       ∧ ∀ k, k ∈ hash_keys c.2 → contains hash k (bloom e).
Proof.
  unfold core_init, engine_init.
  destruct (LogStore_init files) as [st|]; [|discriminate]. cbn.
  destruct (hash_rebuild st) as [idx|]; [|discriminate]. cbn.
  intros H. injection H as <-.
  destruct (rebuild_ok hash (hash_keys idx) (bloom_init 100000 4))
    as (b & Hb & Hwf & Hkeys); [cbn; lia|].
  rewrite Hb. cbn. eexists. split; [reflexivity|]. cbn. auto.
Qed.

Lemma engine_step_core (o : engine_op) (e : StorageEngine) (c' : Core) :
  well_sized (bloom e) → ¬ is_restart o →
  core_step o (log_store e, index e) = Ok c' →
  ∃ e', engine_step hash o e = Ok e'
        ∧ log_store e' = c'.1 ∧ index e' = c'.2 ∧ well_sized (bloom e')
        ∧ (∀ k, contains hash k (bloom e) → contains hash k (bloom e'))
        ∧ (∀ k, puts_key k o → contains hash k (bloom e')).
Proof.
  intros Hwf Hnr. destruct o as [key value|key| |]; cbn [core_step engine_step].
  - unfold core_put, engine_put. cbn [fst snd].
    destruct (put key (Some value) (log_store e)) as [[st [sid off]]|]; [|discriminate].
    cbn. intros H. injection H as <-.
    destruct (add_ok hash key (bloom e) Hwf) as (b' & Hadd & Hwf').
    rewrite Hadd. cbn. eexists. split; [reflexivity|]. cbn.
    repeat split; try assumption; try apply Hwf'.
    + intros k Hk. eapply add_keeps; eassumption.
    + intros k <-. eapply add_contains; eassumption.
  - unfold core_delete, engine_delete. cbn [fst snd].
    destruct (delete key (log_store e)) as [[st loc]|]; [|discriminate].
    cbn. intros H. injection H as <-. eexists. split; [reflexivity|]. cbn.
    repeat split; try apply Hwf; auto. intros k [].
  - unfold core_compact, force_compaction. cbn [fst snd].
    destruct (compact (log_store e)) as [[st done]|]; [|discriminate].
    cbn. intros H. injection H as <-. eexists. split; [reflexivity|]. cbn.
    repeat split; try apply Hwf; auto. intros k [].
  - exfalso. now apply Hnr.
Qed.

Lemma engine_run_core (ops : list engine_op) :
  ∀ (e : StorageEngine) (c' : Core),
    well_sized (bloom e) → Forall (λ o, ¬ is_restart o) ops →
    core_run ops (log_store e, index e) = Ok c' →
    ∃ e', engine_run hash ops e = Ok e'
          ∧ log_store e' = c'.1 ∧ index e' = c'.2 ∧ well_sized (bloom e')
          ∧ (∀ k, contains hash k (bloom e) → contains hash k (bloom e'))
          ∧ (∀ k, Exists (puts_key k) ops → contains hash k (bloom e')).
Proof.
  induction ops as [|o rest IH]; intros e c' Hwf Hnr; cbn [core_run engine_run].
  - intros H. injection H as <-. exists e. cbn.
    split; [reflexivity|]. split; [reflexivity|]. split; [reflexivity|].
    split; [exact Hwf|]. split; [auto|]. intros k Hk. inversion Hk.
  - apply Forall_cons in Hnr as [Ho Hnr].
    destruct (core_step o (log_store e, index e)) as [c1|] eqn:Hstep; [|discriminate].
    cbn. intros Hrun.
    destruct (engine_step_core o e c1 Hwf Ho Hstep)
      as (e1 & He1 & Hl1 & Hi1 & Hwf1 & Hkeep1 & Hput1).
    rewrite He1. cbn.
    destruct (IH e1 c') as (e' & He' & Hl' & Hi' & Hwf' & Hkeep' & Hput');
      [exact Hwf1|exact Hnr| |].
    { rewrite Hl1, Hi1. now destruct c1. }
    exists e'.
    split; [exact He'|]. split; [exact Hl'|]. split; [exact Hi'|].
    split; [exact Hwf'|]. split; [auto|].
    intros k Hk. apply Exists_cons in Hk as [Hk|Hk]; auto.
Qed.

Lemma core_run_store (ops : list engine_op) :
  ∀ c c', core_run ops c = Ok c' → store_run ops c.1 = Ok c'.1.
Proof.
  induction ops as [|o rest IH]; intros c c'; cbn [core_run store_run].
  - intros H. now injection H as <-.
  - destruct (core_step o c) as [c1|] eqn:Hstep; [|discriminate]. cbn.
    intros Hrun. apply IH in Hrun.
    assert (Hs : store_step o c.1 = Ok c1.1).
    { destruct o as [key value|key| |]; cbn [core_step store_step] in *.
      - unfold core_put in Hstep.
        destruct (put key (Some value) c.1) as [[st [sid off]]|]; [|discriminate].
        cbn in *. now injection Hstep as <-.
      - unfold core_delete in Hstep.
        destruct (delete key c.1) as [[st loc]|]; [|discriminate].
        cbn in *. now injection Hstep as <-.
      - unfold core_compact in Hstep.
        destruct (compact c.1) as [[st done]|]; [|discriminate].
        cbn in *. now injection Hstep as <-.
      - unfold core_init in Hstep.
        destruct (LogStore_init (fs c.1)) as [st|]; [|discriminate]. cbn in *.
        destruct (hash_rebuild st); [|discriminate]. cbn in *.
        now injection Hstep as <-. }
    rewrite Hs. exact Hrun.
Qed.

End EngineFacts.

(** ** Storage engine: three full segments, a compaction, and a put *)

Section ScenarioFacts.

Import Index Storage Claims.

(** The scenario for a value [v] that fills a segment at once; [ra], [rb]
    and [rc] are the bytes written for it under ["a"], ["b"] and ["c"]. *)
Section Steps.

Variable max_offset : N.
Variables (v : string) (ra rb rc : list byte).
Hypothesis Hbig : SEGMENT_MAX_SIZE ≤ len (encode v).
Hypothesis Ha : record_bytes "a" (Some v) = Ok ra.
Hypothesis Hb : record_bytes "b" (Some v) = Ok rb.
Hypothesis Hc : record_bytes "c" (Some v) = Ok rc.

Lemma full_record (key : string) (rec : list byte) :
  record_bytes key (Some v) = Ok rec → (SEGMENT_MAX_SIZE <=? len rec) = true.
Proof.
  intros H. apply record_bytes_len in H. pose proof (len_nonneg (encode key)).
  apply Z.leb_le. lia.
Qed.

Lemma scenario_put_a :
  put "a" (Some v) fresh_store = Ok (first_store ra, (0, 0)).
Proof.
  rewrite (put_active fresh_store 0%nat (mkSegment "segment_000000.log" 0 0)
             "a" (Some v) ra);
    [reflexivity|reflexivity|reflexivity|reflexivity|exact Ha].
Qed.

Lemma scenario_put_b :
  put "b" (Some v) (first_store ra) = Ok (second_store ra rb, (1, 0)).
Proof.
  rewrite (put_rollover _ 0%nat (mkSegment "segment_000000.log" 0 (len ra))
             "b" (Some v) rb);
    [reflexivity|reflexivity|reflexivity|exact (full_record _ _ Ha)|exact Hb].
Qed.

Lemma scenario_put_c :
  put "c" (Some v) (second_store ra rb) = Ok (filled_store ra rb rc, (2, 0)).
Proof.
  rewrite (put_rollover _ 1%nat (mkSegment "segment_000001.log" 1 (len rb))
             "c" (Some v) rc);
    [reflexivity|reflexivity|reflexivity|exact (full_record _ _ Hb)|exact Hc].
Qed.

Lemma scenario_fill :
  core_run [Put "a" v; Put "b" v; Put "c" v] (fresh_store, mkHashIndex ∅)
  = Ok (filled_store ra rb rc, filled_index).
Proof.
  cbn [core_run core_step]. unfold core_put. cbn [fst snd].
  rewrite scenario_put_a. cbn [mbind result_bind fst snd].
  rewrite scenario_put_b. cbn [mbind result_bind fst snd].
  rewrite scenario_put_c. reflexivity.
Qed.

Lemma scenario_merge :
  merge_segments (filled_store ra rb rc) [0; 1]%nat ∅
  = Ok (<["b"%string := v]> (<["a"%string := v]> ∅)).
Proof.
  cbn [merge_segments].
  rewrite (iterate_single (mkSegment "segment_000000.log" 0 (len ra)) _
             "a" (Some v) ra); [|reflexivity|exact Ha].
  cbn [mbind result_bind].
  rewrite (iterate_single (mkSegment "segment_000001.log" 1 (len rb)) _
             "b" (Some v) rb); [|reflexivity|exact Hb].
  reflexivity.
Qed.

(** The compaction of the segments 0 and 1: its output is renamed to the
    path of segment 0, and the files of the two old segments are unlinked
    after that, so that only the file of segment 2 is left. *)
Lemma scenario_compact :
  compact (filled_store ra rb rc) = Ok (compacted_store ra rb rc, true).
Proof.
  unfold compact.
  change (get_segments_to_compact 2 (filled_store ra rb rc)) with [0; 1]%nat.
  cbv zeta. change (len [0%nat; 1%nat] <? 2) with false. cbv iota.
  rewrite scenario_merge. cbn [mbind result_bind].
  destruct (decide (<["b"%string := v]> (<["a"%string := v]> ∅)
                    = (∅ : gmap string string))) as [Heq|_].
  { apply (f_equal (lookup "a"%string)) in Heq. discriminate Heq. }
  change (min_id (filled_store ra rb rc) [0%nat; 1%nat]) with 0.
  change (compacted_path 0) with "segment_000000_compacted.log"%string.
  change (segment_path 0) with "segment_000000.log"%string.
  change (sorted (map_to_list (<["b"%string := v]> (<["a"%string := v]> ∅))).*1)
    with ["a"; "b"]%string.
  cbn [append_sorted].
  change ((<["b"%string := v]> (<["a"%string := v]> ∅) : gmap string string)
            !! "a"%string) with (Some v).
  change ((<["b"%string := v]> (<["a"%string := v]> ∅) : gmap string string)
            !! "b"%string) with (Some v).
  cbv iota.
  rewrite (segment_append_ok "a" (Some v) _ _ ra Ha). cbn [mbind result_bind].
  rewrite (segment_append_ok "b" (Some v) _ _ rb Hb). cbn [mbind result_bind].
  reflexivity.
Qed.

Lemma scenario_put_d (rd : list byte) :
  record_bytes "d" (Some "1"%string) = Ok rd →
  put "d" (Some "1"%string) (compacted_store ra rb rc)
  = Ok (collided_store ra rb rc rd, (2, len rc)).
Proof.
  intros Hd.
  rewrite (put_rollover _ 2%nat (mkSegment "segment_000002.log" 2 (len rc))
             "d" (Some "1"%string) rd);
    [reflexivity|reflexivity|reflexivity|exact (full_record _ _ Hc)|exact Hd].
Qed.

Lemma scenario_get_filled (key : string) (rec : list byte) (sid : Z) (r : Ref)
  (seg : LogSegment) :
  hash_get key filled_index = Some (sid, 0) →
  get_segment sid (filled_store ra rb rc) = Some r →
  filled_heap ra rb rc !! r = Some seg →
  fs (filled_store ra rb rc) !! path seg = Some rec →
  record_bytes key (Some v) = Ok rec →
  get_located max_offset key (filled_store ra rb rc) filled_index
  = Ok (Some v).
Proof.
  intros Hidx Hseg Hheap Hfile Hrec. unfold get_located. rewrite Hidx, Hseg.
  change (heap (filled_store ra rb rc)) with (filled_heap ra rb rc).
  rewrite (list_lookup_total_correct _ _ _ Hheap).
  rewrite (read_at_single max_offset seg _ key (Some v) rec Hfile Hrec).
  cbn [mbind result_bind orb]. now rewrite bool_decide_true.
Qed.

Lemma scenario_get_c :
  get_located max_offset "c" (compacted_store ra rb rc) filled_index
  = Ok (Some v).
Proof.
  unfold get_located.
  change (hash_get "c" filled_index) with (Some (2, 0)). cbv iota beta.
  change (get_segment 2 (compacted_store ra rb rc)) with (Some 2%nat).
  cbv iota beta.
  change (heap (compacted_store ra rb rc) !!! 2%nat)
    with (mkSegment "segment_000002.log" 2 (len rc)).
  rewrite (read_at_single max_offset
             (mkSegment "segment_000002.log" 2 (len rc)) _
             "c" (Some v) rc); [|reflexivity|exact Hc].
  cbn [mbind result_bind orb]. now rewrite bool_decide_true.
Qed.

End Steps.

Lemma core_init_fresh : core_init ∅ = Ok (fresh_store, mkHashIndex ∅).
Proof. reflexivity. Qed.

Lemma core_init_store (files : Files) (c : Core) :
  core_init files = Ok c → LogStore_init files = Ok c.1.
Proof.
  unfold core_init. destruct (LogStore_init files) as [st|]; [|discriminate].
  cbn. destruct (hash_rebuild st); [|discriminate]. cbn.
  intros H. now injection H as <-.
Qed.

Lemma core_compact_store (c c' : Core) (done : bool) :
  core_compact c = Ok (c', done) → compact c.1 = Ok (c'.1, done) ∧ c'.2 = c.2.
Proof.
  unfold core_compact. destruct (compact c.1) as [[st d]|]; [|discriminate].
  cbn. intros H. injection H as <- <-. auto.
Qed.

(** The scenario, step by step. *)
Lemma scenario_facts (max_offset : N) :
  ∃ c0 c3 c4 st5,
    core_init ∅ = Ok c0
    ∧ core_run fill_ops c0 = Ok c3
    ∧ core_compact c3 = Ok (c4, true)
    ∧ put "d" (Some "1"%string) c4.1 = Ok (st5, (2, 1048586))
    ∧ observe max_offset c3 c4 true (st5, c4.2) (2, 1048586) = observed.
Proof.
  pose proof len_encode_big_value as Hlen.
  assert (Hbig : SEGMENT_MAX_SIZE ≤ len (encode big_value)) by lia.
  assert (Hfit : len (encode big_value) < 2 ^ 32)
    by (rewrite Hlen; reflexivity).
  destruct (record_bytes_ok "a" (Some big_value)) as [ra Ha];
    [reflexivity|exact Hfit|].
  destruct (record_bytes_ok "b" (Some big_value)) as [rb Hb];
    [reflexivity|exact Hfit|].
  destruct (record_bytes_ok "c" (Some big_value)) as [rc Hc];
    [reflexivity|exact Hfit|].
  destruct (record_bytes_ok "d" (Some "1"%string)) as [rd Hd];
    [reflexivity|reflexivity|].
  assert (Hoff : len rc = 1048586).
  { rewrite (record_bytes_len _ _ _ Hc), Hlen. reflexivity. }
  exists (fresh_store, mkHashIndex ∅), (filled_store ra rb rc, filled_index),
    (compacted_store ra rb rc, filled_index), (collided_store ra rb rc rd).
  split; [exact core_init_fresh|].
  split; [exact (scenario_fill big_value ra rb rc Hbig Ha Hb Hc)|].
  split.
  { unfold core_compact. cbn [fst snd].
    now rewrite (scenario_compact big_value ra rb rc Ha Hb). }
  split.
  { cbn [fst]. rewrite <- Hoff.
    exact (scenario_put_d big_value ra rb rc Hbig Hc rd Hd). }
  unfold observe. cbn [fst snd].
  rewrite (scenario_get_filled max_offset big_value ra rb rc "a" ra 0 0%nat
             (mkSegment "segment_000000.log" 0 (len ra)));
    [|reflexivity|reflexivity|reflexivity|reflexivity|exact Ha].
  rewrite (scenario_get_filled max_offset big_value ra rb rc "b" rb 1 1%nat
             (mkSegment "segment_000001.log" 1 (len rb)));
    [|reflexivity|reflexivity|reflexivity|reflexivity|exact Hb].
  rewrite (scenario_get_c max_offset big_value ra rb rc Hc).
  rewrite bool_decide_eq_true_2 by reflexivity.
  reflexivity.
Qed.

(** C8 fails on the code: after a compaction has made the list of segments
    shorter, [_create_new_segment] numbers the next segment by the length of
    the list and gives it the id 2, which the segment made before the
    compaction still carries, together with its file. The output of the
    compaction carries the id 0, the minimum of the ids 0 and 1 of its
    inputs. *)
Theorem new_segment_id_collides :
  ∃ st0 st3 st4 st5,
    LogStore_init ∅ = Ok st0
    ∧ store_run fill_ops st0 = Ok st3
    ∧ segment_ids st3 = [0; 1; 2]
    ∧ compact st3 = Ok (st4, true)
    ∧ segment_ids st4 = [0; 2]
    ∧ put "d" (Some "1"%string) st4 = Ok (st5, (2, 1048586))
    ∧ segment_ids st5 = [0; 2; 2]
    ∧ segment_paths st5 =
        ["segment_000000.log"; "segment_000002.log"; "segment_000002.log"]%string.
Proof.
  destruct (scenario_facts 0) as (c0 & c3 & c4 & st5 & H0 & H3 & H4 & H5 & Hobs).
  exists c0.1, c3.1, c4.1, st5.
  split; [now apply core_init_store|].
  split; [now apply core_run_store|].
  split; [exact (f_equal ids_before Hobs)|].
  split; [now apply core_compact_store in H4 as [H4 _]|].
  split; [exact (f_equal ids_after Hobs)|].
  split; [exact H5|].
  split; [exact (f_equal ids_final Hobs)|exact (f_equal paths_final Hobs)].
Qed.

(** C1 fails on the code after a compaction, whatever the hash function of
    the Bloom filter and the greatest offset of the file system are: the
    values put under ["a"], ["b"] and ["c"] are read
    back before the compaction; the compaction of the segments 0 and 1
    renames its output to the path of segment 0 and then unlinks the old
    segments by their paths, so it removes its own output, and it leaves the
    hash index as it was; after it, [get("a")] raises [FileNotFoundError]
    and [get("b")] returns [None], though nothing has deleted or overwritten
    these keys. *)
Theorem compaction_loses_records (hash : string → Z) (max_offset : N) :
  ∃ e0 e3 e4,
    engine_init hash ∅ = Ok e0
    ∧ engine_run hash fill_ops e0 = Ok e3
    ∧ engine_get hash max_offset "a" e3 = Ok (Some big_value)
    ∧ engine_get hash max_offset "b" e3 = Ok (Some big_value)
    ∧ force_compaction e3 = Ok (e4, true)
    ∧ engine_get hash max_offset "a" e4 = Raise FileNotFoundError
    ∧ engine_get hash max_offset "b" e4 = Ok None
    ∧ engine_get hash max_offset "c" e4 = Ok (Some big_value).
Proof.
  destruct (scenario_facts max_offset) as (c0 & c3 & c4 & st5 & H0 & H3 & H4 & H5 & Hobs).
  destruct (engine_init_core hash ∅ c0 H0) as (e0 & He0 & Hl0 & Hi0 & Hwf0 & _).
  destruct (engine_run_core hash fill_ops e0 c3 Hwf0)
    as (e3 & He3 & Hl3 & Hi3 & Hwf3 & _ & Hput).
  { repeat constructor; intros []. }
  { rewrite Hl0, Hi0. now destruct c0. }
  apply core_compact_store in H4 as [H4 Hidx].
  assert (Ha : contains hash "a" (bloom e3))
    by (apply Hput; unfold fill_ops; apply Exists_cons_hd; reflexivity).
  assert (Hb : contains hash "b" (bloom e3))
    by (apply Hput; unfold fill_ops; apply Exists_cons_tl, Exists_cons_hd;
        reflexivity).
  assert (Hc : contains hash "c" (bloom e3))
    by (apply Hput; unfold fill_ops;
        apply Exists_cons_tl, Exists_cons_tl, Exists_cons_hd; reflexivity).
  exists e0, e3, (mkEngine c4.1 (Storage.index e3) (bloom e3)).
  split; [exact He0|]. split; [exact He3|].
  split.
  { rewrite (engine_get_core hash max_offset "a" e3 Ha), Hl3, Hi3.
    exact (proj1 (bool_decide_eq_true _) (f_equal get_a_before Hobs)). }
  split.
  { rewrite (engine_get_core hash max_offset "b" e3 Hb), Hl3, Hi3.
    exact (proj1 (bool_decide_eq_true _) (f_equal get_b_before Hobs)). }
  split.
  { unfold force_compaction. rewrite Hl3, H4. reflexivity. }
  split.
  { rewrite engine_get_core by exact Ha. cbn [log_store Storage.index].
    rewrite Hi3, <- Hidx. exact (f_equal get_a_after Hobs). }
  split.
  { rewrite engine_get_core by exact Hb. cbn [log_store Storage.index].
    rewrite Hi3, <- Hidx. exact (f_equal get_b_after Hobs). }
  rewrite engine_get_core by exact Hc. cbn [log_store Storage.index].
  rewrite Hi3, <- Hidx.
  exact (proj1 (bool_decide_eq_true _) (f_equal get_c_after Hobs)).
Qed.

End ScenarioFacts.

(** ** Segments: what was appended is read back *)

Section SegmentRoundTrip.

Import Index Storage Claims StoreSpec.

Lemma segment_new_sized (files : Files) (p : string) (i : Z) :
  sized (segment_new files p i) files.
Proof. unfold sized, segment_new. cbn. now destruct (files !! p). Qed.

Lemma segment_append_inv (key : string) (value : option string)
  (seg seg' : LogSegment) (files files' : Files) (offset : Z) :
  segment_append key value seg files = Ok (seg', files', offset) →
  ∃ rec, record_bytes key value = Ok rec
         ∧ seg' = mkSegment (path seg) (segment_id seg) (size seg + len rec)
         ∧ files' = <[path seg := default [] (files !! path seg) ++ rec]> files
         ∧ offset = size seg.
Proof.
  unfold segment_append. destruct (record_bytes key value) as [rec|]; [|discriminate].
  cbn. intros H. injection H as <- <- <-. now exists rec.
Qed.

Lemma segment_append_sized (key : string) (value : option string)
  (seg seg' : LogSegment) (files files' : Files) (offset : Z) :
  sized seg files →
  segment_append key value seg files = Ok (seg', files', offset) →
  sized seg' files'.
Proof.
  intros Hsize Happ.
  apply segment_append_inv in Happ as (rec & Hrec & -> & -> & ->).
  unfold sized in *. cbn [path size]. rewrite lookup_insert_eq.
  cbn [default from_option id]. rewrite len_app. lia.
Qed.



Lemma append_each_spec (recs : list (string * option string)) :
  ∀ (seg seg' : LogSegment) (files files' : Files) (offsets : list Z),
    sized seg files →
    append_each recs seg files = Ok (seg', files', offsets) →
    ∃ triples : list (string * option string * list byte),
      triples.*1 = recs
      ∧ Forall (λ r, record_bytes r.1.1 r.1.2 = Ok r.2) triples
      ∧ path seg' = path seg
      ∧ default [] (files' !! path seg)
        = default [] (files !! path seg) ++ concat triples.*2
      ∧ (recs = [] → files' = files)
      ∧ (recs ≠ [] → is_Some (files' !! path seg))
      ∧ items_at (size seg) triples
        = zip_with (λ off r, (off, r.1, r.2, is_tombstone r.2)) offsets recs.
Proof.
  induction recs as [|[key value] rest IH]; intros seg seg' files files' offsets Hs H.
  - cbn in H. injection H as <- <- <-. exists [].
    cbn. rewrite app_nil_r. repeat split; try reflexivity; try constructor.
    intros Hne. now destruct Hne.
  - cbn [append_each] in H.
    destruct (segment_append key value seg files) as [[[seg1 files1] off]|] eqn:Happ;
      [|discriminate H].
    cbn [mbind result_bind] in H.
    destruct (append_each rest seg1 files1) as [[[seg2 files2] offs]|] eqn:Hrest;
      [|discriminate H].
    cbn [mbind result_bind] in H. injection H as <- <- <-.
    pose proof (segment_append_sized key value seg seg1 files files1 off Hs Happ)
      as Hs1.
    apply segment_append_inv in Happ as (rec & Hrec & -> & -> & ->).
    destruct (IH _ _ _ _ _ Hs1 Hrest)
      as (triples & Htr & Hok & Hpath & Hfile & Hnil & Hsome & Hitems).
    cbn [path size] in *. rewrite lookup_insert_eq in Hfile.
    cbn [default from_option id] in Hfile.
    exists ((key, value, rec) :: triples).
    split; [cbn; now rewrite Htr|].
    split; [constructor; [exact Hrec|exact Hok]|].
    split; [exact Hpath|].
    split; [cbn [fmap list_fmap concat snd]; now rewrite Hfile, <- app_assoc|].
    split; [discriminate|].
    split.
    { intros _. destruct rest as [|r rest'].
      - rewrite (Hnil eq_refl), lookup_insert_eq. eauto.
      - apply Hsome. discriminate. }
    cbn [items_at zip_with fst snd]. f_equal. exact Hitems.
Qed.

(** [LogSegment.iterate] after appending records to a segment with no file
    yields exactly the appended records, in order, each at the offset its
    [append] returned and with the deleted flag of a [None] value. *)
Theorem iterate_after_appends (recs : list (string * option string))
  (seg seg' : LogSegment) (files files' : Files) (offsets : list Z) :
  files !! path seg = None → size seg = 0 →
  append_each recs seg files = Ok (seg', files', offsets) →
  iterate seg' files'
  = Ok (zip_with (λ off r, (off, r.1, r.2, is_tombstone r.2)) offsets recs).
Proof.
  intros Hnone Hzero H.
  destruct (append_each_spec recs seg seg' files files' offsets) as
    (triples & Htr & Hok & Hpath & Hfile & Hnil & Hsome & Hitems);
    [unfold sized; now rewrite Hnone, Hzero|exact H|].
  rewrite Hzero in Hitems. rewrite <- Hitems.
  destruct recs as [|r rest].
  - destruct triples; [|discriminate Htr]. cbn [items_at].
    unfold iterate. now rewrite Hpath, (Hnil eq_refl), Hnone.
  - apply iterate_records; [|exact Hok].
    destruct Hsome as [d Hd]; [discriminate|].
    rewrite Hpath, Hd. rewrite Hd, Hnone in Hfile. cbn in Hfile. now rewrite Hfile.
Qed.

Lemma iterate_after_appends_witness :
  let seg := segment_new ∅ "segment_000000.log" 0 in
  ∃ seg' files',
    append_each [("a", Some "1"); ("b", None); ("a", Some "22")]%string seg ∅
    = Ok (seg', files', [0; 11; 21])
    ∧ iterate seg' files'
      = Ok [(0, "a", Some "1", false); (11, "b", None, true);
            (21, "a", Some "22", false)]%string.
Proof.
  intros seg. eexists _, _. split; [reflexivity|].
  apply (iterate_after_appends
           [("a", Some "1"); ("b", None); ("a", Some "22")]%string seg _ ∅ _
           [0; 11; 21]); reflexivity.
Defined.

End SegmentRoundTrip.

(** ** The log store: [put] and the choice of the segments to compact *)

Section StoreProps.

Import Index Storage Claims StoreSpec.

Lemma put_inv (key : string) (value : option string) (st st' : LogStore)
  (loc : Z * Z) :
  put key value st = Ok (st', loc) →
  ∃ st1 a rec,
    (st1 = st ∨ st1 = _create_new_segment st)
    ∧ active_segment st1 = Some a
    ∧ record_bytes key value = Ok rec
    ∧ st' = mkLogStore
              (<[path (heap st1 !!! a) :=
                   default [] (fs st !! path (heap st1 !!! a)) ++ rec]> (fs st))
              (<[a := mkSegment (path (heap st1 !!! a))
                        (segment_id (heap st1 !!! a))
                        (size (heap st1 !!! a) + len rec)]> (heap st1))
              (segments st1) (Some a)
    ∧ loc = (segment_id (heap st1 !!! a), size (heap st1 !!! a)).
Proof.
  unfold put. destruct (active_segment st) as [a0|] eqn:Ha0; [|discriminate].
  cbv zeta.
  set (st1 := if is_full (heap st !!! a0) then _create_new_segment st else st).
  assert (Hst1 : st1 = st ∨ st1 = _create_new_segment st)
    by (subst st1; destruct (is_full _); auto).
  assert (Hfs : fs st1 = fs st) by (destruct Hst1 as [->| ->]; reflexivity).
  destruct (active_segment st1) as [a|] eqn:Ha; [|discriminate].
  unfold segment_append.
  destruct (record_bytes key value) as [rec|] eqn:Hrec; [|discriminate].
  cbn [mbind result_bind]. rewrite Hfs. intros H. injection H as <- <-.
  exists st1, a, rec. auto.
Qed.

Lemma put_appends_files (key : string) (value : option string)
  (st st' : LogStore) (loc : Z * Z) :
  put key value st = Ok (st', loc) →
  ∀ p data, fs st !! p = Some data →
            ∃ more, fs st' !! p = Some (data ++ more).
Proof.
  intros H. apply put_inv in H as (st1 & a & rec & Hst1 & Ha & Hrec & -> & _).
  cbn [fs]. intros p data Hp.
  destruct (decide (p = path (heap st1 !!! a))) as [->|Hne].
  - rewrite lookup_insert_eq, Hp. cbn. eauto.
  - rewrite lookup_insert_ne by congruence. exists []. now rewrite app_nil_r.
Qed.

(** [put] only appends: the files that were there are still there, each
    with its bytes at the front, and the list of segments has grown at its
    end at most. *)
Theorem put_appends_only (key : string) (value : option string)
  (st st' : LogStore) (loc : Z * Z) :
  put key value st = Ok (st', loc) →
  (∀ p data, fs st !! p = Some data →
             ∃ more, fs st' !! p = Some (data ++ more))
  ∧ segments st `prefix_of` segments st'.
Proof.
  intros H. split; [exact (put_appends_files _ _ _ _ _ H)|].
  apply put_inv in H as (st1 & a & rec & Hst1 & Ha & Hrec & -> & _).
  cbn [segments].
  destruct Hst1 as [->| ->]; [reflexivity|]. cbn. now apply prefix_app_r.
Qed.

Lemma put_appends_only_witness :
  let st := mkLogStore {["segment_000000.log"%string := [x00]]}
              [mkSegment "segment_000000.log" 0 1] [0%nat] (Some 0%nat) in
  ∃ st', put "b" (Some "2"%string) st = Ok (st', (0, 1))
         ∧ ∃ more, fs st' !! "segment_000000.log"%string = Some ([x00] ++ more).
Proof.
  intros st. eexists. split; [reflexivity|].
  eapply (put_appends_only "b" (Some "2"%string) st _ (0, 1)); reflexivity.
Defined.

Lemma get_segments_to_compact_length (threshold : Z) (st : LogStore) :
  0 ≤ threshold →
  (length (get_segments_to_compact threshold st)
   ≤ Nat.min (Z.to_nat threshold) (length (segments st) - 1))%nat.
Proof.
  intros H. unfold get_segments_to_compact, slice_to, all_but_last.
  destruct (Z.leb_spec 0 threshold); [|lia].
  rewrite length_take.
  pose proof (length_filter (λ r, Some r ≠ active_segment st)
                (take (length (segments st) - 1) (segments st))) as Hf.
  rewrite length_take in Hf. lia.
Qed.

Lemma get_segments_to_compact_sublist (threshold : Z) (st : LogStore) :
  0 ≤ threshold →
  sublist (get_segments_to_compact threshold st) (segments st).
Proof.
  intros H. unfold get_segments_to_compact, slice_to, all_but_last.
  destruct (Z.leb_spec 0 threshold); [|lia].
  etrans; [apply sublist_take|]. etrans; [apply sublist_filter|].
  apply sublist_take.
Qed.

(** [get_segments_to_compact(threshold)] for a threshold that is not
    negative: the segments it returns are segments of the list, in its
    order; the active segment is none of them; there are [threshold] of
    them at most. *)
Theorem segments_to_compact_spec (threshold : Z) (st : LogStore) :
  0 ≤ threshold →
  sublist (get_segments_to_compact threshold st) (segments st)
  ∧ (∀ a, active_segment st = Some a →
          a ∉ get_segments_to_compact threshold st)
  ∧ len (get_segments_to_compact threshold st) ≤ threshold.
Proof.
  intros H. split; [|split].
  - now apply get_segments_to_compact_sublist.
  - intros a Ha Hin. unfold get_segments_to_compact, slice_to in Hin.
    destruct (Z.leb_spec 0 threshold); [|lia].
    apply elem_of_take in Hin as (i & Hi & _).
    apply list_elem_of_lookup_2, list_elem_of_filter in Hi as [Hne _].
    now rewrite Ha in Hne.
  - pose proof (get_segments_to_compact_length threshold st H). unfold len. lia.
Qed.

Lemma segments_to_compact_spec_witness :
  let st := mkLogStore ∅
              [mkSegment "segment_000000.log" 0 0;
               mkSegment "segment_000001.log" 1 0;
               mkSegment "segment_000002.log" 2 0;
               mkSegment "segment_000003.log" 3 0]
              [0; 1; 2; 3]%nat (Some 1%nat) in
  get_segments_to_compact 2 st = [0; 2]%nat
  ∧ 1%nat ∉ get_segments_to_compact 2 st.
Proof.
  intros st. split; [reflexivity|].
  apply (segments_to_compact_spec 2 st); [lia|reflexivity].
Defined.

(** A compaction needs two closed segments: on a store of fewer than three
    segments [compact] returns [False] and changes nothing. *)
Theorem compact_needs_three_segments (st : LogStore) :
  (length (segments st) < 3)%nat → compact st = Ok (st, false).
Proof.
  intros H. unfold compact.
  pose proof (get_segments_to_compact_length 2 st ltac:(lia)) as Hl.
  destruct (Z.ltb_spec (len (get_segments_to_compact 2 st)) 2) as [_|Hge];
    [reflexivity|].
  unfold len in Hge. lia.
Qed.

Lemma compact_needs_three_segments_witness :
  compact (mkLogStore {["segment_000000.log"%string := [x00]]}
             [mkSegment "segment_000000.log" 0 1;
              mkSegment "segment_000001.log" 1 0]
             [0; 1]%nat (Some 1%nat))
  = Ok (mkLogStore {["segment_000000.log"%string := [x00]]}
          [mkSegment "segment_000000.log" 0 1;
           mkSegment "segment_000001.log" 1 0]
          [0; 1]%nat (Some 1%nat), false).
Proof.
  apply compact_needs_three_segments. cbn. lia.
Defined.

End StoreProps.

(** ** Compaction and [replace_segments] *)

Section CompactProps.

Import Index Storage Claims StoreSpec.

Lemma min_id_attained (st : LogStore) (segs : list Ref) :
  segs ≠ [] →
  ∃ r, r ∈ segs ∧ segment_id (heap st !!! r) = min_id st segs.
Proof.
  destruct segs as [|r0 rest]; [congruence|]. intros _. cbn [min_id].
  assert (H : ∀ (l : list Ref) (m : Z),
             foldl (λ m r', Z.min m (segment_id (heap st !!! r'))) m l = m
             ∨ ∃ r, r ∈ l
                    ∧ segment_id (heap st !!! r)
                      = foldl (λ m r', Z.min m (segment_id (heap st !!! r'))) m l).
  { induction l as [|r l IH]; intros m; cbn [foldl]; [now left|].
    destruct (IH (Z.min m (segment_id (heap st !!! r)))) as [Heq|(r' & Hin & Heq)].
    - rewrite Heq.
      destruct (Z.min_spec m (segment_id (heap st !!! r))) as [[_ ->]|[_ ->]];
        [now left|].
      right. exists r. split; [apply list_elem_of_here|reflexivity].
    - right. exists r'. split; [now apply list_elem_of_further|exact Heq]. }
  destruct (H rest (segment_id (heap st !!! r0))) as [Heq|(r & Hin & Heq)].
  - exists r0. split; [apply list_elem_of_here|now rewrite Heq].
  - exists r. split; [now apply list_elem_of_further|exact Heq].
Qed.

Lemma unlink_all_none (hp : list LogSegment) (olds : list Ref) :
  ∀ (files : Files) (p : string),
    files !! p = None → unlink_all hp olds files !! p = None.
Proof.
  induction olds as [|r rest IH]; intros files p Hp; cbn [unlink_all]; [exact Hp|].
  apply IH. destruct (files !! path (hp !!! r)); [|exact Hp].
  rewrite lookup_delete_None. now right.
Qed.

Lemma unlink_all_removes (hp : list LogSegment) (olds : list Ref) :
  ∀ (files : Files) (r : Ref),
    r ∈ olds → unlink_all hp olds files !! path (hp !!! r) = None.
Proof.
  induction olds as [|r0 rest IH]; intros files r Hr; [now apply elem_of_nil in Hr|].
  cbn [unlink_all]. apply elem_of_cons in Hr as [->|Hr]; [|now apply IH].
  apply unlink_all_none.
  destruct (files !! path (hp !!! r0)) eqn:Hp; [|exact Hp].
  apply lookup_delete_eq.
Qed.

Lemma append_sorted_keeps (merged : gmap string string) (keys : list string) :
  ∀ (seg seg' : LogSegment) (files files' : Files),
    append_sorted merged keys seg files = Ok (seg', files') →
    segment_id seg' = segment_id seg ∧ path seg' = path seg.
Proof.
  induction keys as [|key rest IH]; intros seg seg' files files' H;
    cbn [append_sorted] in H.
  - injection H as <- <-. auto.
  - destruct (merged !! key) as [v|]; [|discriminate H].
    destruct (segment_append key (Some v) seg files) as [[[seg1 files1] off]|] eqn:Happ;
      [|discriminate H].
    cbn [mbind result_bind] in H.
    apply segment_append_inv in Happ as (rec & _ & -> & _ & _).
    apply IH in H as [H1 H2]. cbn in H1, H2. auto.
Qed.

Lemma compact_inv (st st' : LogStore) :
  compact st = Ok (st', true) →
  let segs := get_segments_to_compact 2 st in
  ∃ new_segment fs2,
    2 ≤ len segs
    ∧ path new_segment = segment_path (min_id st segs)
    ∧ segment_id new_segment = min_id st segs
    ∧ st' = replace_segments segs (length (heap st))
              (mkLogStore fs2 (heap st ++ [new_segment]) (segments st)
                 (active_segment st)).
Proof.
  unfold compact. cbv zeta.
  destruct (Z.ltb_spec (len (get_segments_to_compact 2 st)) 2) as [|Hlen];
    [discriminate|].
  destruct (merge_segments st (get_segments_to_compact 2 st) ∅) as [merged|];
    [|discriminate].
  cbn [mbind result_bind].
  destruct (decide (merged = ∅)); [discriminate|].
  destruct (append_sorted _ _ _ _) as [[new1 fs1]|] eqn:Happ; [|discriminate].
  cbn [mbind result_bind].
  destruct (rename _ _ fs1) as [fs2|]; [|discriminate].
  cbn [mbind result_bind]. intros H. injection H as <-.
  apply append_sorted_keeps in Happ as [Hid _].
  cbn [segment_id segment_new] in Hid.
  exists (mkSegment (segment_path (min_id st (get_segments_to_compact 2 st)))
            (segment_id new1) (size new1)), fs2.
  split; [exact Hlen|]. split; [reflexivity|].
  split; [exact Hid|reflexivity].
Qed.

(** A compaction that has run leaves the store without the file of the
    segment it has made, when the files of the segments are named after
    their ids: the output is renamed to the name of the compacted segment
    with the least id, and the files of the compacted segments are unlinked
    after that. *)
Theorem compact_unlinks_its_output (st st' : LogStore) :
  named_by_id st →
  compact st = Ok (st', true) →
  ∃ seg, heap st' !! length (heap st) = Some seg
         ∧ length (heap st) ∈ segments st'
         ∧ segment_id seg = min_id st (get_segments_to_compact 2 st)
         ∧ path seg = segment_path (segment_id seg)
         ∧ fs st' !! path seg = None.
Proof.
  intros Hnamed H.
  pose proof (compact_inv st st' H) as (new & fs2 & Hlen & Hpath & Hid & ->).
  set (segs := get_segments_to_compact 2 st) in *.
  assert (Hsub : ∀ r, r ∈ segs → r ∈ segments st).
  { intros r Hr.
    pose proof (get_segments_to_compact_sublist 2 st ltac:(lia)) as Hs.
    eapply sublist_subseteq; [exact Hs|exact Hr]. }
  assert (Hne : segs ≠ []).
  { intros Heq. rewrite Heq in Hlen. unfold len in Hlen. cbn in Hlen. lia. }
  destruct (min_id_attained st segs Hne) as (r & Hr & Hmin).
  destruct (Hnamed r (Hsub r Hr)) as (seg & Hseg & Hname).
  pose proof (list_lookup_total_correct _ _ _ Hseg) as Htot.
  rewrite Htot in Hmin.
  exists new. unfold replace_segments. cbn [heap fs segments active_segment].
  split; [now apply list_lookup_middle|].
  split.
  { unfold list_insert_at. apply elem_of_app. right. apply list_elem_of_here. }
  split; [exact Hid|]. split; [now rewrite Hid|].
  assert (Hr' : (heap st ++ [new]) !!! r = seg).
  { apply list_lookup_total_correct, lookup_app_l_Some, Hseg. }
  rewrite Hpath, <- Hmin, <- Hname, <- Hr'.
  now apply unlink_all_removes.
Qed.

Lemma compact_unlinks_its_output_witness :
  let st := mkLogStore
              {["segment_000000.log"%string := [x00; x00; x00; x01; x00; x00; x00; x01; x00; x61; x31];
                "segment_000001.log"%string := [x00; x00; x00; x01; x00; x00; x00; x01; x00; x62; x32]]}
              [mkSegment "segment_000000.log" 0 11;
               mkSegment "segment_000001.log" 1 11;
               mkSegment "segment_000002.log" 2 0]
              [0; 1; 2]%nat (Some 2%nat) in
  ∃ st', compact st = Ok (st', true)
         ∧ segments st' = [3; 2]%nat
         ∧ ∃ seg, heap st' !! 3%nat = Some seg ∧ fs st' !! path seg = None.
Proof.
  intros st.
  assert (Hn : named_by_id st).
  { intros r Hr. cbn in Hr.
    repeat (apply elem_of_cons in Hr as [->|Hr]); [eauto..|].
    now apply elem_of_nil in Hr. }
  eexists. split; [vm_compute; reflexivity|].
  split; [reflexivity|].
  match goal with
  | |- ∃ seg, heap ?s !! _ = _ ∧ _ =>
      destruct (compact_unlinks_its_output st s Hn eq_refl)
        as (seg & Hseg & _ & _ & _ & Hnone)
  end.
  exists seg. split; [exact Hseg|exact Hnone].
Defined.

Lemma StronglySorted_sublist {A : Type} (R : relation A) (l k : list A) :
  l `sublist_of` k → StronglySorted R k → StronglySorted R l.
Proof.
  induction 1 as [|x l k Hs IH|x l k Hs IH]; intros Hk.
  - constructor.
  - apply StronglySorted_inv in Hk as [Hk Hall].
    constructor; [now apply IH|].
    rewrite Forall_forall in *. intros y Hy. apply Hall.
    eapply elem_of_sublist; eassumption.
  - apply StronglySorted_inv in Hk as [Hk _]. now apply IH.
Qed.

Lemma insert_pos_loop_ge (hp : list LogSegment) (new_id : Z) (segs : list Ref) :
  ∀ i, (i ≤ insert_pos_loop hp new_id i segs i)%nat.
Proof.
  induction segs as [|r rest IH]; intros i; cbn [insert_pos_loop]; [lia|].
  destruct (new_id <? segment_id (hp !!! r)); [lia|].
  specialize (IH (S i)). lia.
Qed.

Lemma insert_sorted (hp : list LogSegment) (new : Ref) (segs : list Ref) :
  ∀ i,
    StronglySorted Z.le ((λ r, segment_id (hp !!! r)) <$> segs) →
    StronglySorted Z.le
      ((λ r, segment_id (hp !!! r))
         <$> list_insert_at
               (insert_pos_loop hp (segment_id (hp !!! new)) i segs i - i) new segs).
Proof.
  induction segs as [|r rest IH]; intros i Hs; cbn [insert_pos_loop].
  - rewrite Nat.sub_diag. cbn. repeat constructor.
  - destruct (Z.ltb_spec (segment_id (hp !!! new)) (segment_id (hp !!! r))) as [Hlt|Hge].
    + rewrite Nat.sub_diag. unfold list_insert_at. cbn [take drop app fmap list_fmap].
      constructor; [exact Hs|].
      apply StronglySorted_inv in Hs as [_ Hall].
      constructor; [lia|].
      eapply Forall_impl; [exact Hall|]. cbn. intros; lia.
    + pose proof (insert_pos_loop_ge hp (segment_id (hp !!! new)) rest (S i)) as Hle.
      replace (insert_pos_loop hp (segment_id (hp !!! new)) (S i) rest (S i) - i)%nat
        with (S (insert_pos_loop hp (segment_id (hp !!! new)) (S i) rest (S i) - S i))
        by lia.
      apply StronglySorted_inv in Hs as [Hs Hall].
      specialize (IH (S i) Hs).
      unfold list_insert_at in *. cbn [take drop app fmap list_fmap].
      constructor; [exact IH|].
      rewrite fmap_app, fmap_cons, Forall_app, Forall_cons.
      set (k := (insert_pos_loop hp (segment_id (hp !!! new)) (S i) rest (S i) - S i)%nat).
      assert (Hall' : Forall (Z.le (segment_id (hp !!! r)))
                        ((λ r, segment_id (hp !!! r)) <$> (take k rest ++ drop k rest)))
        by now rewrite take_drop.
      rewrite fmap_app, Forall_app in Hall'.
      destruct Hall' as [H1 H2]. split; [exact H1|]. split; [lia|exact H2].
Qed.

(** [replace_segments] keeps the list of segments in the order of the ids:
    the new segment is inserted in front of the first segment with a
    larger id. *)
Theorem replace_segments_sorted (olds : list Ref) (new : Ref) (st : LogStore) :
  StronglySorted Z.le (segment_ids st) →
  StronglySorted Z.le (segment_ids (replace_segments olds new st)).
Proof.
  intros Hs. unfold segment_ids, replace_segments. cbn [heap segments].
  set (keep := filter _ (segments st)).
  rewrite <- (Nat.sub_0_r (insert_pos_loop _ _ _ _ _)).
  apply insert_sorted.
  eapply (StronglySorted_sublist Z.le); [|exact Hs].
  apply fmap_sublist, sublist_filter.
Qed.

Lemma replace_segments_sorted_witness :
  let st := mkLogStore ∅
              [mkSegment "segment_000000.log" 0 0;
               mkSegment "segment_000001.log" 1 0;
               mkSegment "segment_000003.log" 3 0;
               mkSegment "segment_000001.log" 1 0]
              [0; 1; 2]%nat (Some 2%nat) in
  segments (replace_segments [1%nat] 3%nat st) = [0; 3; 2]%nat
  ∧ StronglySorted Z.le (segment_ids (replace_segments [1%nat] 3%nat st)).
Proof.
  intros st. split; [reflexivity|].
  apply (replace_segments_sorted [1%nat] 3%nat st).
  unfold segment_ids. cbn.
  repeat first [apply SSorted_nil | apply SSorted_cons
               | apply Forall_nil_2 | apply Forall_cons_2 | lia].
Defined.

End CompactProps.

(** ** The names of the segment files *)

Section NameFacts.

Import Index Storage Claims StoreSpec.

Lemma string_length_append (s t : string) :
  String.length (s ++ t) = (String.length s + String.length t)%nat.
Proof. induction s as [|c s IH]; simpl; [reflexivity|]. now rewrite IH. Qed.

Lemma substring_prefix (s t : string) :
  String.substring 0 (String.length s) (s ++ t) = s.
Proof.
  induction s as [|c s IH]; simpl; [now destruct t|]. now rewrite IH.
Qed.

Lemma substring_skip (s t : string) (m : nat) :
  String.substring (String.length s) m (s ++ t) = String.substring 0 m t.
Proof. induction s as [|c s IH]; simpl; [reflexivity|]. exact IH. Qed.

Lemma substring_all (s : string) :
  String.substring 0 (String.length s) s = s.
Proof. induction s as [|c s IH]; simpl; [reflexivity|]. now rewrite IH. Qed.

Lemma digits_value_uint (d : Decimal.uint) :
  ∀ acc,
    digits_value (NilEmpty.string_of_uint d) acc
    = Ok (Z.of_N (Unsigned.of_lu (Decimal.rev d))
          + acc * 10 ^ Z.of_N (Unsigned.usize d)).
Proof.
  induction d as [|d IH|d IH|d IH|d IH|d IH|d IH|d IH|d IH|d IH|d IH]; intros acc;
    [cbn; f_equal; lia|..];
    cbn [NilEmpty.string_of_uint digits_value]; cbv zeta;
    match goal with
    | |- context [Z.of_N (N_of_ascii ?c) - 48] =>
        let v := eval vm_compute in (Z.of_N (N_of_ascii c) - 48) in
        change (Z.of_N (N_of_ascii c) - 48) with v
    end;
    cbn [Z.leb Z.compare Pos.compare Pos.compare_cont andb];
    unfold Decimal.rev; cbn [Decimal.revapp];
    rewrite Unsigned.of_lu_revapp; cbn [Unsigned.of_lu Unsigned.usize];
    rewrite IH; f_equal;
    rewrite N2Z.inj_add, N2Z.inj_mul, N2Z.inj_pow, N2Z.inj_succ,
      Z.pow_succ_r by lia;
    change (Z.of_N 10) with 10;
    generalize (10 ^ Z.of_N (Unsigned.usize d));
    generalize (Z.of_N (Unsigned.of_lu (Decimal.rev d)));
    intros a p; cbn; lia.
Qed.

Lemma digits_value_decimal (n : Z) :
  0 ≤ n → digits_value (decimal n) 0 = Ok n.
Proof.
  intros Hn. unfold decimal, NilZero.string_of_uint.
  assert (H : digits_value (NilEmpty.string_of_uint (N.to_uint (Z.to_N n))) 0 = Ok n).
  { rewrite digits_value_uint, <- Unsigned.of_uint_alt.
    change (Pos.of_uint (N.to_uint (Z.to_N n))) with (N.of_uint (N.to_uint (Z.to_N n))).
    rewrite DecimalN.Unsigned.of_to. f_equal. lia. }
  destruct (N.to_uint (Z.to_N n)); exact H.
Qed.

Lemma decimal_nonempty (n : Z) : ∃ c rest, decimal n = String c rest.
Proof.
  unfold decimal, NilZero.string_of_uint.
  destruct (N.to_uint (Z.to_N n)); cbn; eauto.
Qed.

Lemma digits_value_app (s t : string) :
  ∀ acc, digits_value (s ++ t) acc
         = match digits_value s acc with
           | Ok v => digits_value t v
           | Raise e => Raise e
           end.
Proof.
  induction s as [|c s IH]; intros acc; simpl; [reflexivity|].
  destruct (_ && _); [apply IH|reflexivity].
Qed.

Lemma digits_value_zeros (k : nat) :
  digits_value (string_of_list_ascii (replicate k "0"%char)) 0 = Ok 0.
Proof. induction k as [|k IH]; [reflexivity|]. cbn. exact IH. Qed.

Lemma digits_value_fmt06d (n : Z) :
  0 ≤ n → digits_value (fmt06d n) 0 = Ok n.
Proof.
  intros Hn. unfold fmt06d. destruct (Z.ltb_spec n 0); [lia|].
  unfold zfill. rewrite digits_value_app, digits_value_zeros.
  now apply digits_value_decimal.
Qed.

Lemma fmt06d_nonempty (n : Z) : 0 ≤ n → ∃ c rest, fmt06d n = String c rest.
Proof.
  intros Hn. unfold fmt06d. destruct (Z.ltb_spec n 0); [lia|]. unfold zfill.
  destruct (decimal_nonempty n) as (c & rest & ->).
  destruct (6 - String.length (String c rest))%nat; simpl; eauto.
Qed.

Lemma py_int_digits (s : string) (v : Z) :
  s ≠ ""%string → digits_value s 0 = Ok v → py_int s = Ok v.
Proof.
  destruct s as [|c rest]; [congruence|]. intros _ H.
  destruct c as [[] [] [] [] [] [] [] []]; try exact H; cbn in H; discriminate H.
Qed.

Lemma until_underscore_digits (s : string) :
  ∀ acc v, digits_value s acc = Ok v → until_underscore s = s.
Proof.
  induction s as [|c s IH]; intros acc v H; [reflexivity|].
  cbn [digits_value] in H. cbv zeta in H. cbn [until_underscore].
  destruct (Ascii.eqb_spec c "_") as [->|_]; [cbn in H; discriminate H|].
  destruct (_ && _); [|discriminate H]. f_equal. eapply IH, H.
Qed.

Lemma string_append_assoc (s t u : string) :
  ((s ++ t) ++ u = s ++ (t ++ u))%string.
Proof.
  induction s as [|c s IH]; [reflexivity|].
  change (String c ((s ++ t) ++ u) = String c (s ++ (t ++ u)))%string.
  now rewrite IH.
Qed.

Lemma segment_path_stem (d : string) :
  String.substring 0 (String.length ("segment_" ++ d ++ ".log") - 4)
    ("segment_" ++ d ++ ".log")
  = ("segment_" ++ d)%string.
Proof.
  replace (String.length ("segment_" ++ d ++ ".log") - 4)%nat
    with (String.length ("segment_" ++ d))
    by (rewrite !string_length_append; simpl; lia).
  rewrite <- (string_append_assoc "segment_" d ".log").
  apply substring_prefix.
Qed.

Lemma id_part_segment_path (n : Z) :
  0 ≤ n → id_part (segment_path n) = fmt06d n.
Proof.
  intros Hn. unfold id_part, segment_path. cbv zeta.
  rewrite segment_path_stem.
  replace (String.length ("segment_" ++ fmt06d n) - 8)%nat
    with (String.length (fmt06d n))
    by (rewrite string_length_append; simpl; lia).
  rewrite (substring_skip "segment_" (fmt06d n)), substring_all.
  eapply until_underscore_digits, digits_value_fmt06d, Hn.
Qed.

Lemma glob_segment_path (n : Z) : glob_segment (segment_path n) = true.
Proof.
  unfold glob_segment, segment_path.
  replace (String.length ("segment_" ++ fmt06d n ++ ".log") - 4)%nat
    with (String.length ("segment_" ++ fmt06d n))
    by (rewrite !string_length_append; simpl; lia).
  rewrite <- (string_append_assoc "segment_" (fmt06d n) ".log").
  rewrite substring_skip.
  rewrite string_append_assoc.
  assert (Hlen : (12 <=? String.length ("segment_" ++ fmt06d n ++ ".log"))%nat = true).
  { apply Nat.leb_le. rewrite !string_length_append. simpl. lia. }
  rewrite Hlen. destruct (fmt06d n ++ ".log")%string; reflexivity.
Qed.

Lemma id_of_segment_path (n : Z) :
  0 ≤ n → py_int (id_part (segment_path n)) = Ok n.
Proof.
  intros Hn. rewrite id_part_segment_path by exact Hn.
  apply py_int_digits; [|now apply digits_value_fmt06d].
  destruct (fmt06d_nonempty n Hn) as (c & rest & ->). discriminate.
Qed.

Lemma segment_path_inj (i j : Z) :
  0 ≤ i → 0 ≤ j → segment_path i = segment_path j → i = j.
Proof.
  intros Hi Hj Heq.
  pose proof (id_of_segment_path i Hi) as H1.
  pose proof (id_of_segment_path j Hj) as H2.
  rewrite Heq, H2 in H1. now injection H1.
Qed.

(** The name [_create_new_segment] gives to the file of segment [n] matches
    the pattern that [_load_segments] globs for, and the id parsed from it
    is [n]. *)
Theorem segment_name_round_trip (n : Z) :
  0 ≤ n →
  glob_segment (segment_path n) = true
  ∧ py_int (id_part (segment_path n)) = Ok n.
Proof.
  intros Hn. split; [apply glob_segment_path|now apply id_of_segment_path].
Qed.

Lemma segment_name_round_trip_witness :
  segment_path 1234567 = "segment_1234567.log"%string
  ∧ glob_segment (segment_path 1234567) = true
  ∧ py_int (id_part (segment_path 1234567)) = Ok 1234567.
Proof.
  split; [reflexivity|]. apply (segment_name_round_trip 1234567). lia.
Defined.

End NameFacts.

(** ** The engine under [put] and [delete] *)

Section EngineProps.

Import Index Storage Claims StoreSpec.

Section Updates.

Variable hash : string → Z.

Lemma create_store_inv (st : LogStore) :
  store_inv st → store_inv (_create_new_segment st).
Proof.
  intros [Hseg Hact Hne Hheap]. unfold _create_new_segment.
  assert (Hlen : len (segments st) = Z.of_nat (length (heap st))).
  { unfold len. now rewrite Hseg, length_seq. }
  split; cbn [segments heap active_segment fs].
  - rewrite length_app, Hseg. cbn [length]. rewrite Nat.add_1_r, seq_S.
    reflexivity.
  - rewrite length_app. cbn [length]. f_equal. lia.
  - now destruct (heap st).
  - intros i seg Hi. apply lookup_app_Some in Hi as [Hi|[Hge Hi]].
    + now apply Hheap.
    + destruct (i - length (heap st))%nat as [|j] eqn:Hj; [|discriminate Hi].
      cbn in Hi. injection Hi as <-. rewrite Hlen.
      assert (i = length (heap st)) as -> by lia.
      split; [reflexivity|]. split; [reflexivity|]. apply segment_new_sized.
Qed.

Lemma put_store_inv (key : string) (value : option string)
  (st st' : LogStore) (loc : Z * Z) :
  store_inv st → put key value st = Ok (st', loc) →
  store_inv st'
  ∧ (length (heap st) ≤ length (heap st'))%nat
  ∧ (∀ p data, fs st !! p = Some data →
               ∃ more, fs st' !! p = Some (data ++ more))
  ∧ ∀ v, value = Some v → located st' key v loc.
Proof.
  intros Hinv H.
  pose proof (put_appends_files key value st st' loc H) as Hgrow.
  apply put_inv in H as (st1 & a & rec & Hst1 & Ha & Hrec & -> & ->).
  assert (Hinv1 : store_inv st1)
    by (destruct Hst1 as [->| ->]; [exact Hinv|now apply create_store_inv]).
  assert (Hfs : fs st1 = fs st) by (destruct Hst1 as [->| ->]; reflexivity).
  assert (Hlen1 : (length (heap st) ≤ length (heap st1))%nat).
  { destruct Hst1 as [->| ->]; [lia|]. cbn. rewrite length_app. lia. }
  destruct Hinv1 as [Hseg Hact Hne Hheap].
  rewrite Hact in Ha. injection Ha as <-.
  assert (Hlt : (length (heap st1) - 1 < length (heap st1))%nat)
    by (destruct (heap st1); [congruence|cbn; lia]).
  destruct (lookup_lt_is_Some_2 _ _ Hlt) as [seg Hs].
  rewrite (list_lookup_total_correct _ _ _ Hs) in *.
  destruct (Hheap _ _ Hs) as (Hid & Hpath & Hsized).
  set (a := (length (heap st1) - 1)%nat) in *.
  split; [|split; [|split]].
  - split; cbn [segments heap active_segment fs].
    + now rewrite length_insert.
    + now rewrite length_insert.
    + intros Heq. apply (f_equal length) in Heq.
      rewrite length_insert in Heq. cbn in Heq. lia.
    + intros i seg' Hi. destruct (decide (i = a)) as [->|Hia].
      * rewrite list_lookup_insert_eq in Hi by exact Hlt. injection Hi as <-.
        cbn [segment_id path]. split; [exact Hid|]. split; [exact Hpath|].
        unfold sized in *. cbn [path size]. rewrite lookup_insert_eq.
        cbn [default from_option id]. rewrite len_app, Hsized, Hfs.
        reflexivity.
      * rewrite list_lookup_insert_ne in Hi by congruence.
        destruct (Hheap _ _ Hi) as (Hid' & Hpath' & Hsized').
        split; [exact Hid'|]. split; [exact Hpath'|].
        unfold sized in *. rewrite lookup_insert_ne; [now rewrite <- Hfs|].
        rewrite Hpath, Hpath'. intros Heq.
        apply segment_path_inj in Heq; lia.
  - cbn [heap]. rewrite length_insert. exact Hlen1.
  - exact Hgrow.
  - intros v ->. exists a, (default [] (fs st !! path seg)), rec, [].
    cbn [heap fs]. rewrite length_insert.
    split; [f_equal; [exact Hid|]|].
    { unfold sized in Hsized. now rewrite Hsized, Hfs. }
    split; [exact Hlt|]. split; [|exact Hrec].
    rewrite <- Hpath, lookup_insert_eq, app_nil_r. reflexivity.
Qed.

Lemma located_grows (st st' : LogStore) (k v : string) (loc : Z * Z) :
  (length (heap st) ≤ length (heap st'))%nat →
  (∀ p data, fs st !! p = Some data →
             ∃ more, fs st' !! p = Some (data ++ more)) →
  located st k v loc → located st' k v loc.
Proof.
  intros Hlen Hgrow (i & pre & rec & post & -> & Hi & Hfile & Hrec).
  destruct (Hgrow _ _ Hfile) as [more Hmore].
  exists i, pre, rec, (post ++ more).
  split; [reflexivity|]. split; [lia|]. split; [|exact Hrec].
  rewrite Hmore. now rewrite <- !app_assoc.
Qed.

Lemma head_filter_seq (P : nat → Prop) `{∀ r, Decision (P r)} (i : nat) :
  ∀ (n s : nat),
    (s ≤ i < s + n)%nat →
    (∀ r, (s ≤ r < s + n)%nat → P r ↔ r = i) →
    head (filter P (seq s n)) = Some i.
Proof.
  induction n as [|n IH]; intros s Hi HP; [lia|].
  cbn [seq]. rewrite filter_cons. destruct (decide (P s)) as [Hs|Hs].
  - apply HP in Hs; [|lia]. now subst.
  - apply IH.
    + destruct (decide (s = i)) as [->|]; [|lia].
      exfalso. apply Hs, HP; [lia|reflexivity].
    + intros r Hr. apply HP. lia.
Qed.

Lemma get_segment_inv (st : LogStore) (i : nat) :
  store_inv st → (i < length (heap st))%nat →
  get_segment (Z.of_nat i) st = Some i.
Proof.
  intros [Hseg _ _ Hheap] Hi. unfold get_segment. rewrite Hseg.
  apply head_filter_seq; [lia|].
  intros r Hr.
  destruct (lookup_lt_is_Some_2 (heap st) r ltac:(lia)) as [seg Hs].
  rewrite (list_lookup_total_correct _ _ _ Hs).
  destruct (Hheap _ _ Hs) as (-> & _). lia.
Qed.

Lemma get_located_found (max_offset : N) (st : LogStore) (idx : HashIndex)
  (k v : string) (loc : Z * Z) :
  store_inv st → seekable max_offset st →
  hash_get k idx = Some loc → located st k v loc →
  get_located max_offset k st idx = Ok (Some v).
Proof.
  intros Hinv Hseek Hget (i & pre & rec & post & -> & Hi & Hfile & Hrec).
  unfold get_located. rewrite Hget, (get_segment_inv st i Hinv Hi).
  destruct (lookup_lt_is_Some_2 (heap st) i Hi) as [seg Hs].
  rewrite (list_lookup_total_correct _ _ _ Hs).
  destruct (inv_heap st Hinv _ _ Hs) as (_ & Hpath & Hsized).
  assert (Hpre : len pre ≤ size seg).
  { unfold sized in Hsized. rewrite Hsized, Hpath, Hfile.
    cbn [default from_option id]. rewrite !len_app.
    pose proof (len_nonneg rec). pose proof (len_nonneg post). lia. }
  unfold seekable in Hseek. rewrite Forall_forall in Hseek.
  destruct (Hseek seg (list_elem_of_lookup_2 _ _ _ Hs)) as [Hmax H63].
  rewrite (read_at_record max_offset seg (fs st) pre post k (Some v) rec);
    [|now rewrite Hpath|exact Hrec|lia|lia].
  cbn [mbind result_bind orb]. now rewrite bool_decide_eq_true_2.
Qed.

Lemma might_contain_ok (key : string) (b : BloomFilter) :
  well_sized b → ∃ mc, might_contain hash key b = Ok mc.
Proof.
  intros [Hs Hl]. unfold might_contain.
  induction (seqZ 0 (num_hashes b)) as [|i rest IH]; cbn [all_loop]; [eauto|].
  unfold hash_at. destruct (Z.eqb_spec (Index.size b) 0); [lia|].
  cbn [mbind result_bind].
  set (h := (hash key + i * hash (key ++ "_salt")) mod Index.size b).
  assert (0 ≤ h < Index.size b) by (apply Z.mod_pos_bound; lia).
  destruct (lookup_lt_is_Some_2 (bits b) (Z.to_nat h) ltac:(lia)) as [bit Hbit].
  rewrite (getitem_in_range (bits b) h bit (proj1 H) Hbit). cbn [mbind result_bind]. destruct bit; eauto.
Qed.

Lemma engine_init_inv (e : StorageEngine) :
  engine_init hash ∅ = Ok e → engine_inv hash e ∅.
Proof.
  intros H.
  destruct (engine_init_core hash ∅ _ core_init_fresh)
    as (e' & He' & Hst & Hidx & Hwf & _).
  rewrite H in He'. injection He' as <-. cbn [fst snd] in Hst, Hidx.
  split.
  - rewrite Hst. split; cbn; try reflexivity; try discriminate.
    intros [|i] seg Hi; [|discriminate Hi]. injection Hi as <-.
    repeat split.
  - rewrite Hidx. intros k. unfold hash_get. cbn. apply lookup_empty.
  - exact Hwf.
  - rewrite Hidx. unfold hash_get. cbn. intros k [x Hx].
    now rewrite lookup_empty in Hx.
Qed.

Lemma engine_step_inv (o : engine_op) (e e' : StorageEngine)
  (m : gmap string string) :
  is_update o → engine_inv hash e m → engine_step hash o e = Ok e' →
  engine_inv hash e' (apply_op m o).
Proof.
  intros Hup [Hst Hidx Hwf Hkeys].
  destruct o as [key value|key| |]; try (now destruct Hup);
    cbn [engine_step apply_op].
  - unfold engine_put.
    destruct (put key (Some value) (log_store e)) as [[st [sid off]]|] eqn:Hput;
      [|discriminate].
    cbn [mbind result_bind].
    destruct (add hash key (bloom e)) as [b|] eqn:Hadd; [|discriminate].
    cbn [mbind result_bind]. intros H. injection H as <-.
    destruct (put_store_inv _ _ _ _ _ Hst Hput) as (Hst' & Hlen & Hgrow & Hloc).
    split; cbn [log_store Storage.index bloom].
    + exact Hst'.
    + intros k. unfold hash_get, hash_put. cbn [Index.index].
      destruct (decide (k = key)) as [->|Hne].
      * rewrite !lookup_insert_eq. eauto.
      * rewrite !lookup_insert_ne by congruence.
        specialize (Hidx k). unfold hash_get in Hidx.
        destruct (Index.index (Storage.index e) !! k) as [loc|]; [|exact Hidx].
        destruct Hidx as (v & Hv & Hl). exists v. split; [exact Hv|].
        eapply located_grows; eassumption.
    + destruct (add_ok hash key (bloom e) Hwf) as (b' & Hb' & Hwf').
      rewrite Hadd in Hb'. now injection Hb' as <-.
    + intros k. unfold hash_get, hash_put. cbn [Index.index].
      destruct (decide (k = key)) as [->|Hne].
      * intros _. eapply add_contains, Hadd.
      * rewrite lookup_insert_ne by congruence. intros Hk.
        eapply add_keeps; [exact Hadd|]. now apply Hkeys.
  - unfold engine_delete, delete.
    destruct (put key None (log_store e)) as [[st loc]|] eqn:Hput; [|discriminate].
    cbn [mbind result_bind]. intros H. injection H as <-.
    destruct (put_store_inv _ _ _ _ _ Hst Hput) as (Hst' & Hlen & Hgrow & _).
    split; cbn [log_store Storage.index bloom].
    + exact Hst'.
    + intros k. unfold hash_get, hash_delete. cbn [Index.index].
      destruct (decide (k = key)) as [->|Hne].
      * rewrite !lookup_delete_eq. reflexivity.
      * rewrite !lookup_delete_ne by congruence.
        specialize (Hidx k). unfold hash_get in Hidx.
        destruct (Index.index (Storage.index e) !! k) as [loc'|]; [|exact Hidx].
        destruct Hidx as (v & Hv & Hl). exists v. split; [exact Hv|].
        eapply located_grows; eassumption.
    + exact Hwf.
    + intros k. unfold hash_get, hash_delete. cbn [Index.index].
      destruct (decide (k = key)) as [->|Hne].
      * rewrite lookup_delete_eq. intros [x Hx]. discriminate Hx.
      * rewrite lookup_delete_ne by congruence. apply Hkeys.
Qed.

Lemma engine_run_inv (ops : list engine_op) :
  ∀ (e e' : StorageEngine) (m : gmap string string),
    Forall is_update ops → engine_inv hash e m →
    engine_run hash ops e = Ok e' →
    engine_inv hash e' (foldl apply_op m ops).
Proof.
  induction ops as [|o rest IH]; intros e e' m Hup Hinv H; cbn [engine_run] in H.
  - now injection H as <-.
  - apply Forall_cons in Hup as [Ho Hrest].
    destruct (engine_step hash o e) as [e1|] eqn:Hstep; [|discriminate H].
    cbn [mbind result_bind] in H. cbn [foldl].
    eapply IH; [exact Hrest| |exact H].
    eapply engine_step_inv; eassumption.
Qed.

Lemma engine_get_inv (max_offset : N) (e : StorageEngine)
  (m : gmap string string) (k : string) :
  engine_inv hash e m → seekable max_offset (log_store e) →
  engine_get hash max_offset k e = Ok (m !! k).
Proof.
  intros [Hst Hidx Hwf Hkeys] Hseek. specialize (Hidx k). unfold engine_get.
  destruct (hash_get k (Storage.index e)) as [loc|] eqn:Hget.
  - destruct Hidx as (v & -> & Hloc).
    rewrite (Hkeys k) by (rewrite Hget; eauto). cbn [mbind result_bind negb].
    now apply (get_located_found _ _ _ k v loc).
  - rewrite Hidx. destruct (might_contain_ok k (bloom e) Hwf) as [mc ->].
    cbn [mbind result_bind]. destruct mc; cbn [negb]; [|reflexivity].
    unfold get_located. now rewrite Hget.
Qed.

(** On an engine that was opened on an empty directory and has seen calls
    of [put] and [delete] only, and whose segment sizes are offsets that
    [seek] accepts, [get(k)] returns the value of the last [put(k, _)] when
    no [delete(k)] has come after it, and [None] when there is no such
    [put]. *)
Theorem engine_get_after_updates (max_offset : N) (ops : list engine_op)
  (e0 e : StorageEngine) (k : string) :
  Forall is_update ops →
  engine_init hash ∅ = Ok e0 → engine_run hash ops e0 = Ok e →
  seekable max_offset (log_store e) →
  engine_get hash max_offset k e = Ok (contents ops !! k).
Proof.
  intros Hup Hinit Hrun Hseek. apply engine_get_inv; [|exact Hseek].
  eapply engine_run_inv; [exact Hup| |exact Hrun].
  now apply engine_init_inv.
Qed.

(** On such an engine [exists(k)] is [True] for the keys that [get] finds
    and for no others, and [keys()] lists these keys. *)
Theorem engine_exists_after_updates (ops : list engine_op)
  (e0 e : StorageEngine) (k : string) :
  Forall is_update ops →
  engine_init hash ∅ = Ok e0 → engine_run hash ops e0 = Ok e →
  engine_exists hash k e = Ok (bool_decide (is_Some (contents ops !! k)))
  ∧ (k ∈ engine_keys e ↔ is_Some (contents ops !! k)).
Proof.
  intros Hup Hinit Hrun.
  assert (Hinv : engine_inv hash e (contents ops)).
  { eapply engine_run_inv; [exact Hup| |exact Hrun]. now apply engine_init_inv. }
  destruct Hinv as [Hst Hidx Hwf Hkeys]. specialize (Hidx k).
  assert (Hsome : is_Some (hash_get k (Storage.index e))
                  ↔ is_Some (contents ops !! k)).
  { destruct (hash_get k (Storage.index e)) as [loc|].
    - destruct Hidx as (v & -> & _). split; eauto.
    - rewrite Hidx. split; intros [x Hx]; discriminate Hx. }
  split.
  - unfold engine_exists.
    destruct (might_contain_ok k (bloom e) Hwf) as [mc Hmc]. rewrite Hmc.
    cbn [mbind result_bind]. destruct mc.
    + f_equal. apply bool_decide_ext. exact Hsome.
    + f_equal. symmetry. apply bool_decide_eq_false_2. intros Hk.
      apply Hsome, Hkeys in Hk. unfold contains in Hk. congruence.
  - rewrite <- Hsome. unfold engine_keys, hash_keys, hash_get.
    rewrite list_elem_of_fmap. split.
    + intros ([k' loc] & -> & Hin). apply elem_of_map_to_list in Hin. eauto.
    + intros [loc Hloc]. exists (k, loc). split; [reflexivity|].
      now apply elem_of_map_to_list.
Qed.

End Updates.

Lemma engine_get_after_updates_witness :
  let hash := fun s : string => Z.of_nat (String.length s) in
  let ops := [Put "a" "1"; Put "b" "2"; Delete "a"; Put "b" "3"]%string in
  ∃ e0 e, engine_init hash ∅ = Ok e0 ∧ engine_run hash ops e0 = Ok e
          ∧ engine_get hash 4096 "b" e = Ok (Some "3"%string).
Proof.
  intros hash ops.
  destruct (engine_init_core hash ∅ _ core_init_fresh)
    as (e0 & H0 & Hst & Hidx & Hwf & _).
  assert (Hcore : ∃ c, core_run ops (log_store e0, Storage.index e0) = Ok c
                       ∧ seekable 4096 c.1).
  { rewrite Hst, Hidx. eexists. split; [vm_compute; reflexivity|].
    unfold seekable. cbn [fst heap].
    repeat (constructor; [cbn [size]; split; [lia|reflexivity]|]).
    constructor. }
  destruct Hcore as (c & Hcore & Hseek).
  destruct (engine_run_core hash ops e0 c Hwf ltac:(repeat constructor; auto) Hcore)
    as (e & H1 & Hl & _).
  exists e0, e. split; [exact H0|]. split; [exact H1|].
  rewrite <- Hl in Hseek.
  refine (engine_get_after_updates hash 4096 ops e0 e "b" _ H0 H1 Hseek).
  repeat constructor.
Defined.

Lemma engine_exists_after_updates_witness :
  let hash := fun s : string => Z.of_nat (String.length s) in
  let ops := [Put "a" "1"; Put "b" "2"; Delete "a"]%string in
  ∃ e0 e, engine_init hash ∅ = Ok e0 ∧ engine_run hash ops e0 = Ok e
          ∧ engine_exists hash "a" e = Ok false
          ∧ engine_exists hash "b" e = Ok true.
Proof.
  intros hash ops.
  destruct (engine_init_core hash ∅ _ core_init_fresh)
    as (e0 & H0 & Hst & Hidx & Hwf & _).
  assert (Hcore : ∃ c, core_run ops (log_store e0, Storage.index e0) = Ok c).
  { rewrite Hst, Hidx. eexists. vm_compute. reflexivity. }
  destruct Hcore as [c Hcore].
  destruct (engine_run_core hash ops e0 c Hwf ltac:(repeat constructor; auto) Hcore)
    as (e & H1 & _).
  assert (Hup : Forall is_update ops) by repeat constructor.
  exists e0, e. split; [exact H0|]. split; [exact H1|]. split.
  - exact (proj1 (engine_exists_after_updates hash ops e0 e "a" Hup H0 H1)).
  - exact (proj1 (engine_exists_after_updates hash ops e0 e "b" Hup H0 H1)).
Defined.

End EngineProps.

(** ** Raft: votes *)

Section RaftProps.

Import Raft RaftSpec.

Lemma apply_loop_frame (k : nat) :
  ∀ n n', apply_loop k n = Ok n' →
          current_term (raft_state n') = current_term (raft_state n)
          ∧ voted_for (raft_state n') = voted_for (raft_state n)
          ∧ log (raft_state n') = log (raft_state n)
          ∧ commit_index (raft_state n') = commit_index (raft_state n).
Proof.
  induction k as [|k IH]; intros n n' H; cbn [apply_loop] in H.
  - now injection H as <-.
  - cbv zeta in H.
    destruct (last_applied (raft_state n) <? commit_index (raft_state n));
      [|now injection H as <-].
    destruct (getitem _ _) as [e|]; [|discriminate H].
    cbn [mbind result_bind] in H. apply IH in H. cbn in H. exact H.
Qed.

Lemma accept_entries_frame (req : AppendEntries) (n n' : RaftNode)
  (r : AppendReply) :
  accept_entries req n = Ok (n', r) →
  current_term (raft_state n') = current_term (raft_state n)
  ∧ voted_for (raft_state n') = voted_for (raft_state n).
Proof.
  unfold accept_entries.
  destruct (store_entries _ _) as [l|]; [|discriminate].
  cbn [mbind result_bind]. cbv zeta.
  destruct (_ <? _).
  - destruct (_apply_committed _) as [n1|] eqn:Happ; [|discriminate].
    cbn [mbind result_bind]. intros H. injection H as <- _.
    apply apply_loop_frame in Happ as (Ht & Hv & _). cbn in Ht, Hv. auto.
  - cbn [mbind result_bind]. intros H. injection H as <- _. cbn. auto.
Qed.

Lemma append_entries_promised (env : Env) (req : AppendEntries)
  (n n' : RaftNode) (r : AppendReply) (t c : Z) :
  _handle_append_entries env req n = Ok (n', r) →
  promised t c n → promised t c n'.
Proof.
  unfold _handle_append_entries, promised. cbv zeta.
  set (n1 := adopt_term (ae_term req) n).
  assert (H1 : current_term (raft_state n) ≤ current_term (raft_state n1)
               ∧ (current_term (raft_state n1) = current_term (raft_state n) →
                  voted_for (raft_state n1) = voted_for (raft_state n))).
  { subst n1. unfold adopt_term.
    destruct (Z.ltb_spec (current_term (raft_state n)) (ae_term req)); cbn;
      split; try lia; auto. }
  destruct H1 as [Hle Hsame].
  assert (Hp1 : t ≤ current_term (raft_state n) ∧
                (current_term (raft_state n) = t →
                 voted_for (raft_state n) = Some c) →
                t ≤ current_term (raft_state n1) ∧
                (current_term (raft_state n1) = t →
                 voted_for (raft_state n1) = Some c)).
  { intros [Ht Hv]. split; [lia|]. intros Heq.
    rewrite Hsame by lia. apply Hv. lia. }
  destruct (ae_term req <? current_term (raft_state n1)).
  { intros H. injection H as <- _. exact Hp1. }
  set (n2 := set_state FOLLOWER
               (set_leader_id (Some (ae_leader_id req))
                  (_reset_election_timer env n1))).
  assert (Hn2 : raft_state n2 = raft_state n1) by reflexivity.
  assert (Hacc : accept_entries req n2 = Ok (n', r) →
                 t ≤ current_term (raft_state n) ∧
                 (current_term (raft_state n) = t →
                  voted_for (raft_state n) = Some c) →
                 t ≤ current_term (raft_state n') ∧
                 (current_term (raft_state n') = t →
                  voted_for (raft_state n') = Some c)).
  { intros H Hp. apply accept_entries_frame in H as [Ht Hv].
    rewrite Ht, Hv, Hn2. now apply Hp1. }
  destruct (0 <? ae_prev_log_index req); [|exact Hacc].
  rewrite Hn2.
  destruct (len (log (raft_state n1)) <? ae_prev_log_index req).
  { intros H. injection H as <- _. exact Hp1. }
  destruct (getitem _ _) as [prev|]; [|discriminate].
  cbn [mbind result_bind].
  destruct (negb _); [|exact Hacc].
  intros H. injection H as <- _. exact Hp1.
Qed.

Lemma request_vote_promised (env : Env) (req : RequestVote) (n n' : RaftNode)
  (r : VoteReply) (t c : Z) :
  _handle_request_vote env req n = (n', r) →
  promised t c n →
  promised t c n'
  ∧ (vr_vote_granted r = true → rv_term req = t → rv_candidate_id req = c).
Proof.
  unfold _handle_request_vote, promised. cbv zeta.
  set (n1 := adopt_term (rv_term req) n).
  assert (H1 : current_term (raft_state n1)
               = Z.max (current_term (raft_state n)) (rv_term req)
               ∧ (current_term (raft_state n1) = current_term (raft_state n) →
                  voted_for (raft_state n1) = voted_for (raft_state n))).
  { subst n1. unfold adopt_term.
    destruct (Z.ltb_spec (current_term (raft_state n)) (rv_term req)); cbn;
      split; try lia; auto. }
  destruct H1 as [Hmax Hsame]. intros H [Ht Hv].
  assert (Hp1 : t ≤ current_term (raft_state n1) ∧
                (current_term (raft_state n1) = t →
                 voted_for (raft_state n1) = Some c)).
  { split; [lia|]. intros Heq. rewrite Hsame by lia. apply Hv. lia. }
  destruct (Z.ltb_spec (rv_term req) (current_term (raft_state n1))) as [Hlt|Hge].
  { injection H as <- <-. split; [exact Hp1|]. discriminate. }
  destruct (log_ok req (log (raft_state n1))
            && may_vote_for (rv_candidate_id req) (raft_state n1)) eqn:Hgrant.
  - injection H as <- <-. cbn.
    apply andb_true_iff in Hgrant as [_ Hmay]. unfold may_vote_for in Hmay.
    assert (Hc : current_term (raft_state n1) = t → rv_candidate_id req = c).
    { intros Heq. rewrite (proj2 Hp1 Heq) in Hmay. lia. }
    split; [split; [apply Hp1|]|].
    + intros Heq. f_equal. now apply Hc.
    + intros _ Heq. apply Hc. lia.
  - injection H as <- <-. split; [exact Hp1|]. discriminate.
Qed.

Lemma request_vote_granted (env : Env) (req : RequestVote) (n n' : RaftNode)
  (r : VoteReply) :
  _handle_request_vote env req n = (n', r) → vr_vote_granted r = true →
  promised (rv_term req) (rv_candidate_id req) n'.
Proof.
  unfold _handle_request_vote, promised. cbv zeta.
  set (n1 := adopt_term (rv_term req) n).
  assert (Hmax : current_term (raft_state n1)
                 = Z.max (current_term (raft_state n)) (rv_term req)).
  { subst n1. unfold adopt_term.
    destruct (Z.ltb_spec (current_term (raft_state n)) (rv_term req)); cbn; lia. }
  destruct (Z.ltb_spec (rv_term req) (current_term (raft_state n1))) as [Hlt|Hge].
  { intros H. injection H as <- <-. discriminate. }
  destruct (_ && _).
  - intros H. injection H as <- <-. cbn. intros _. split; [lia|]. reflexivity.
  - intros H. injection H as <- <-. discriminate.
Qed.

Lemma collect_votes_promised
  (send_rpc : Address → RequestVote → option VoteReply) (req : RequestVote)
  (ps : list (Z * Address)) (t c : Z) :
  ∀ votes n,
    promised t c n → rv_term req = current_term (raft_state n) →
    match collect_votes send_rpc req ps votes n with
    | inl n' => promised t c n' ∧ current_term (raft_state n) < current_term (raft_state n')
    | inr (n', _) => n' = n
    end.
Proof.
  induction ps as [|[peer_id addr] rest IH]; intros votes n Hp Hreq;
    cbn [collect_votes]; [reflexivity|].
  destruct (send_rpc addr req) as [r|]; [|now apply IH].
  destruct (Z.ltb_spec (rv_term req) (vr_term r)); [|now apply IH].
  cbn. destruct Hp as [Ht _]. unfold promised. cbn. repeat split; lia.
Qed.

Lemma become_leader_state (n : RaftNode) :
  raft_state (_become_leader n) = raft_state n.
Proof. reflexivity. Qed.

Lemma start_election_promised (env : Env)
  (send_rpc : Address → RequestVote → option VoteReply) (n : RaftNode) (t c : Z) :
  promised t c n →
  promised t c (_start_election env send_rpc n)
  ∧ t ≠ current_term (raft_state n) + 1
  ∧ promised (current_term (raft_state n) + 1) (node_id n)
      (_start_election env send_rpc n).
Proof.
  intros [Ht Hv]. unfold _start_election. cbv zeta.
  set (n1 := election_start env n).
  assert (Hn1 : current_term (raft_state n1) = current_term (raft_state n) + 1
                ∧ voted_for (raft_state n1) = Some (node_id n)) by (now cbn).
  destruct Hn1 as [Ht1 Hv1].
  assert (Hp1 : promised t c n1) by (split; lia).
  assert (Hs1 : promised (current_term (raft_state n) + 1) (node_id n) n1)
    by (split; [lia|auto]).
  pose proof (collect_votes_promised send_rpc (election_request n1) (peers n1)
                t c 1 n1 Hp1 eq_refl) as Hc.
  pose proof (collect_votes_promised send_rpc (election_request n1) (peers n1)
                (current_term (raft_state n) + 1) (node_id n) 1 n1 Hs1 eq_refl)
    as Hc'.
  destruct (collect_votes _ _ _ _ _) as [n'|[n' votes]].
  - split; [apply Hc|]. split; [lia|apply Hc'].
  - subst n'. split; [|split; [lia|]].
    + destruct (_ && _); [|exact Hp1].
      unfold promised. rewrite become_leader_state. exact Hp1.
    + destruct (_ && _); [|exact Hs1].
      unfold promised. rewrite become_leader_state. exact Hs1.
Qed.

Lemma event_step_promised (ev : event) (n n' : RaftNode)
  (v : option (Z * Z)) (t c : Z) :
  event_step ev n = Ok (n', v) → promised t c n →
  promised t c n' ∧ ∀ c', v = Some (t, c') → c' = c.
Proof.
  destruct ev as [env request|env send_rpc]; cbn [event_step].
  - destruct request as [req|req|cmd| |]; cbn [_process].
    + destruct (_handle_request_vote env req n) as [n1 r] eqn:Hv.
      cbn [mbind result_bind]. intros H Hp. injection H as <- <-.
      destruct (request_vote_promised env req n n1 r t c Hv Hp) as [Hp' Hc].
      split; [exact Hp'|]. intros c' Heq.
      destruct (vr_vote_granted r); [|discriminate Heq].
      injection Heq as <- <-. now apply Hc.
    + destruct (_handle_append_entries env req n) as [[n1 r]|] eqn:Ha;
        [|discriminate].
      cbn [mbind result_bind]. intros H Hp. injection H as <- <-.
      split; [|discriminate]. eapply append_entries_promised; eassumption.
    + unfold _handle_client_request.
      destruct (negb _); cbn [mbind result_bind]; intros H Hp;
        injection H as <- <-; (split; [exact Hp|discriminate]).
    + cbn [mbind result_bind]. intros H Hp. injection H as <- <-.
      split; [exact Hp|discriminate].
    + cbn [mbind result_bind]. intros H Hp. injection H as <- <-.
      split; [exact Hp|discriminate].
  - intros H Hp. injection H as <- <-.
    destruct (start_election_promised env send_rpc n t c Hp) as (Hp' & Hne & _).
    split; [exact Hp'|]. intros c' Heq. injection Heq as Heq _. lia.
Qed.

Lemma event_step_vote (ev : event) (n n' : RaftNode) (t c : Z) :
  event_step ev n = Ok (n', Some (t, c)) → promised t c n'.
Proof.
  destruct ev as [env request|env send_rpc]; cbn [event_step].
  - destruct request as [req|req|cmd| |]; cbn [_process].
    + destruct (_handle_request_vote env req n) as [n1 r] eqn:Hv.
      cbn [mbind result_bind]. intros H. injection H as <- H.
      destruct (vr_vote_granted r) eqn:Hg; [|discriminate H].
      injection H as <- <-. eapply request_vote_granted; eassumption.
    + destruct (_handle_append_entries env req n) as [[n1 r]|]; [|discriminate].
      cbn [mbind result_bind]. intros H. discriminate H.
    + destruct (_handle_client_request cmd n) as [n1 r].
      cbn [mbind result_bind]. intros H. discriminate H.
    + cbn [mbind result_bind]. intros H. discriminate H.
    + cbn [mbind result_bind]. intros H. discriminate H.
  - intros H. injection H as <- <- <-.
    destruct (start_election_promised env send_rpc n
                (current_term (raft_state n) - 1) 0) as (_ & _ & Hs);
      [split; [lia|intros; lia]|exact Hs].
Qed.

Lemma event_run_promised (evs : list event) (t c : Z) :
  ∀ n n' votes,
    event_run evs n = Ok (n', votes) → promised t c n →
    ∀ c', (t, c') ∈ votes → c' = c.
Proof.
  induction evs as [|ev rest IH]; intros n n' votes H Hp c' Hin;
    cbn [event_run] in H.
  - injection H as <- <-. now apply elem_of_nil in Hin.
  - destruct (event_step ev n) as [[n1 v]|] eqn:Hstep; [|discriminate H].
    cbn [mbind result_bind] in H.
    destruct (event_run rest n1) as [[n2 vs]|] eqn:Hrun; [|discriminate H].
    cbn [mbind result_bind] in H. injection H as <- <-.
    destruct (event_step_promised ev n n1 v t c Hstep Hp) as [Hp1 Hv].
    destruct v as [x|].
    + apply elem_of_cons in Hin as [<-|Hin]; [now apply Hv|].
      eapply IH; eassumption.
    + eapply IH; eassumption.
Qed.

(** A node casts one vote per term at most: whatever requests it serves and
    whatever elections it starts, the votes it grants in one term, its votes
    for itself included, all go to the same candidate. *)
Theorem one_vote_per_term (evs : list event) (n n' : RaftNode)
  (votes : list (Z * Z)) (t c1 c2 : Z) :
  event_run evs n = Ok (n', votes) →
  (t, c1) ∈ votes → (t, c2) ∈ votes → c1 = c2.
Proof.
  revert n n' votes. induction evs as [|ev rest IH]; intros n n' votes H H1 H2;
    cbn [event_run] in H.
  - injection H as <- <-. now apply elem_of_nil in H1.
  - destruct (event_step ev n) as [[n1 v]|] eqn:Hstep; [|discriminate H].
    cbn [mbind result_bind] in H.
    destruct (event_run rest n1) as [[n2 vs]|] eqn:Hrun; [|discriminate H].
    cbn [mbind result_bind] in H. injection H as <- <-.
    destruct v as [[t0 c0]|]; [|eapply IH; eassumption].
    pose proof (event_step_vote ev n n1 t0 c0 Hstep) as Hp.
    apply elem_of_cons in H1 as [H1|H1]; apply elem_of_cons in H2 as [H2|H2].
    + congruence.
    + injection H1 as -> ->. symmetry.
      eapply event_run_promised; eassumption.
    + injection H2 as -> ->.
      eapply event_run_promised; eassumption.
    + eapply IH; eassumption.
Qed.

Lemma one_vote_per_term_witness :
  let env := mkEnv 10 2 in
  let n := mkRaftNode 0 [(1, ("localhost"%string, 16001))] FOLLOWER
             (mkRaftState 0 None [] 0 0) ∅ ∅ None 2 0 [] in
  let evs := [Serve env (ReqVote (mkRequestVote 1 1 0 0));
              Serve env (ReqVote (mkRequestVote 1 2 0 0));
              Elect env (fun _ _ => None);
              Serve env (ReqVote (mkRequestVote 2 1 0 0))] in
  ∃ n', event_run evs n = Ok (n', [(1, 1); (2, 0)])
        ∧ ∀ c, (2, c) ∈ [(1, 1); (2, 0)] → c = 0.
Proof.
  intros env n evs.
  assert (H : ∃ n', event_run evs n = Ok (n', [(1, 1); (2, 0)]))
    by (eexists; vm_compute; reflexivity).
  destruct H as [n' H]. exists n'. split; [exact H|].
  intros c Hc.
  apply (one_vote_per_term evs n n' [(1, 1); (2, 0)] 2 c 0 H Hc).
  apply list_elem_of_further, list_elem_of_here.
Defined.

End RaftProps.

(** ** Raft: the commit index *)

Section CommitProps.

Import Raft RaftSpec.

Lemma apply_loop_spec (k : nat) :
  ∀ n, 0 ≤ last_applied (raft_state n) →
       last_applied (raft_state n) + Z.of_nat k = commit_index (raft_state n) →
       commit_index (raft_state n) ≤ len (log (raft_state n)) →
       apply_loop k n
       = Ok (set_applied
               (set_last_applied (commit_index (raft_state n)) (raft_state n))
               (applied n
                ++ take k (drop (Z.to_nat (last_applied (raft_state n)))
                             (log (raft_state n))))
               n).
Proof.
  induction k as [|k IH]; intros n H0 Hk Hc.
  - cbn [apply_loop take]. rewrite app_nil_r.
    replace (commit_index (raft_state n)) with (last_applied (raft_state n))
      by lia.
    now destruct n as [? ? ? [] ? ? ? ? ? ?].
  - cbn [apply_loop]. cbv zeta.
    destruct (Z.ltb_spec (last_applied (raft_state n))
                (commit_index (raft_state n))) as [_|Hge]; [|lia].
    replace (last_applied (raft_state n) + 1 - 1)
      with (last_applied (raft_state n)) by lia.
    destruct (lookup_lt_is_Some_2 (log (raft_state n))
                (Z.to_nat (last_applied (raft_state n)))) as [e He].
    { unfold len in Hc. lia. }
    rewrite (getitem_in_range _ _ e H0 He). cbn [mbind result_bind].
    rewrite IH; cbn [raft_state set_applied set_last_applied last_applied
                       commit_index log applied]; [|lia..].
    f_equal. unfold set_applied. cbn. f_equal.
    rewrite <- app_assoc. f_equal.
    rewrite (drop_S _ e _ He). cbn [take app]. f_equal. f_equal. f_equal. lia.
Qed.

Lemma committable_commit_index (n : RaftNode) (c k : Z) :
  committable (set_raft_state (set_commit_index c (raft_state n)) n) k
  = committable n k.
Proof. reflexivity. Qed.

Lemma commit_loop_spec (ks : list Z) :
  ∀ n, (∀ k, k ∈ ks → 1 ≤ k ≤ len (log (raft_state n))) →
       commit_loop ks n
       = Ok (set_raft_state
               (set_commit_index
                  (last_committable n (commit_index (raft_state n)) ks)
                  (raft_state n)) n).
Proof.
  induction ks as [|k rest IH]; intros n Hks.
  - cbn. now destruct n as [? ? ? [] ? ? ? ? ? ?].
  - cbn [commit_loop]. unfold last_committable. cbn [foldl].
    destruct (Hks k) as [Hk1 Hk2]; [apply list_elem_of_here|].
    destruct (lookup_lt_is_Some_2 (log (raft_state n)) (Z.to_nat (k - 1)))
      as [e He]; [unfold len in Hk2; lia|].
    assert (H0 : 0 ≤ k - 1) by lia.
    rewrite (getitem_in_range _ _ e H0 He). cbn [mbind result_bind].
    assert (Hrest : ∀ j, j ∈ rest → 1 ≤ j ≤ len (log (raft_state n)))
      by (intros j Hj; apply Hks; now apply list_elem_of_further).
    unfold committable at 2. rewrite He.
    destruct (term e =? current_term (raft_state n)); cbn [negb andb].
    + destruct (len (peers n) / 2 <? replicated_on n k).
      * rewrite IH by exact Hrest. reflexivity.
      * now rewrite IH.
    + now rewrite IH.
Qed.

Lemma last_committable_seqZ (n : RaftNode) (c0 a : Z) (m : nat) :
  let c := last_committable n c0 (seqZ a (Z.of_nat m)) in
  (c = c0 ∧ ∀ j, a ≤ j < a + Z.of_nat m → committable n j = false)
  ∨ (a ≤ c < a + Z.of_nat m ∧ committable n c = true
     ∧ ∀ j, c < j < a + Z.of_nat m → committable n j = false).
Proof.
  induction m as [|m IH]; cbv zeta.
  - left. split; [reflexivity|]. intros j Hj. lia.
  - rewrite seqZ_S. unfold last_committable in *. rewrite foldl_app.
    cbn [foldl]. cbv zeta in IH.
    destruct (committable n (a + Z.of_nat m)) eqn:Hc.
    + right. split; [lia|]. split; [exact Hc|]. intros j Hj. lia.
    + destruct IH as [[-> Hnone]|(Hr & Hcom & Hnone)].
      * left. split; [reflexivity|]. intros j Hj.
        destruct (decide (j = a + Z.of_nat m)) as [->|]; [exact Hc|].
        apply Hnone. lia.
      * right. split; [lia|]. split; [exact Hcom|]. intros j Hj.
        destruct (decide (j = a + Z.of_nat m)) as [->|]; [exact Hc|].
        apply Hnone. lia.
Qed.

(** [_apply_committed] hands the entries after [last_applied] up to
    [commit_index] to the callback, each once and in the order of the log,
    and leaves [last_applied] at [commit_index]; nothing else changes. *)
Theorem apply_committed_spec (n : RaftNode) :
  let rs := raft_state n in
  0 ≤ last_applied rs ≤ commit_index rs →
  commit_index rs ≤ len (log rs) →
  _apply_committed n
  = Ok (set_applied (set_last_applied (commit_index rs) rs)
          (applied n
           ++ take (Z.to_nat (commit_index rs - last_applied rs))
                (drop (Z.to_nat (last_applied rs)) (log rs)))
          n).
Proof.
  intros rs Hla Hci. unfold _apply_committed. apply apply_loop_spec; fold rs; lia.
Qed.

Lemma apply_committed_spec_witness :
  let n := mkRaftNode 0 [] LEADER
             (mkRaftState 1 None
                [mkLogEntry 1 1 "a"; mkLogEntry 1 2 "b"; mkLogEntry 1 3 "c"] 3 1)
             ∅ ∅ None 2 0 [mkLogEntry 1 1 "a"] in
  ∃ n', _apply_committed n = Ok n'
        ∧ last_applied (raft_state n') = 3
        ∧ applied n' = [mkLogEntry 1 1 "a"; mkLogEntry 1 2 "b"; mkLogEntry 1 3 "c"].
Proof.
  intros n. eexists. split.
  - apply (apply_committed_spec n); cbn; unfold len; cbn; lia.
  - split; reflexivity.
Defined.

(** [_update_commit_index] on a node whose indices are in order
    ([0 <= last_applied <= commit_index <= len(log)]) returns; the commit
    index becomes the greatest index past it whose entry is of the current
    term and is counted on more nodes than half the number of peers, and
    stays when there is no such index, so it never goes back; the entries up
    to it are applied. *)
Theorem update_commit_index_spec (n : RaftNode) :
  let rs := raft_state n in
  0 ≤ last_applied rs ≤ commit_index rs →
  commit_index rs ≤ len (log rs) →
  ∃ n', _update_commit_index n = Ok n'
        ∧ commit_index rs ≤ commit_index (raft_state n') ≤ len (log rs)
        ∧ (commit_index rs < commit_index (raft_state n') →
           committable n (commit_index (raft_state n')) = true)
        ∧ (∀ k, commit_index (raft_state n') < k ≤ len (log rs) →
                committable n k = false)
        ∧ last_applied (raft_state n') = commit_index (raft_state n')
        ∧ log (raft_state n') = log rs
        ∧ applied n'
          = applied n
            ++ take (Z.to_nat (commit_index (raft_state n') - last_applied rs))
                 (drop (Z.to_nat (last_applied rs)) (log rs)).
Proof.
  intros rs Hla Hci. unfold _update_commit_index. fold rs. cbv zeta.
  rewrite commit_loop_spec.
  2: { intros k Hk. apply elem_of_seqZ in Hk. fold rs. lia. }
  fold rs. cbn [mbind result_bind].
  set (m := Z.to_nat (len (log rs) - commit_index rs)).
  replace (len (log rs) - commit_index rs) with (Z.of_nat m) by lia.
  pose proof (last_committable_seqZ n (commit_index rs) (commit_index rs + 1) m)
    as Hlast. cbv zeta in Hlast.
  set (c := last_committable n (commit_index rs)
              (seqZ (commit_index rs + 1) (Z.of_nat m))) in *.
  assert (Hc : commit_index rs ≤ c ≤ len (log rs))
    by (destruct Hlast as [[-> _]|(Hr & _)]; lia).
  unfold _apply_committed.
  cbn [raft_state set_raft_state set_commit_index commit_index last_applied].
  fold rs.
  rewrite apply_loop_spec;
    cbn [raft_state set_raft_state set_commit_index commit_index last_applied
           log applied]; fold rs; [|lia..].
  eexists. split; [reflexivity|].
  cbn [raft_state set_raft_state set_applied set_last_applied set_commit_index
         commit_index last_applied log applied].
  split; [exact Hc|]. split; [|split; [|split; [|split]]]; try reflexivity.
  - intros Hlt. destruct Hlast as [[Heq _]|(_ & Hcom & _)]; [lia|exact Hcom].
  - intros k Hk.
    destruct Hlast as [[Heq Hnone]|(_ & _ & Hnone)]; apply Hnone; lia.
Qed.

Lemma update_commit_index_spec_witness :
  let n := mkRaftNode 0 [(1, ("h"%string, 1)); (2, ("h"%string, 2))] LEADER
             (mkRaftState 2 None
                [mkLogEntry 1 1 "a"; mkLogEntry 2 2 "b"; mkLogEntry 2 3 "c"] 0 0)
             ∅ {[1 := 2]} None 2 0 [] in
  ∃ n', _update_commit_index n = Ok n'
        ∧ commit_index (raft_state n') = 2
        ∧ applied n' = [mkLogEntry 1 1 "a"; mkLogEntry 2 2 "b"].
Proof.
  intros n.
  destruct (update_commit_index_spec n) as (n' & Hrun & _);
    [cbn; lia|cbn; unfold len; cbn; lia|].
  exists n'. split; [exact Hrun|].
  revert Hrun. vm_compute. intros H. injection H as <-. split; reflexivity.
Defined.

End CommitProps.

(** ** The MVCC stores: locks, pending writes and isolation levels *)

Section MVCCProps.

Import MVCC MVCCSpec.

Lemma record_of_touch (key k : string) (d : gmap string MVCCRecord) :
  record_of (touch key d).1 k = record_of d k
  ∧ (touch key d).2 = record_of d key.
Proof.
  unfold touch, record_of.
  destruct (d !! key) as [r|] eqn:Hk; cbn.
  - split; reflexivity.
  - split; [|reflexivity].
    destruct (decide (key = k)) as [->|Hne].
    + now rewrite lookup_insert_eq, Hk.
    + now rewrite lookup_insert_ne.
Qed.

Lemma record_of_insert (key k : string) (r : MVCCRecord)
  (d : gmap string MVCCRecord) :
  record_of (<[key := r]> d) k = if decide (key = k) then r else record_of d k.
Proof.
  unfold record_of. destruct (decide (key = k)) as [->|Hne].
  - now rewrite lookup_insert_eq.
  - now rewrite lookup_insert_ne.
Qed.

Lemma holder_commit_key (t c : Z) (key k : string) (p : Pending)
  (d : gmap string MVCCRecord) :
  lock_holder (record_of (commit_key t c key p d) k)
  = if decide (key = k) then None else lock_holder (record_of d k).
Proof.
  unfold commit_key. pose proof (record_of_touch key k d) as [H1 H2].
  destruct (touch key d) as [d' r]. cbn in H1, H2.
  rewrite record_of_insert. destruct (decide (key = k)); [reflexivity|].
  now rewrite H1.
Qed.

Lemma holder_commit (t c : Z) (ws : gmap string Pending)
  (d : gmap string MVCCRecord) (k : string) :
  lock_holder (record_of (map_fold (commit_key t c) d ws) k)
  = match ws !! k with
    | Some _ => None
    | None => lock_holder (record_of d k)
    end.
Proof.
  revert k.
  apply (map_fold_weak_ind
           (λ r (m : gmap string Pending),
              ∀ k, lock_holder (record_of r k)
                   = match m !! k with
                     | Some _ => None
                     | None => lock_holder (record_of d k)
                     end)).
  - intros k. now rewrite lookup_empty.
  - intros i x m r Hi IH k. rewrite holder_commit_key.
    destruct (decide (i = k)) as [->|Hne].
    + now rewrite lookup_insert_eq.
    + rewrite lookup_insert_ne by assumption. apply IH.
Qed.

Lemma holder_abort_key (t : Z) (key k : string) (p : Pending)
  (d : gmap string MVCCRecord) :
  lock_holder (record_of (abort_key t key p d) k)
  = if bool_decide (key = k) && bool_decide (lock_holder (record_of d k) = Some t)
    then None else lock_holder (record_of d k).
Proof.
  unfold abort_key. pose proof (record_of_touch key k d) as [H1 H2].
  destruct (touch key d) as [d' r]. cbn in H1, H2. subst r.
  destruct (bool_decide_reflect (key = k)) as [->|Hne]; cbn [andb].
  - destruct (bool_decide (lock_holder (record_of d k) = Some t)).
    + rewrite record_of_insert. now rewrite decide_True.
    + exact (f_equal lock_holder H1).
  - destruct (bool_decide (lock_holder (record_of d key) = Some t)).
    + rewrite record_of_insert. rewrite decide_False by exact Hne.
      now rewrite H1.
    + now rewrite H1.
Qed.

Lemma holder_abort (t : Z) (ws : gmap string Pending)
  (d : gmap string MVCCRecord) (k : string) :
  lock_holder (record_of (map_fold (abort_key t) d ws) k)
  = match ws !! k with
    | Some _ => if bool_decide (lock_holder (record_of d k) = Some t)
                then None else lock_holder (record_of d k)
    | None => lock_holder (record_of d k)
    end.
Proof.
  revert k.
  apply (map_fold_weak_ind
           (λ r (m : gmap string Pending),
              ∀ k, lock_holder (record_of r k)
                   = match m !! k with
                     | Some _ =>
                         if bool_decide (lock_holder (record_of d k) = Some t)
                         then None else lock_holder (record_of d k)
                     | None => lock_holder (record_of d k)
                     end)).
  - intros k. now rewrite lookup_empty.
  - intros i x m r Hi IH k. rewrite holder_abort_key, IH.
    destruct (bool_decide_reflect (i = k)) as [->|Hne]; cbn [andb].
    + rewrite lookup_insert_eq, Hi.
      destruct (bool_decide_reflect (lock_holder (record_of d k) = Some t))
        as [Hh|Hh]; reflexivity.
    + rewrite lookup_insert_ne by assumption. reflexivity.
Qed.

Lemma versions_of_record_of (d : gmap string MVCCRecord) (k : string) :
  versions_of d k = versions (record_of d k).
Proof. reflexivity. Qed.

Lemma write_pending_inv (t : Z) (key : string) (p : Pending) (st : MVCCStore) :
  let '(st', r) := write_pending t key p st in
  next_txn_id st' = next_txn_id st
  ∧ committed_txns st' = committed_txns st
  ∧ (∀ k, versions_of (data st') k = versions_of (data st) k)
  ∧ ((r = (false, Some "transaction not active"%string)
      ∧ active_txns st !! t = None ∧ st' = st)
     ∨ (r = (false, Some "write conflict"%string)
        ∧ is_Some (active_txns st !! t)
        ∧ (∃ h, holder st key = Some h ∧ h ≠ t)
        ∧ active_txns st' = active_txns st
        ∧ ∀ k, holder st' k = holder st k)
     ∨ (r = (true, None)
        ∧ (holder st key = None ∨ holder st key = Some t)
        ∧ (∃ info, active_txns st !! t = Some info
                   ∧ active_txns st'
                     = <[t := mkTxnInfo (start_ts info) (read_set info)
                               (<[key := p]> (write_set info)) (status info)]>
                         (active_txns st))
        ∧ ∀ k, holder st' k = if decide (key = k) then Some t else holder st k)).
Proof.
  unfold write_pending.
  destruct (active_txns st !! t) as [info|] eqn:Ht.
  2: { split; [reflexivity|]. split; [reflexivity|]. split; [reflexivity|].
       left. auto. }
  pose proof (λ k, record_of_touch key k (data st)) as Htouch.
  destruct (touch key (data st)) as [d r]. cbn [fst snd] in Htouch.
  destruct (Htouch key) as [_ ->]. cbv zeta.
  unfold holder.
  destruct (lock_holder (record_of (data st) key)) as [h|] eqn:Hh.
  - destruct (Z.eqb_spec h t) as [->|Hne]; cbn [negb].
    + cbn [next_txn_id committed_txns data active_txns].
      split; [reflexivity|]. split; [reflexivity|].
      split.
      { intros k. rewrite !versions_of_record_of, record_of_insert.
        destruct (decide (key = k)) as [->|]; cbn; [reflexivity|].
        now rewrite (proj1 (Htouch k)). }
      right. right. split; [reflexivity|]. split; [auto|].
      split; [eauto|]. intros k. rewrite record_of_insert.
      destruct (decide (key = k)); [reflexivity|]. now rewrite (proj1 (Htouch k)).
    + cbn [next_txn_id committed_txns data active_txns].
      split; [reflexivity|]. split; [reflexivity|].
      split.
      { intros k. rewrite !versions_of_record_of. now rewrite (proj1 (Htouch k)). }
      right. left. split; [reflexivity|]. split; [eauto|].
      split; [eauto|]. split; [reflexivity|].
      intros k. now rewrite (proj1 (Htouch k)).
  - cbn [next_txn_id committed_txns data active_txns].
    split; [reflexivity|]. split; [reflexivity|].
    split.
    { intros k. rewrite !versions_of_record_of, record_of_insert.
      destruct (decide (key = k)) as [->|]; cbn; [reflexivity|].
      now rewrite (proj1 (Htouch k)). }
    right. right. split; [reflexivity|]. split; [auto|].
    split; [eauto|]. intros k. rewrite record_of_insert.
    destruct (decide (key = k)); [reflexivity|]. now rewrite (proj1 (Htouch k)).
Qed.

Lemma locks_ok_init : locks_ok init.
Proof.
  split.
  - intros t key. unfold holder, writes, record_of. cbn.
    rewrite lookup_empty. cbn. split; [discriminate|].
    intros (info & Hi & _). now rewrite lookup_empty in Hi.
  - intros t [x Hx]. cbn in Hx. now rewrite lookup_empty in Hx.
Qed.

Lemma locks_ok_begin (now : Z) (st : MVCCStore) :
  locks_ok st → locks_ok (begin_transaction now st).1.
Proof.
  intros [Hh Hid]. unfold begin_transaction. cbn [fst]. split.
  - intros t key. unfold holder, writes. cbn [data active_txns].
    fold (holder st key). rewrite Hh. unfold writes.
    destruct (decide (t = next_txn_id st)) as [->|Hne].
    + rewrite lookup_insert_eq. split.
      * intros (info & Hi & _). specialize (Hid (next_txn_id st)).
        rewrite Hi in Hid. specialize (Hid ltac:(eauto)). lia.
      * intros (info & Hi & [x Hx]). injection Hi as <-. cbn in Hx.
        now rewrite lookup_empty in Hx.
    + now rewrite lookup_insert_ne.
  - intros t. cbn [active_txns next_txn_id]. rewrite lookup_insert_is_Some.
    intros [->|[_ Ht]]; [lia|]. specialize (Hid t Ht). lia.
Qed.

Lemma writes_read (t0 : Z) (key0 : string) (st : MVCCStore) (t : Z) (key : string) :
  writes (read t0 key0 st).1 t key ↔ writes st t key.
Proof.
  unfold read, writes.
  destruct (active_txns st !! t0) as [info0|] eqn:H0; [|reflexivity].
  destruct (write_set info0 !! key0); [reflexivity|]. cbn [fst active_txns].
  destruct (decide (t = t0)) as [->|Hne].
  - rewrite lookup_insert_eq, H0. split.
    + intros (info & Hi & Hk). injection Hi as <-. eauto.
    + intros (info & Hi & Hk). injection Hi as <-. eauto.
  - now rewrite lookup_insert_ne.
Qed.

Lemma locks_ok_read (t0 : Z) (key0 : string) (st : MVCCStore) :
  locks_ok st → locks_ok (read t0 key0 st).1.
Proof.
  intros [Hh Hid]. split.
  - intros t key. rewrite writes_read, <- Hh. unfold read, holder.
    destruct (active_txns st !! t0) as [info0|]; [|reflexivity].
    now destruct (write_set info0 !! key0).
  - intros t Ht. unfold read in *.
    destruct (active_txns st !! t0) as [info0|] eqn:H0; [|now apply Hid].
    destruct (write_set info0 !! key0); [now apply Hid|].
    cbn [fst active_txns next_txn_id] in *.
    apply lookup_insert_is_Some in Ht as [->|[_ Ht]]; [|now apply Hid].
    apply Hid. eauto.
Qed.

Lemma locks_ok_write_pending (t0 : Z) (key0 : string) (p : Pending)
  (st : MVCCStore) :
  locks_ok st → locks_ok (write_pending t0 key0 p st).1.
Proof.
  intros [Hh Hid]. pose proof (write_pending_inv t0 key0 p st) as H.
  destruct (write_pending t0 key0 p st) as [st' r]. cbn [fst].
  destruct H as (Hn & Hc & _ & [(_ & _ & ->)|[(_ & _ & _ & Ha & Hl)|(_ & Hfree & (info0 & H0 & Ha) & Hl)]]).
  - now split.
  - split.
    + intros t key. rewrite Hl, Hh. unfold writes. now rewrite Ha.
    + intros t. rewrite Ha, Hn. apply Hid.
  - split.
    + intros t key. rewrite Hl. unfold writes. rewrite Ha.
      destruct (decide (key0 = key)) as [->|Hk].
      * split.
        -- intros H. injection H as <-. rewrite lookup_insert_eq.
           eexists. split; [reflexivity|]. cbn. rewrite lookup_insert_eq. eauto.
        -- intros (info & Hi & Hw).
           destruct (decide (t = t0)) as [->|Hne]; [reflexivity|].
           rewrite lookup_insert_ne in Hi by congruence.
           assert (Hhold : holder st key = Some t) by (apply Hh; red; eauto).
           destruct Hfree as [Hf|Hf]; congruence.
      * rewrite Hh. unfold writes.
        destruct (decide (t = t0)) as [->|Hne].
        -- rewrite lookup_insert_eq, H0. split.
           ++ intros (info & Hi & Hw). injection Hi as <-.
              eexists. split; [reflexivity|]. cbn.
              now rewrite lookup_insert_ne by congruence.
           ++ intros (info & Hi & Hw). injection Hi as <-. cbn in Hw.
              rewrite lookup_insert_ne in Hw by congruence. eauto.
        -- now rewrite lookup_insert_ne by congruence.
    + intros t. rewrite Ha, Hn. rewrite lookup_insert_is_Some.
      intros [<-|[_ Ht]]; apply Hid; eauto.
Qed.

Lemma locks_ok_commit (now t0 : Z) (st : MVCCStore) :
  locks_ok st → locks_ok (commit now t0 st).1.
Proof.
  intros [Hh Hid]. unfold commit.
  destruct (active_txns st !! t0) as [info0|] eqn:H0; [|now split].
  cbn [fst]. split.
  - intros t key. unfold holder, writes. cbn [data active_txns].
    rewrite holder_commit. fold (holder st key).
    destruct (decide (t = t0)) as [->|Hne].
    + rewrite lookup_delete_eq. split.
      * destruct (write_set info0 !! key) eqn:Hw; [discriminate|].
        intros Hhold. apply Hh in Hhold as (info & Hi & [x Hx]).
        rewrite H0 in Hi. injection Hi as <-. congruence.
      * intros (info & Hi & _). discriminate Hi.
    + rewrite lookup_delete_ne by congruence.
      destruct (write_set info0 !! key) eqn:Hw; [|apply Hh].
      split; [discriminate|]. intros Hwr.
      assert (H1 : holder st key = Some t) by now apply Hh.
      assert (H2 : holder st key = Some t0) by (apply Hh; red; eauto).
      congruence.
  - intros t. cbn [active_txns next_txn_id]. rewrite lookup_delete_is_Some.
    intros [_ Ht]. now apply Hid.
Qed.

Lemma locks_ok_abort (t0 : Z) (st : MVCCStore) :
  locks_ok st → locks_ok (abort t0 st).1.
Proof.
  intros [Hh Hid]. unfold abort.
  destruct (active_txns st !! t0) as [info0|] eqn:H0; [|now split].
  cbn [fst]. split.
  - intros t key. unfold holder, writes. cbn [data active_txns].
    rewrite holder_abort. fold (holder st key).
    destruct (decide (t = t0)) as [->|Hne].
    + rewrite lookup_delete_eq.
      split; [|intros (info & Hi & _); discriminate Hi].
      destruct (write_set info0 !! key) as [p0|] eqn:Hw.
      * destruct (bool_decide_reflect (holder st key = Some t0)) as [_|Hn];
          [discriminate|]. intros Hhold. now destruct Hn.
      * intros Hhold.
        apply Hh in Hhold as (info & Hi & [x Hx]). congruence.
    + rewrite lookup_delete_ne by congruence.
      destruct (write_set info0 !! key) as [p0|]; [|apply Hh].
      destruct (bool_decide_reflect (holder st key = Some t0)) as [Hhold|_];
        [|apply Hh].
      split; [discriminate|]. intros Hwr.
      assert (H1 : holder st key = Some t) by now apply Hh.
      congruence.
  - intros t. cbn [active_txns next_txn_id]. rewrite lookup_delete_is_Some.
    intros [_ Ht]. now apply Hid.
Qed.

Lemma holder_gc (before_ts : Z) (st : MVCCStore) (key : string) :
  holder (gc_old_versions before_ts st) key = holder st key.
Proof.
  unfold holder, gc_old_versions, record_of. cbn [data]. rewrite lookup_fmap.
  destruct (data st !! key) as [r|]; cbn; [|reflexivity].
  unfold gc_record. destruct (_ <? _)%nat; [|reflexivity].
  now destruct (List.filter _ _).
Qed.

Lemma locks_ok_gc (before_ts : Z) (st : MVCCStore) :
  locks_ok st → locks_ok (gc_old_versions before_ts st).
Proof.
  intros [Hh Hid]. split.
  - intros t key. rewrite holder_gc. apply Hh.
  - exact Hid.
Qed.

Lemma locks_ok_step (o : op) (st : MVCCStore) :
  locks_ok st → locks_ok (step o st).
Proof.
  destruct o; cbn [step].
  - apply locks_ok_begin.
  - apply locks_ok_read.
  - apply locks_ok_write_pending.
  - apply locks_ok_write_pending.
  - apply locks_ok_commit.
  - apply locks_ok_abort.
  - apply locks_ok_gc.
Qed.

Lemma locks_ok_step_at (l : level) (o : op) (st : MVCCStore) :
  locks_ok st → locks_ok (step_at l o st).
Proof.
  destruct l, o; cbn [step_at]; auto using locks_ok_step.
Qed.

Lemma locks_ok_run_at (l : level) (ops : list op) :
  ∀ st, locks_ok st → locks_ok (run_at l ops st).
Proof.
  induction ops as [|o rest IH]; intros st H; [exact H|].
  apply IH, locks_ok_step_at, H.
Qed.

Lemma all_committed_step (o : op) (st : MVCCStore) :
  all_committed st → all_committed (step o st).
Proof.
  intros H. destruct o as [now|t key|t key v|t key|now t|t|before_ts];
    cbn [step].
  - exact H.
  - unfold read. destruct (active_txns st !! t) as [info|]; [|exact H].
    destruct (write_set info !! key); exact H.
  - unfold write. pose proof (write_pending_inv t key (mkPending v false) st) as Hw.
    destruct (write_pending _ _ _ _) as [st' r]. destruct Hw as (_ & Hc & Hv & _).
    intros k x Hx. cbn [fst] in *. rewrite Hc. rewrite Hv in Hx. eapply H, Hx.
  - unfold delete. pose proof (write_pending_inv t key (mkPending VNone true) st) as Hw.
    destruct (write_pending _ _ _ _) as [st' r]. destruct Hw as (_ & Hc & Hv & _).
    intros k x Hx. cbn [fst] in *. rewrite Hc. rewrite Hv in Hx. eapply H, Hx.
  - unfold commit. destruct (active_txns st !! t) as [info|]; [|exact H].
    cbn [fst]. intros k x Hx. cbn [data committed_txns] in *.
    rewrite versions_of_commit in Hx. rewrite lookup_insert_is_Some.
    destruct (write_set info !! k) as [p|].
    + apply elem_of_app in Hx as [Hx|Hx].
      * destruct (decide (t = txn_id x)); [auto|]. right. split; [assumption|].
        eapply H, Hx.
      * apply list_elem_of_singleton in Hx as ->. now left.
    + destruct (decide (t = txn_id x)); [auto|]. right. split; [assumption|].
      eapply H, Hx.
  - unfold abort. destruct (active_txns st !! t) as [info|]; [|exact H].
    cbn [fst]. intros k x Hx. cbn [data committed_txns] in *.
    rewrite versions_of_abort in Hx. eapply H, Hx.
  - intros k x Hx. cbn [gc_old_versions data committed_txns] in *.
    eapply H. eapply elem_of_sublist; [exact Hx|]. apply versions_of_gc.
Qed.

Lemma all_committed_run_at (l : level) (ops : list op) :
  ∀ st, all_committed st → all_committed (run_at l ops st).
Proof.
  induction ops as [|o rest IH]; intros st H; [exact H|].
  apply IH. destruct l, o; cbn [step_at]; auto using all_committed_step.
Qed.

Lemma all_committed_init : all_committed init.
Proof.
  intros key v Hv. unfold versions_of in Hv. cbn in Hv.
  rewrite lookup_empty in Hv. cbn in Hv. now apply elem_of_nil in Hv.
Qed.

(** Two transactions never have a pending write of the same key: in a store
    of any of the three kinds, after any calls, a key with a pending write
    is locked by the transaction that has written it, so the pending writes
    of two active transactions are of different keys. *)
Theorem no_concurrent_writers (l : level) (ops : list op) (a b : Z)
  (key : string) :
  let st := run_at l ops init in
  (writes st a key → holder st key = Some a)
  ∧ (writes st a key → writes st b key → a = b).
Proof.
  intros st.
  assert (H : locks_ok st) by apply locks_ok_run_at, locks_ok_init.
  destruct H as [Hh _]. split.
  - apply Hh.
  - intros Ha Hb. apply Hh in Ha, Hb. congruence.
Qed.

Lemma no_concurrent_writers_witness :
  let ops := [Begin 1; Begin 2; Write 1 "x" (VInt 7); Write 2 "x" (VInt 8)]%string in
  holder (run_at Snapshot ops init) "x" = Some 1
  ∧ ¬ writes (run_at Snapshot ops init) 2 "x".
Proof.
  intros ops.
  assert (H1 : writes (run_at Snapshot ops init) 1 "x").
  { eexists. split; [vm_compute; reflexivity|]. vm_compute. eauto. }
  destruct (no_concurrent_writers Snapshot ops 1 2 "x") as [Hh Hw].
  split; [exact (Hh H1)|].
  intros H2. specialize (Hw H1 H2). discriminate Hw.
Defined.



(** A transaction reads its own writes: after a [write] or [delete] that
    has succeeded, [read] of that key by the same transaction returns the
    pending value ([None] after [delete]) and changes nothing. *)
Theorem read_own_write (t : Z) (key : string) (p : Pending)
  (st st1 : MVCCStore) :
  write_pending t key p st = (st1, (true, None)) →
  read t key st1 = (st1, (pending_value p, None)).
Proof.
  intros H. unfold write_pending in H.
  destruct (active_txns st !! t) as [info|]; [|discriminate H].
  destruct (touch key (data st)) as [d r]. cbv zeta in H.
  destruct (match lock_holder r with Some _ => _ | None => _ end);
    [discriminate H|].
  injection H as <-. unfold read. cbn [active_txns].
  rewrite lookup_insert_eq. cbn [write_set]. now rewrite lookup_insert_eq.
Qed.

Lemma read_own_write_witness :
  let st := (begin_transaction 1 init).1 in
  ∃ st1, delete 1 "x" st = (st1, (true, None))
         ∧ read 1 "x" st1 = (st1, (VNone, None)).
Proof.
  intros st.
  assert (H1 : ∃ st1, delete 1 "x" st = (st1, (true, None)))
    by (eexists; vm_compute; reflexivity).
  destruct H1 as [st1 H1]. exists st1.
  split; [exact H1|]. exact (read_own_write 1 "x" _ st st1 H1).
Defined.

(** A transaction that is not active is turned away: [read], [write],
    [delete], [commit] and [abort] return the error
    ['transaction not active'] and change nothing; and a transaction is not
    active once it has committed or aborted. *)
Theorem inactive_rejected (t : Z) (st : MVCCStore) (key : string)
  (v : Py.value) (now : Z) :
  (active_txns st !! t = None →
   read t key st = (st, (VNone, Some "transaction not active"%string))
   ∧ write t key v st = (st, (false, Some "transaction not active"%string))
   ∧ delete t key st = (st, (false, Some "transaction not active"%string))
   ∧ commit now t st = (st, (false, Some "transaction not active"%string))
   ∧ abort t st = (st, (false, Some "transaction not active"%string)))
  ∧ active_txns (commit now t st).1 !! t = None
  ∧ active_txns (abort t st).1 !! t = None.
Proof.
  split; [|split].
  - intros H. unfold read, write, delete, write_pending, commit, abort.
    rewrite H. auto.
  - unfold commit. destruct (active_txns st !! t) eqn:H; [|exact H].
    cbn. apply lookup_delete_eq.
  - unfold abort. destruct (active_txns st !! t) eqn:H; [|exact H].
    cbn. apply lookup_delete_eq.
Qed.

Lemma inactive_rejected_witness :
  let st := (commit 5 1 (begin_transaction 1 init).1).1 in
  read 1 "x" st = (st, (VNone, Some "transaction not active"%string))
  ∧ commit 6 1 st = (st, (false, Some "transaction not active"%string)).
Proof.
  intros st.
  destruct (inactive_rejected 1 (begin_transaction 1 init).1 "x" VNone 5)
    as (_ & Hc & _).
  destruct (inactive_rejected 1 st "x" VNone 6) as (H & _ & _).
  destruct (H Hc) as (Hr & _ & _ & Hc' & _). split; [exact Hr|exact Hc'].
Defined.

(** [abort] discards the writes of the transaction: the versions of every
    key stay as they are and so do the committed transactions, the
    transaction is no longer active, and none of the locks is left with it,
    in a store of any of the three kinds after any calls. *)
Theorem abort_discards_writes (l : level) (ops : list op) (t : Z) :
  let st := run_at l ops init in
  let st' := (abort t st).1 in
  (∀ key, versions_of (data st') key = versions_of (data st) key)
  ∧ committed_txns st' = committed_txns st
  ∧ active_txns st' = base.delete t (active_txns st)
  ∧ ∀ key, holder st' key ≠ Some t.
Proof.
  intros st st'.
  assert (H : locks_ok st').
  { apply locks_ok_abort. apply locks_ok_run_at, locks_ok_init. }
  subst st'. unfold abort in *.
  destruct (active_txns st !! t) as [info|] eqn:Ht; cbn [fst] in *.
  - cbn [data committed_txns active_txns].
    split; [intros key; apply versions_of_abort|].
    split; [reflexivity|]. split; [reflexivity|].
    intros key Hk. apply (lk_holder _ H) in Hk as (i & Hi & _).
    cbn in Hi. now rewrite lookup_delete_eq in Hi.
  - split; [reflexivity|]. split; [reflexivity|].
    split; [now rewrite delete_id|].
    intros key Hk. apply (lk_holder _ H) in Hk as (i & Hi & _). congruence.
Qed.

(** [commit] publishes the writes of the transaction and nothing else: each
    key of the write set gets one new version at the end of its list, with
    the pending value, the id of the transaction and the commit timestamp;
    the versions of the other keys stay as they are; the transaction is
    recorded as committed at that timestamp, and the locks of its keys are
    free. *)
Theorem commit_publishes (now t : Z) (st : MVCCStore) (info : TxnInfo) :
  active_txns st !! t = Some info →
  let st' := (commit now t st).1 in
  commit now t st = (st', (true, None))
  ∧ committed_txns st' !! t = Some now
  ∧ (∀ key, versions_of (data st') key
            = match write_set info !! key with
              | Some p => versions_of (data st) key
                          ++ [mkVersion (p_value p) t now (p_deleted p)]
              | None => versions_of (data st) key
              end)
  ∧ (∀ key, holder st' key
            = match write_set info !! key with
              | Some _ => None
              | None => holder st key
              end).
Proof.
  intros Ht. unfold commit. rewrite Ht. cbn [fst].
  split; [reflexivity|]. cbn [committed_txns data].
  split; [apply lookup_insert_eq|].
  split; [intros key; apply versions_of_commit|].
  intros key. unfold holder. cbn [data]. apply holder_commit.
Qed.

Lemma commit_publishes_witness :
  let st := (write 1 "x" (VInt 7) (begin_transaction 1 init).1).1 in
  versions_of (data (commit 5 1 st).1) "x" = [mkVersion (VInt 7) 1 5 false]
  ∧ holder (commit 5 1 st).1 "x" = None.
Proof.
  intros st.
  assert (Ht : ∃ info, active_txns st !! 1 = Some info
                       ∧ write_set info !! "x"%string
                         = Some (mkPending (VInt 7) false))
    by (eexists; split; vm_compute; reflexivity).
  destruct Ht as (info & Ht & Hw).
  destruct (commit_publishes 5 1 st info Ht) as (_ & _ & Hv & Hl).
  split.
  - rewrite Hv, Hw. vm_compute. reflexivity.
  - rewrite Hl, Hw. reflexivity.
Defined.

Lemma latest_committed_last (committed : gmap Z Z) (vs : list Version) :
  (∀ v, v ∈ vs → is_Some (committed !! txn_id v)) →
  latest_committed committed (reverse vs)
  = match last vs with
    | Some latest => version_value latest
    | None => VNone
    end.
Proof.
  intros H. destruct vs as [|v0 vs0] using rev_ind; [reflexivity|].
  rewrite reverse_app, last_snoc. cbn.
  destruct (H v0) as [c ->]; [|reflexivity].
  apply elem_of_app. right. apply list_elem_of_here.
Qed.

(** No dirty reads at any level: in a store of any of the three kinds, after
    any calls, every version is the write of a transaction that has
    committed, so [ReadUncommittedStore.read] returns a committed value, the
    one [ReadCommittedStore.read] returns to a transaction that has no
    pending write of the key. *)
Theorem read_uncommitted_is_committed (l : level) (ops : list op) (t : Z)
  (key : string) :
  let st := run_at l ops init in
  (∀ v, v ∈ versions_of (data st) key →
        is_Some (committed_txns st !! txn_id v))
  ∧ (¬ writes st t key → read_uncommitted t key st = read_committed t key st).
Proof.
  intros st.
  assert (H : all_committed st) by apply all_committed_run_at, all_committed_init.
  split; [apply H|].
  intros Hw. unfold read_uncommitted, read_committed.
  destruct (active_txns st !! t) as [info|] eqn:Ht; [|reflexivity].
  destruct (write_set info !! key) as [p|] eqn:Hp.
  { destruct Hw. exists info. eauto. }
  specialize (H key). unfold versions_of in H.
  destruct (data st !! key) as [r|]; [|reflexivity]. cbn in H.
  rewrite (latest_committed_last _ _ H).
  destruct (versions r) as [|v0 vs0] eqn:Hv; [reflexivity|].
  now destruct (last (v0 :: vs0)).
Qed.

Lemma read_uncommitted_is_committed_witness :
  let ops := [Begin 1; Begin 2; Write 1 "x" (VInt 7); Commit 3 1;
              Write 2 "x" (VInt 8)]%string in
  read_uncommitted 2 "y" (run_at Uncommitted ops init)
  = read_committed 2 "y" (run_at Uncommitted ops init)
  ∧ read_uncommitted 2 "x" (run_at Uncommitted ops init) = (VInt 7, None).
Proof.
  intros ops. split; [|vm_compute; reflexivity].
  apply (read_uncommitted_is_committed Uncommitted ops 2 "y").
  intros (info & Hi & Hw). revert Hi Hw. vm_compute.
  intros Hi. injection Hi as <-. intros [x Hx]. discriminate Hx.
Defined.

End MVCCProps.

(** ** The persistent log: numbering and truncation *)

Section PLogProps.

Import PLog PLogSpec.

Context {Command : Type}.
Variable json_dumps : Command → list byte.

Lemma get_lookup (i : Z) (l : @PersistentLog Command) (e : @PersistentLogEntry Command) :
  1 ≤ i → entries l !! Z.to_nat (i - 1) = Some e → get i l = Ok (Some e).
Proof.
  intros Hi He. unfold get.
  pose proof (lookup_lt_Some _ _ _ He) as Hlt.
  destruct (Z.leb_spec 1 i); [|lia].
  destruct (Z.leb_spec i (len (entries l))) as [_|Hgt]; [|unfold len in Hgt; lia].
  cbn [andb]. assert (H0 : 0 ≤ i - 1) by lia.
  now rewrite (getitem_in_range _ _ e H0 He).
Qed.

Lemma get_out_of_range (i : Z) (l : @PersistentLog Command) :
  i < 1 ∨ len (entries l) < i → get i l = Ok None.
Proof.
  intros H. unfold get.
  destruct (Z.leb_spec 1 i); [|reflexivity].
  destruct (Z.leb_spec i (len (entries l))); [lia|reflexivity].
Qed.

Lemma append_entries_of (t : Z) (c : Command) (l l' : @PersistentLog Command)
  (e : @PersistentLogEntry Command) :
  append json_dumps t c l = Ok (l', e) →
  e = mkEntry t (len (entries l) + 1) c ∧ entries l' = entries l ++ [e].
Proof.
  unfold append. cbv zeta.
  destruct (_append_to_file _ _ _) as [f|]; [|discriminate].
  cbn [mbind result_bind]. intros H. injection H as <- <-. auto.
Qed.

Lemma append_all_entries (calls : list (Z * Command)) :
  ∀ l l', append_all json_dumps calls l = Ok l' →
          entries l' = entries l ++ numbered (len (entries l)) calls.
Proof.
  induction calls as [|[t c] rest IH]; intros l l' H; cbn [append_all] in H.
  - injection H as <-. cbn. now rewrite app_nil_r.
  - destruct (append json_dumps t c l) as [[l1 e]|] eqn:Happ; [|discriminate H].
    cbn [mbind result_bind] in H.
    apply append_entries_of in Happ as [-> H1].
    rewrite (IH _ _ H), H1, <- app_assoc. cbn [numbered app].
    rewrite len_app. unfold len at 3. cbn [length]. reflexivity.
Qed.

Lemma numbered_lookup (calls : list (Z * Command)) :
  ∀ (k : Z) (i : nat) (t : Z) (c : Command),
    calls !! i = Some (t, c) →
    numbered k calls !! i = Some (mkEntry t (k + Z.of_nat i + 1) c).
Proof.
  induction calls as [|[t0 c0] rest IH]; intros k i t c H; [discriminate H|].
  destruct i as [|i]; cbn [numbered].
  - injection H as <- <-. cbn. do 2 f_equal. lia.
  - cbn in H. rewrite lookup_cons. rewrite (IH (k + 1) i t c H).
    do 2 f_equal. lia.
Qed.

Lemma numbered_length (calls : list (Z * Command)) :
  ∀ k, length (numbered k calls) = length calls.
Proof.
  induction calls as [|[t c] rest IH]; intros k; cbn; [reflexivity|].
  now rewrite IH.
Qed.

(** [append] numbers the entries from 1: in a log made by calls of [append]
    on a new file, [get(i)] is the entry of the [i]-th call, with its term
    and command and the index [i]; [get] of an index out of range is
    [None]; [last_index()] is the number of calls. *)
Theorem appended_entries_numbered (calls : list (Z * Command))
  (l : @PersistentLog Command) :
  append_all json_dumps calls (mkLog None []) = Ok l →
  last_index l = len calls
  ∧ (∀ (i : nat) t c, calls !! i = Some (t, c) →
       get (Z.of_nat i + 1) l = Ok (Some (mkEntry t (Z.of_nat i + 1) c)))
  ∧ (∀ i, i < 1 ∨ len calls < i → get i l = Ok None).
Proof.
  intros H. apply append_all_entries in H. cbn in H.
  assert (Hlen : len (entries l) = len calls).
  { unfold len. now rewrite H, numbered_length. }
  split; [exact Hlen|]. split.
  - intros i t c Hi. apply get_lookup; [lia|].
    replace (Z.to_nat (Z.of_nat i + 1 - 1)) with i by lia.
    rewrite H. now apply numbered_lookup.
  - intros i Hi. apply get_out_of_range. now rewrite Hlen.
Qed.

Lemma rewrite_loop_spec (es : list (@PersistentLogEntry Command)) :
  ∀ data, Forall (packable json_dumps) es →
          rewrite_loop json_dumps es data
          = Ok (data ++ concat (entry_bytes json_dumps <$> es)).
Proof.
  induction es as [|e rest IH]; intros data Hp; cbn [rewrite_loop].
  - cbn. now rewrite app_nil_r.
  - apply Forall_cons in Hp as [(Ht & Hi & Hc) Hrest]. cbv zeta.
    pose proof (len_nonneg (json_dumps (command e))) as Hc0.
    cbn [struct_pack].
    change (256 ^ Z.of_nat 8) with (2 ^ 64).
    change (256 ^ Z.of_nat 4) with (2 ^ 32).
    destruct (Z.leb_spec 0 (term e)); [|lia].
    destruct (Z.ltb_spec (term e) (2 ^ 64)); [|lia].
    destruct (Z.leb_spec 0 (index e)); [|lia].
    destruct (Z.ltb_spec (index e) (2 ^ 64)); [|lia].
    destruct (Z.leb_spec 0 (len (json_dumps (command e)))); [|lia].
    destruct (Z.ltb_spec (len (json_dumps (command e))) (2 ^ 32)); [|lia].
    cbn [andb mbind result_bind]. rewrite (IH _ Hrest).
    f_equal. cbn [fmap list_fmap concat]. unfold entry_bytes.
    rewrite app_nil_r, <- !app_assoc. reflexivity.
Qed.

(** [truncate_from(index)] on a log whose entries [struct.pack] takes:
    an index past the end changes nothing; an index from 1 to the length
    keeps the entries before it; an index below 1 counts from the end, so
    that [truncate_from(0)] drops the last entry only; in the last two
    cases the file is written anew with the entries kept. *)
Theorem truncate_from_spec (index : Z) (l : @PersistentLog Command) :
  Forall (packable json_dumps) (entries l) →
  ∃ l', truncate_from json_dumps index l = Ok l'
        ∧ (len (entries l) < index → l' = l)
        ∧ (1 ≤ index ≤ len (entries l) →
           entries l' = take (Z.to_nat (index - 1)) (entries l))
        ∧ (index < 1 →
           entries l' = take (Z.to_nat (len (entries l) + index - 1)) (entries l))
        ∧ (index ≤ len (entries l) →
           file l' = Some (concat (entry_bytes json_dumps <$> entries l'))).
Proof.
  intros Hp. unfold truncate_from.
  destruct (Z.leb_spec index (len (entries l))) as [Hle|Hgt].
  - unfold _rewrite. cbn [entries].
    assert (Hsub : Forall (packable json_dumps) (slice_to (entries l) (index - 1))).
    { unfold slice_to. destruct (0 <=? index - 1); now apply Forall_take. }
    rewrite (rewrite_loop_spec _ [] Hsub). cbn [mbind result_bind app].
    eexists. split; [reflexivity|]. cbn [entries file].
    split; [lia|]. unfold slice_to. split; [|split].
    + intros H1. destruct (Z.leb_spec 0 (index - 1)); [reflexivity|lia].
    + intros H1. destruct (Z.leb_spec 0 (index - 1)); [lia|].
      f_equal. lia.
    + reflexivity.
  - exists l. split; [reflexivity|]. split; [reflexivity|].
    pose proof (len_nonneg (entries l)).
    repeat split; intros; lia.
Qed.

End PLogProps.

Section PLogWitnesses.

Import PLog PLogSpec.

Lemma appended_entries_numbered_witness :
  let dumps := fun c : list byte => c in
  ∃ l, append_all dumps [(1, [x61]); (1, [x62]); (2, [x63])] (mkLog None []) = Ok l
       ∧ get 3 l = Ok (Some (mkEntry 2 3 [x63]))
       ∧ get 4 l = Ok None.
Proof.
  intros dumps.
  assert (H : ∃ l, append_all dumps [(1, [x61]); (1, [x62]); (2, [x63])]
                     (mkLog None []) = Ok l)
    by (eexists; vm_compute; reflexivity).
  destruct H as [l H]. exists l. split; [exact H|].
  destruct (appended_entries_numbered dumps _ l H) as (_ & Hget & Hnone).
  split.
  - exact (Hget 2%nat 2 [x63] eq_refl).
  - apply Hnone. right. unfold len. cbn. lia.
Defined.

Lemma truncate_from_spec_witness :
  let dumps := fun c : list byte => c in
  let l := mkLog None [mkEntry 1 1 [x61]; mkEntry 1 2 [x62]; mkEntry 2 3 [x63]] in
  ∃ l', truncate_from dumps 0 l = Ok l'
        ∧ entries l' = [mkEntry 1 1 [x61]; mkEntry 1 2 [x62]].
Proof.
  intros dumps l.
  assert (Hp : Forall (packable dumps) (entries l)).
  { cbn. repeat (constructor; [unfold packable, len; cbn; lia|]). constructor. }
  destruct (truncate_from_spec dumps 0 l Hp) as (l' & H & _ & _ & H0 & _).
  exists l'. split; [exact H|]. apply H0. lia.
Defined.

End PLogWitnesses.

(** ** Raft metadata: what is saved is what is loaded *)

Section MetaProps.

Import Meta.

Lemma be_encode_app_take (w1 w2 : nat) (a b : Z) :
  take w1 (be_encode w1 a ++ be_encode w2 b) = be_encode w1 a
  ∧ drop w1 (be_encode w1 a ++ be_encode w2 b) = be_encode w2 b.
Proof.
  split.
  - rewrite take_app_length'; [reflexivity|symmetry; apply be_encode_length].
  - rewrite drop_app_length'; [reflexivity|symmetry; apply be_encode_length].
Qed.

Lemma unpack_pack_signed (v : Z) :
  - 2 ^ 63 ≤ v < 2 ^ 63 →
  pack_signed 8 v = Ok (be_encode 8 (v mod 2 ^ 64))
  ∧ unpack_signed (be_encode 8 (v mod 2 ^ 64)) = v.
Proof.
  intros Hv. unfold pack_signed, unpack_signed.
  change (256 ^ Z.of_nat 8) with (2 ^ 64).
  change (2 ^ 64 / 2) with (2 ^ 63).
  destruct (Z.leb_spec (- 2 ^ 63) v); [|lia].
  destruct (Z.ltb_spec v (2 ^ 63)); [|lia]. cbn [andb].
  split; [reflexivity|]. cbv zeta.
  unfold len. rewrite be_encode_length.
  change (256 ^ Z.of_nat 8) with (2 ^ 64).
  change (2 ^ 64 / 2) with (2 ^ 63).
  pose proof (Z.mod_pos_bound v (2 ^ 64) ltac:(lia)) as Hm.
  rewrite be_decode_encode by (change (256 ^ Z.of_nat 8) with (2 ^ 64); lia).
  destruct (Z.ltb_spec (v mod 2 ^ 64) (2 ^ 63)) as [Hlt|Hge].
  - destruct (Z.leb_spec 0 v) as [Hpos|Hneg].
    + rewrite Z.mod_small in * by lia. reflexivity.
    + rewrite <- (Z.mod_add v 1 (2 ^ 64)) in Hlt by lia.
      rewrite Z.mod_small in Hlt by lia. lia.
  - destruct (Z.leb_spec 0 v) as [Hpos|Hneg].
    + rewrite Z.mod_small in Hge by lia. lia.
    + rewrite <- (Z.mod_add v 1 (2 ^ 64)) by lia.
      rewrite Z.mod_small by lia. lia.
Qed.

(** What [_save] writes is what [_load] reads: after [update(term, voted)]
    with a term that fits 8 bytes and a vote that is [None] or fits 8 bytes
    with a sign, a new [RaftMetadata] on the file has that term, and that
    vote when it is not negative; a negative vote comes back as [None]. *)
Theorem metadata_round_trip (term : Z) (voted : option Z) (m : RaftMetadata) :
  0 ≤ term < 2 ^ 64 →
  (∀ v, voted = Some v → - 2 ^ 63 ≤ v < 2 ^ 63) →
  ∃ data,
    update term voted m = (mkMeta (Some data) term voted, Ok tt)
    ∧ open_meta (Some data)
      = mkMeta (Some data) term
          (match voted with
           | Some v => if 0 <=? v then Some v else None
           | None => None
           end).
Proof.
  intros Ht Hv. unfold update, _save. cbn [current_term voted_for Meta.file].
  set (v := match voted with Some v => v | None => -1 end).
  assert (Hv' : - 2 ^ 63 ≤ v < 2 ^ 63).
  { subst v. destruct voted as [v|]; [now apply Hv|lia]. }
  cbn [struct_pack]. change (256 ^ Z.of_nat 8) with (2 ^ 64).
  destruct (Z.leb_spec 0 term); [|lia].
  destruct (Z.ltb_spec term (2 ^ 64)); [|lia].
  cbn [andb mbind result_bind]. rewrite app_nil_r.
  destruct (unpack_pack_signed v Hv') as [Hpack Hunpack].
  rewrite Hpack. cbn [mbind result_bind].
  eexists. split; [reflexivity|].
  unfold open_meta, _load.
  assert (Hlen : length (be_encode 8 term ++ be_encode 8 (v mod 2 ^ 64)) = 16%nat)
    by (rewrite length_app, !be_encode_length; reflexivity).
  unfold len. rewrite Hlen. change (16 <=? Z.of_nat 16) with true. cbv iota.
  rewrite (take_ge _ 16) by lia.
  destruct (be_encode_app_take 8 8 term (v mod 2 ^ 64)) as [-> ->].
  rewrite Hunpack.
  rewrite be_decode_encode by (change (256 ^ Z.of_nat 8) with (2 ^ 64); lia).
  subst v. destruct voted as [v|]; reflexivity.
Qed.

Lemma metadata_round_trip_witness :
  ∃ data,
    update 7 (Some 2) (open_meta None) = (mkMeta (Some data) 7 (Some 2), Ok tt)
    ∧ open_meta (Some data) = mkMeta (Some data) 7 (Some 2).
Proof.
  destruct (metadata_round_trip 7 (Some 2) (open_meta None)) as (data & H1 & H2).
  - lia.
  - intros v Hv. injection Hv as <-. lia.
  - exists data. split; [exact H1|exact H2].
Defined.

(** A [set_term], [set_voted_for] or [update] that [struct.pack] refuses
    costs the stored state: with a term out of the range of 8 bytes the
    call raises [struct.error] and leaves the file empty, and a new
    [RaftMetadata] on it has the term 0 and no vote. *)
Theorem metadata_lost_on_failed_save (term : Z) (voted : option Z)
  (m : RaftMetadata) :
  term < 0 ∨ 2 ^ 64 ≤ term →
  update term voted m = (mkMeta (Some []) term voted, Raise StructError)
  ∧ set_term term m = (mkMeta (Some []) term None, Raise StructError)
  ∧ open_meta (Some []) = mkMeta (Some []) 0 None.
Proof.
  intros Ht. unfold update, set_term, _save.
  cbn [current_term voted_for Meta.file struct_pack].
  change (256 ^ Z.of_nat 8) with (2 ^ 64).
  assert (Hb : (0 <=? term) && (term <? 2 ^ 64) = false).
  { destruct (Z.leb_spec 0 term); destruct (Z.ltb_spec term (2 ^ 64));
      cbn; try reflexivity; lia. }
  rewrite Hb. cbn [mbind result_bind]. auto.
Qed.

Lemma metadata_lost_on_failed_save_witness :
  let m := (update 7 (Some 2) (open_meta None)).1 in
  current_term (open_meta (file m)) = 7
  ∧ (set_term (2 ^ 64) m).2 = Raise StructError
  ∧ current_term (open_meta (file (set_term (2 ^ 64) m).1)) = 0.
Proof.
  intros m. split; [vm_compute; reflexivity|].
  destruct (metadata_lost_on_failed_save (2 ^ 64) None m) as (_ & H & Ho); [lia|].
  rewrite H. cbn [fst snd file]. split; [reflexivity|]. now rewrite Ho.
Defined.

End MetaProps.

(** ** Raft: client requests and votes *)

Section ClientProps.

Import Raft RaftSpec.

Lemma numbered_log_snoc (l : list LogEntry) (t : Z) (cmd : Command) :
  numbered_log l → numbered_log (l ++ [mkLogEntry t (len l + 1) cmd]).
Proof.
  intros H i e Hi. apply lookup_app_Some in Hi as [Hi|[Hge Hi]].
  - now apply H.
  - destruct (i - length l)%nat as [|j] eqn:Hj; [|discriminate Hi].
    cbn in Hi. injection Hi as <-. cbn. unfold len. lia.
Qed.

(** [_handle_client_request]: a node that is not the leader changes nothing
    and answers with the leader it knows; the leader puts the command at
    the end of its log, in its term and with the next index, which it
    returns, so a log that is numbered from 1 stays so, and
    [_get_status] reports one entry more and the same commit index. *)
Theorem client_request_spec (cmd : Command) (n : RaftNode) :
  (state n ≠ LEADER →
   _handle_client_request cmd n = (n, inl (leader_id n)))
  ∧ (state n = LEADER →
     ∃ n', _handle_client_request cmd n
           = (n', inr (len (log (raft_state n)) + 1))
           ∧ log (raft_state n')
             = log (raft_state n)
               ++ [mkLogEntry (current_term (raft_state n))
                     (len (log (raft_state n)) + 1) cmd]
           ∧ (numbered_log (log (raft_state n)) →
              numbered_log (log (raft_state n')))
           ∧ st_log_length (_get_status n')
             = st_log_length (_get_status n) + 1
           ∧ st_commit_index (_get_status n')
             = st_commit_index (_get_status n)
           ∧ st_term (_get_status n') = st_term (_get_status n)).
Proof.
  unfold _handle_client_request. split.
  - intros H. destruct (state n); try reflexivity. now destruct H.
  - intros ->. cbn [is_leader negb]. cbv zeta. eexists.
    split; [reflexivity|]. cbn [raft_state set_raft_state set_log log].
    split; [reflexivity|]. split; [apply numbered_log_snoc|].
    unfold _get_status.
    cbn [st_log_length st_commit_index st_term raft_state set_raft_state
           set_log log commit_index current_term].
    rewrite len_app. unfold len at 2. cbn [length]. auto.
Qed.

Lemma client_request_spec_witness :
  let n := mkRaftNode 0 [] LEADER (mkRaftState 3 None [mkLogEntry 1 1 "a"] 0 0)
             ∅ ∅ (Some 0) 2 0 [] in
  ∃ n', _handle_client_request "b" n = (n', inr 2)
        ∧ log (raft_state n') = [mkLogEntry 1 1 "a"; mkLogEntry 3 2 "b"].
Proof.
  intros n.
  destruct (client_request_spec "b" n) as [_ H].
  destruct (H eq_refl) as (n' & H1 & H2 & _).
  exists n'. split; [exact H1|exact H2].
Defined.

Lemma adopt_term_spec (t : Z) (n : RaftNode) :
  current_term (raft_state (adopt_term t n))
  = Z.max (current_term (raft_state n)) t
  ∧ log (raft_state (adopt_term t n)) = log (raft_state n)
  ∧ (t ≤ current_term (raft_state n) → adopt_term t n = n)
  ∧ (current_term (raft_state n) < t →
     voted_for (raft_state (adopt_term t n)) = None).
Proof.
  unfold adopt_term.
  destruct (Z.ltb_spec (current_term (raft_state n)) t); cbn;
    repeat split; try lia; auto; intros; lia.
Qed.

(** [_handle_request_vote]: the reply carries the larger of the term of the
    node and the term of the request, which is the term of the node
    afterwards. The vote is granted exactly when the term of the request
    is not behind, the log of the candidate is not behind ([log_ok]), and
    the node has not voted for another candidate in that term; the node
    then records the vote and resets its election timer. A request that is
    turned down with a term that is not ahead changes nothing. *)
Theorem request_vote_spec (env : Env) (req : RequestVote) (n n' : RaftNode)
  (r : VoteReply) :
  _handle_request_vote env req n = (n', r) →
  vr_term r = Z.max (current_term (raft_state n)) (rv_term req)
  ∧ current_term (raft_state n') = vr_term r
  ∧ log (raft_state n') = log (raft_state n)
  ∧ (vr_vote_granted r = true ↔
     current_term (raft_state n) ≤ rv_term req
     ∧ log_ok req (log (raft_state n)) = true
     ∧ (current_term (raft_state n) < rv_term req
        ∨ may_vote_for (rv_candidate_id req) (raft_state n) = true))
  ∧ (vr_vote_granted r = true →
     voted_for (raft_state n') = Some (rv_candidate_id req)
     ∧ last_heartbeat n' = now env)
  ∧ (vr_vote_granted r = false →
     rv_term req ≤ current_term (raft_state n) → n' = n).
Proof.
  unfold _handle_request_vote. cbv zeta.
  destruct (adopt_term_spec (rv_term req) n) as (Hmax & Hlog & Hsame & Hnone).
  set (n1 := adopt_term (rv_term req) n) in *.
  assert (Hvote : current_term (raft_state n) < rv_term req →
                  may_vote_for (rv_candidate_id req) (raft_state n1) = true).
  { intros Hlt. unfold may_vote_for. now rewrite (Hnone Hlt). }
  destruct (Z.ltb_spec (rv_term req) (current_term (raft_state n1))) as [Hlt|Hge].
  { intros H. injection H as <- <-. cbn [vr_term vr_vote_granted].
    split; [exact Hmax|]. split; [reflexivity|]. split; [exact Hlog|].
    split; [split; [discriminate|lia]|]. split; [discriminate|].
    intros _ Hle. now apply Hsame. }
  rewrite Hlog.
  destruct (log_ok req (log (raft_state n))) eqn:Hok; cbn [andb].
  - destruct (may_vote_for (rv_candidate_id req) (raft_state n1)) eqn:Hmay.
    + intros H. injection H as <- <-.
      cbn [vr_term vr_vote_granted raft_state set_raft_state set_voted_for
             _reset_election_timer current_term voted_for log last_heartbeat].
      split; [exact Hmax|]. split; [reflexivity|]. split; [exact Hlog|].
      split.
      { split; [|reflexivity]. intros _. split; [lia|]. split; [reflexivity|].
        destruct (Z.ltb_spec (current_term (raft_state n)) (rv_term req));
          [now left|]. right. rewrite <- Hmay. f_equal. f_equal.
        symmetry. now apply Hsame. }
      split; [auto|discriminate].
    + intros H. injection H as <- <-. cbn [vr_term vr_vote_granted].
      split; [exact Hmax|]. split; [reflexivity|]. split; [exact Hlog|].
      split.
      { split; [discriminate|]. intros (Hle & _ & [Hlt|Hm]).
        - specialize (Hvote Hlt). congruence.
        - destruct (Z.ltb_spec (current_term (raft_state n)) (rv_term req))
            as [Hlt|Hnlt].
          + specialize (Hvote Hlt). congruence.
          + rewrite <- (Hsame Hnlt) in Hm. fold n1 in Hm. congruence. }
      split; [discriminate|]. intros _ Hle. now apply Hsame.
  - intros H. injection H as <- <-. cbn [vr_term vr_vote_granted].
    split; [exact Hmax|]. split; [reflexivity|]. split; [exact Hlog|].
    split; [split; [discriminate|intros (_ & Hf & _); discriminate Hf]|].
    split; [discriminate|]. intros _ Hle. now apply Hsame.
Qed.

Lemma request_vote_spec_witness :
  let env := mkEnv 10 2 in
  let n := mkRaftNode 0 [] FOLLOWER
             (mkRaftState 2 (Some 1) [mkLogEntry 2 1 "a"] 0 0) ∅ ∅ None 2 0 [] in
  (_handle_request_vote env (mkRequestVote 2 5 1 2) n).2 = mkVoteReply 2 false
  ∧ (_handle_request_vote env (mkRequestVote 2 5 1 2) n).1 = n.
Proof.
  intros env n.
  destruct (_handle_request_vote env (mkRequestVote 2 5 1 2) n) as [n' r] eqn:H.
  destruct (request_vote_spec env _ n n' r H) as (_ & _ & _ & _ & _ & Hsame).
  assert (Hr : r = mkVoteReply 2 false).
  { revert H. vm_compute. intros H. now injection H as _ <-. }
  cbn [fst snd]. split; [exact Hr|]. apply Hsame; [now rewrite Hr|cbn; lia].
Defined.

End ClientProps.

(** ** MVCC: garbage collection *)

Section GCProps.

Import MVCC MVCCSpec.

Lemma gc_record_keeps (committed : gmap Z Z) (before_ts : Z) (r : MVCCRecord) :
  (versions r ≠ [] → versions (gc_record committed before_ts r) ≠ [])
  ∧ (∀ v, v ∈ versions r → recent committed before_ts v →
          v ∈ versions (gc_record committed before_ts r))
  ∧ lock_holder (gc_record committed before_ts r) = lock_holder r.
Proof.
  unfold gc_record.
  set (keep := fun version : Version => _).
  assert (Hkeep : ∀ v, recent committed before_ts v → keep v = true).
  { intros v Hv. subst keep. cbv beta. unfold recent in Hv.
    destruct (committed !! txn_id v) as [ts|]; [|reflexivity].
    apply Z.leb_le. now apply Hv. }
  assert (Hin : ∀ v, v ∈ versions r → keep v = true →
                     v ∈ List.filter keep (versions r)).
  { intros v Hv Hk. apply list_elem_of_In, filter_In. split; [|exact Hk].
    now apply list_elem_of_In. }
  destruct (_ <? _)%nat eqn:Hlt; [|auto].
  destruct (List.filter keep (versions r)) as [|v0 vs0] eqn:Hf;
    cbn [versions lock_holder].
  - split; [|split; [|reflexivity]].
    + intros Hne Hd. apply (f_equal length) in Hd. rewrite length_drop in Hd.
      cbn in Hd. destruct (versions r); [congruence|cbn in Hd; lia].
    + intros v Hv Hr. specialize (Hin v Hv (Hkeep v Hr)).
      now apply elem_of_nil in Hin.
  - split; [discriminate|]. split; [|reflexivity].
    intros v Hv Hr. apply Hin; auto.
Qed.

(** [gc_old_versions(before_ts)] drops old versions only: the versions of a
    key that are left are among the old ones, in their order; a key that
    had a version has one still; every version of a transaction that has
    not committed, or has committed at [before_ts] or later, is kept; the
    locks and the transactions are as they were. *)
Theorem gc_keeps_recent (before_ts : Z) (st : MVCCStore) (key : string) :
  let st' := gc_old_versions before_ts st in
  versions_of (data st') key `sublist_of` versions_of (data st) key
  ∧ (versions_of (data st) key ≠ [] → versions_of (data st') key ≠ [])
  ∧ (∀ v, v ∈ versions_of (data st) key →
          recent (committed_txns st) before_ts v →
          v ∈ versions_of (data st') key)
  ∧ holder st' key = holder st key
  ∧ active_txns st' = active_txns st
  ∧ committed_txns st' = committed_txns st
  ∧ next_txn_id st' = next_txn_id st.
Proof.
  intros st'. split; [apply versions_of_gc|].
  subst st'. unfold gc_old_versions, holder, record_of, versions_of.
  cbn [data active_txns committed_txns next_txn_id]. rewrite lookup_fmap.
  destruct (data st !! key) as [r|]; cbn.
  - destruct (gc_record_keeps (committed_txns st) before_ts r) as (H1 & H2 & H3).
    repeat split; assumption.
  - repeat split; auto.
Qed.

End GCProps.

(** ** SSI: [abort] of a committed transaction *)

Section SSIAbortProps.

Import SSI.

Lemma abort_of_committed (st : SerializableSnapshotIsolation) (t : Z)
  (txn : SSITransaction) :
  transactions st !! t = Some txn → txn_id txn = t →
  MVCC.active_txns (store st) !! t = None →
  ∃ st', abort t st = (st', (true, None))
         ∧ transactions st' !! t = Some (set_aborted txn)
         ∧ store st' = store st
         ∧ committed_txns st' = committed_txns st.
Proof.
  intros Ht Hid Hact. unfold abort. rewrite Ht. eexists.
  split; [reflexivity|].
  unfold _abort_internal, _cleanup_locks, set_locks, set_store, set_transactions.
  cbn [transactions store committed_txns]. rewrite Hid.
  split; [now rewrite lookup_alter_eq, Ht|].
  split; [|reflexivity].
  unfold MVCC.abort. now rewrite Hact.
Qed.

(** [abort] does not look at the state of the transaction: called for a
    transaction that has committed, it returns [(True, None)] and marks the
    transaction as aborted, while the transaction stays committed, in the
    layer and in the store, where its writes remain. *)
Theorem abort_after_commit_succeeds (ops : list op)
  (st st1 : SerializableSnapshotIsolation) (now t : Z) :
  run ops init = Ok st →
  commit now t st = Ok (st1, (true, None)) →
  ∃ st2 txn,
    abort t st1 = (st2, (true, None))
    ∧ transactions st2 !! t = Some txn
    ∧ committed txn = true ∧ aborted txn = true
    ∧ t ∈ committed_txns st2
    ∧ store st2 = store st1
    ∧ MVCC.committed_txns (store st2) !! t = Some now.
Proof.
  intros Hrun Hcommit.
  assert (Hc : consistent st) by (eapply consistent_run; [apply consistent_init|exact Hrun]).
  destruct (usable st t) as [txn|] eqn:Hu.
  2: { unfold commit in Hcommit. rewrite Hu in Hcommit. discriminate Hcommit. }
  pose proof (proj1 (usable_Some st t txn) Hu) as (Ht & _ & _).
  pose proof (own_id st Hc t txn Ht) as Hid.
  destruct (commit_consistent now t st txn Hc Hu)
    as [(_ & Hfail & _)|(_ & st' & Hok & Hin)].
  { rewrite Hfail in Hcommit. discriminate Hcommit. }
  rewrite Hok in Hcommit. injection Hcommit as ->.
  destruct Hin as (Hstore & Hcts & Htxn & Hmem & _). rewrite Hid in *.
  destruct (usable_active st Hc t txn Hu) as [info Hinfo].
  assert (Hact : MVCC.active_txns (store st1) !! t = None).
  { rewrite Hstore. unfold MVCC.commit. rewrite Hinfo. cbn.
    apply lookup_delete_eq. }
  destruct (abort_of_committed st1 t _ Htxn Hid Hact)
    as (st2 & Hab & Ht2 & Hs2 & Hc2).
  exists st2, (set_aborted (set_committed (set_commit_ts now txn))).
  split; [exact Hab|]. split; [exact Ht2|].
  split; [reflexivity|]. split; [reflexivity|].
  split; [now rewrite Hc2|]. split; [exact Hs2|]. now rewrite Hs2.
Qed.

Lemma abort_after_commit_succeeds_witness :
  let ops := [Begin 1; Write 1 "x" (VInt 7)]%string in
  let st := match run ops init with Ok s => s | Raise _ => init end in
  let st1 := match commit 2 1 st with Ok (s, _) => s | Raise _ => st end in
  ∃ st2, abort 1 st1 = (st2, (true, None))
         ∧ MVCC.committed_txns (store st2) !! 1 = Some 2.
Proof.
  intros ops st st1.
  assert (H : run ops init = Ok st) by (vm_compute; reflexivity).
  assert (H1 : commit 2 1 st = Ok (st1, (true, None)))
    by (vm_compute; reflexivity).
  destruct (abort_after_commit_succeeds ops st st1 2 1 H H1)
    as (st2 & txn & Hab & _ & _ & _ & _ & _ & Hc).
  exists st2. auto.
Defined.

End SSIAbortProps.
